(** * Derivation codec and binary cache store of Nix: a shallow embedding

    The development follows [src/libstore/derivations.cc] (textual
    derivation codec, [hashDerivationModulo]) and
    [src/libstore/binary-cache-store.cc] (ingestion, export and
    signature update over a flat key-value backend).

    Conventions.
    - A C++ [std::string] is a [string] (a list of 8-bit characters).
    - An input stream positioned somewhere in a text is the [string] of
      the characters not yet read; a reading function returns its result
      together with the rest of the stream.
    - A thrown exception is the [Raise] case of [result].
    - [std::set<T>] and [std::map<K,V>] are kept as lists in strictly
      increasing key order, because the code iterates over them in that
      order; the insertion functions below keep the order.
    - The blob backend, the path-info caches and the [drvHashes] memo
      table are only looked up and updated by key: they are [gmap]s. *)

From Stdlib Require Import Ascii String List ZArith Lia Bool OrdersEx.
From stdpp Require Import gmap strings.

Local Open Scope stdpp_scope.

(** ** Exceptions and results *)

Inductive Exn : Type :=
| FormatError (msg : string)
| BadStorePath (msg : string)
| BadHash (msg : string)
| Error (msg : string)
| InvalidPath (msg : string)
| NoSuchBinaryCacheFile (msg : string)
| SubstituteGone (msg : string)
| UnknownCompressionMethod (msg : string)
| CompressionError (msg : string)
| AssertionFailed (what : string)
| BadAlloc
| OutOfFuel.

Inductive result (A : Type) : Type :=
| Ok (a : A)
| Raise (e : Exn).

Arguments Ok {A} a.
Arguments Raise {A} e.

Definition bind {A B : Type} (m : result A) (k : A -> result B) : result B :=
  match m with
  | Ok a => k a
  | Raise e => Raise e
  end.

Notation "'let*' x ':=' m 'in' k" := (bind m (fun x => k))
  (at level 10, x name, m at level 100, k at level 200).
Notation "'let*' ( x , y ) ':=' m 'in' k" := (bind m (fun '(x, y) => k))
  (at level 10, x name, y name, m at level 100, k at level 200).

Definition is_Ok {A : Type} (r : result A) : bool :=
  match r with Ok _ => true | Raise _ => false end.

(** ** Ordered containers: [std::set] and [std::map] *)

Section Ordered.
Context {K : Type} (cmp : K -> K -> comparison).

(** [std::set<K>::insert] *)
Fixpoint set_insert (x : K) (l : list K) : list K :=
  match l with
  | [] => [x]
  | y :: l' =>
      match cmp x y with
      | Lt => x :: l
      | Eq => l
      | Gt => y :: set_insert x l'
      end
  end.

(** [s.insert(first, last)] and construction from a range *)
Definition set_insert_all (xs : list K) (l : list K) : list K :=
  fold_left (fun acc x => set_insert x acc) xs l.

Context {V : Type}.

(** [std::map<K,V>::find] *)
Fixpoint map_find (k : K) (m : list (K * V)) : option V :=
  match m with
  | [] => None
  | (k', v') :: m' =>
      match cmp k k' with
      | Eq => Some v'
      | _ => map_find k m'
      end
  end.

(** [std::map<K,V>::count] *)
Definition map_count (k : K) (m : list (K * V)) : nat :=
  match map_find k m with Some _ => 1 | None => 0 end.

(** [std::map<K,V>::insert_or_assign] and [m[k] = v] *)
Fixpoint map_insert_or_assign (k : K) (v : V) (m : list (K * V)) : list (K * V) :=
  match m with
  | [] => [(k, v)]
  | (k', v') :: m' =>
      match cmp k k' with
      | Lt => (k, v) :: m
      | Eq => (k', v) :: m'
      | Gt => (k', v') :: map_insert_or_assign k v m'
      end
  end.

(** [std::map<K,V>::emplace]: an existing binding is kept *)
Fixpoint map_emplace (k : K) (v : V) (m : list (K * V)) : list (K * V) :=
  match m with
  | [] => [(k, v)]
  | (k', v') :: m' =>
      match cmp k k' with
      | Lt => (k, v) :: m
      | Eq => m
      | Gt => (k', v') :: map_emplace k v m'
      end
  end.

(** Strictly increasing, the class invariant of both containers *)
Fixpoint increasing (l : list K) : Prop :=
  match l with
  | [] => True
  | x :: l' => Forall (fun y => cmp x y = Lt) l' /\ increasing l'
  end.

Fixpoint increasingb (l : list K) : bool :=
  match l with
  | [] => true
  | x :: l' => forallb (fun y => match cmp x y with Lt => true | _ => false end) l'
               && increasingb l'
  end.
End Ordered.

(** What the proofs need of a comparison *)
Class CmpOk {K : Type} (cmp : K -> K -> comparison) : Prop := {
  cmp_eq : forall x y, cmp x y = Eq <-> x = y;
  cmp_gt : forall x y, cmp x y = Gt <-> cmp y x = Lt;
  cmp_trans : forall x y z, cmp x y = Lt -> cmp y z = Lt -> cmp x z = Lt
}.

(** [operator<] of [std::string]: lexicographic on unsigned bytes *)
Definition strcmp : string -> string -> comparison := String_as_OT.compare.

Abbreviation StringSet := (list string).
Abbreviation Strings := (list string).

(** ** Strings *)

Definition dquote : ascii := ascii_of_nat 34.
Definition backslash : ascii := "\"%char.
Definition chr_n : ascii := "n"%char.
Definition chr_r : ascii := "r"%char.
Definition chr_t : ascii := "t"%char.
Definition LF : ascii := ascii_of_nat 10.
Definition CR : ascii := ascii_of_nat 13.
Definition TAB : ascii := ascii_of_nat 9.

Definition str1 (c : ascii) : string := String c EmptyString.

(** [s] read off the front of [str], or nothing when [str] does not
    start with [s] *)
Fixpoint strip_prefix (s str : string) : option string :=
  match s with
  | EmptyString => Some str
  | String c s' =>
      match str with
      | EmptyString => None
      | String c' str' => if Ascii.eqb c c' then strip_prefix s' str' else None
      end
  end.

Fixpoint string_forall (P : ascii -> bool) (s : string) : bool :=
  match s with
  | EmptyString => true
  | String c s' => P c && string_forall P s'
  end.

(** ** Hashes (hash.hh) *)

Inductive HashType := htMD5 | htSHA1 | htSHA256 | htSHA512.

Record Hash := mkHash { hashType : HashType; hashBytes : string }.

#[global] Instance HashType_eq_dec : EqDecision HashType.
Proof. solve_decision. Defined.

#[global] Instance Hash_eq_dec : EqDecision Hash.
Proof. solve_decision. Defined.

Inductive FileIngestionMethod := Flat | Recursive.

Record FixedOutputHash := mkFixedOutputHash {
  foh_method : FileIngestionMethod;
  foh_hash : Hash
}.

(** Modelled from the spec: [printHashType] and [parseHashType] are not
    among the sources; the algorithm names are those of the data model
    ([algo] is one of sha256, sha1, md5, sha512), and an unknown name is
    an error of the hash constructor. *)
Definition printHashType (ht : HashType) : string :=
  match ht with
  | htMD5 => "md5"
  | htSHA1 => "sha1"
  | htSHA256 => "sha256"
  | htSHA512 => "sha512"
  end.

Definition parseHashType (s : string) : result HashType :=
  if String.eqb s "md5" then Ok htMD5
  else if String.eqb s "sha1" then Ok htSHA1
  else if String.eqb s "sha256" then Ok htSHA256
  else if String.eqb s "sha512" then Ok htSHA512
  else Raise (BadHash ("unknown hash type '" +:+ s +:+ "'")).

(** Modelled from the spec: [printMethodAlgo] yields [<algo>] or
    [r:<algo>] depending on the ingestion method. *)
Definition printMethodAlgo (h : FixedOutputHash) : string :=
  match foh_method h with
  | Recursive => "r:"
  | Flat => ""
  end +:+ printHashType (hashType (foh_hash h)).

(** The hash library, whose code is not among the sources: digest
    computation, the base-16 and base-32 printers and the constructor
    [Hash(string, HashType)] that reads a printed hash back. *)
Record HashLib := {
  hashString : HashType -> string -> Hash;
  to_base16 : Hash -> string;
  to_base32 : Hash -> string;
  parseHash : string -> HashType -> result Hash
}.

(** ** Store paths (path.hh, store-api.hh) *)

Record StorePath := mkStorePath { baseName : string }.

Definition pathcmp (p q : StorePath) : comparison :=
  strcmp (baseName p) (baseName q).

Abbreviation StorePathSet := (list StorePath).

(** Modelled from the spec: a store path is [<hashPart>-<name>] with a
    32-character hash part. *)
Definition HashLen : nat := 32.

Definition hashPart (p : StorePath) : string :=
  String.substring 0 HashLen (baseName p).

Definition storePathName (p : StorePath) : string :=
  String.substring (S HashLen) (String.length (baseName p) - S HashLen) (baseName p).

(** The part of [class Store] the derivation codec calls; these member
    functions are not among the sources. *)
Record Store := {
  storeDir : string;
  printStorePath : StorePath -> string;
  parseStorePath : string -> result StorePath;
  makeFixedOutputPath : FileIngestionMethod -> Hash -> string -> StorePath;
  isValidPath : StorePath -> bool;
  (** [getFSAccessor()->readFile] *)
  readFile : string -> result string
}.

#[global] Instance StorePath_eq_dec : EqDecision StorePath.
Proof. solve_decision. Defined.

#[global] Instance StorePath_countable : Countable StorePath :=
  inj_countable' baseName mkStorePath (fun p => match p with mkStorePath _ => eq_refl end).

(** ** Derivations (derivations.hh) *)

Inductive DerivationOutput :=
| DerivationOutputIntensional (path : StorePath)
| DerivationOutputFixed (hash : FixedOutputHash).

Abbreviation DerivationOutputs := (list (string * DerivationOutput)).
Abbreviation DerivationInputs := (list (StorePath * StringSet)).
Abbreviation StringPairs := (list (string * string)).

Record Derivation := mkDerivation {
  outputs : DerivationOutputs;
  inputSrcs : StorePathSet;
  platform : string;
  builder : string;
  args : Strings;
  env : StringPairs;
  name : string;
  inputDrvs : DerivationInputs
}.

(** [drvHashes], the process-wide memo table of [hashDerivationModulo] *)
Abbreviation DrvHashes := (gmap StorePath Hash).

(** What a reference returned by a function refers to: an object that
    outlives the call, or a temporary of the call that held [a] and is
    destroyed on return.  Reading through the latter is undefined. *)
Inductive Reference (A : Type) : Type :=
| Live (a : A)
| Dangling (a : A).

Arguments Live {A} a.
Arguments Dangling {A} a.

Fixpoint foldM {A S : Type} (f : S -> A -> result S) (l : list A) (s : S) : result S :=
  match l with
  | [] => Ok s
  | x :: l' => let* s' := f s x in foldM f l' s'
  end.

Section Derivations.
Context (store : Store) (hl : HashLib).

(** [DerivationOutput::path] *)
Definition DerivationOutput_path (o : DerivationOutput) (drvName : string) : StorePath :=
  match o with
  | DerivationOutputIntensional path => path
  | DerivationOutputFixed dof =>
      makeFixedOutputPath store (foh_method dof) (foh_hash dof) drvName
  end.

(** [BasicDerivation::findOutput].  The function returns a
    [const StorePath &], and [DerivationOutput::path] returns its
    result by value: the reference is bound to a temporary of the
    [return] statement, which is destroyed when the function returns. *)
Definition findOutput (drv : Derivation) (id : string) : result (Reference StorePath) :=
  match map_find strcmp id (outputs drv) with
  | None => Raise (Error ("derivation has no output '" +:+ id +:+ "'"))
  | Some o => Ok (Dangling (DerivationOutput_path o (name drv)))
  end.

(** [Store::printStorePathSet] and [Store::parseStorePathSet] *)
Definition printStorePathSet (paths : StorePathSet) : StringSet :=
  set_insert_all strcmp (map (printStorePath store) paths) [].

Definition parseStorePathSet (paths : StringSet) : result StorePathSet :=
  foldM (fun res i => let* p := parseStorePath store i in Ok (set_insert pathcmp p res))
        paths [].

(** *** Reading *)

(** [expect]: the next characters must be [s].  When the stream ends
    before [s.size()] characters are read the comparison fails too. *)
Definition expect (s : string) (str : string) : result string :=
  match strip_prefix s str with
  | Some rest => Ok rest
  | None => Raise (FormatError ("expected string '" +:+ s +:+ "'"))
  end.

Definition unescape (c : ascii) : ascii :=
  if Ascii.eqb c chr_n then LF
  else if Ascii.eqb c chr_r then CR
  else if Ascii.eqb c chr_t then TAB
  else c.

(** The loop of [parseString], after the opening quote.  At the end of
    the input [str.get()] keeps returning EOF, which is neither a quote
    nor a backslash: every further turn of the loop appends one more
    byte to [res], until the string can grow no more and [res += c]
    throws [std::bad_alloc] or [std::length_error] ([BadAlloc]). *)
Fixpoint parseStringBody (str : string) : result (string * string) :=
  match str with
  | EmptyString => Raise BadAlloc
  | String c rest =>
      if Ascii.eqb c dquote then Ok (EmptyString, rest)
      else if Ascii.eqb c backslash then
        match rest with
        | EmptyString => Raise BadAlloc
        | String c' rest' =>
            let* (res, str') := parseStringBody rest' in
            Ok (String (unescape c') res, str')
        end
      else
        let* (res, str') := parseStringBody rest in
        Ok (String c res, str')
  end.

Definition parseString (str : string) : result (string * string) :=
  let* str := expect (str1 dquote) str in
  parseStringBody str.

Definition parsePath (str : string) : result (string * string) :=
  let* (s, str) := parseString str in
  match s with
  | String "/" _ => Ok (s, str)
  | _ => Raise (FormatError ("bad path '" +:+ s +:+ "' in derivation"))
  end.

Definition endOfList (str : string) : bool * string :=
  match str with
  | String "," rest => (false, rest)
  | String "]" rest => (true, rest)
  | _ => (false, str)
  end.

(** [while (!endOfList(str)) body]: [acc] is what the body updates.
    Every body below reads at least one character or throws, so the
    loop runs at most once per character of the input. *)
Fixpoint whileNotEndOfList_fuel {A : Type} (fuel : nat)
    (body : A -> string -> result (A * string)) (acc : A) (str : string)
    : result (A * string) :=
  match fuel with
  | 0 => Raise OutOfFuel
  | S fuel' =>
      let '(e, str) := endOfList str in
      if e then Ok (acc, str)
      else
        let* (acc, str) := body acc str in
        whileNotEndOfList_fuel fuel' body acc str
  end.

Definition whileNotEndOfList {A : Type}
    (body : A -> string -> result (A * string)) (acc : A) (str : string)
    : result (A * string) :=
  whileNotEndOfList_fuel (S (String.length str)) body acc str.

Definition parseStrings (str : string) (arePaths : bool) : result (StringSet * string) :=
  whileNotEndOfList
    (fun res str =>
       let* (s, str) := (if arePaths then parsePath str else parseString str) in
       Ok (set_insert strcmp s res, str))
    [] str.

Definition parseDerivationOutput (str : string) : result (DerivationOutput * string) :=
  let* str := expect "," str in
  let* (pathS, str) := parsePath str in
  let* path := parseStorePath store pathS in
  let* str := expect "," str in
  let* (hashAlgo, str) := parseString str in
  let* str := expect "," str in
  let* (hash, str) := parseString str in
  let* str := expect ")" str in
  if negb (String.eqb hashAlgo "") then
    let '(method, hashAlgo) :=
      if String.eqb (String.substring 0 2 hashAlgo) "r:"
      then (Recursive, String.substring 2 (String.length hashAlgo - 2) hashAlgo)
      else (Flat, hashAlgo) in
    let* hashType := parseHashType hashAlgo in
    let* h := parseHash hl hash hashType in
    Ok (DerivationOutputFixed (mkFixedOutputHash method h), str)
  else
    Ok (DerivationOutputIntensional path, str).

Definition parseDerivation (s : string) (name : string) : result Derivation :=
  let str := s in
  let* str := expect "Derive([" str in
  (* Parse the list of outputs. *)
  let* (outs, str) :=
    whileNotEndOfList
      (fun (outs : DerivationOutputs) str =>
         let* str := expect "(" str in
         let* (id, str) := parseString str in
         let* (output, str) := parseDerivationOutput str in
         Ok (map_emplace strcmp id output outs, str))
      [] str in
  (* Parse the list of input derivations.  Of the two arguments of
     [insert_or_assign] only [parseStrings] reads the stream; the path
     is converted first here. *)
  let* str := expect ",[" str in
  let* (inDrvs, str) :=
    whileNotEndOfList
      (fun (ins : DerivationInputs) str =>
         let* str := expect "(" str in
         let* (drvPath, str) := parsePath str in
         let* str := expect ",[" str in
         let* p := parseStorePath store drvPath in
         let* (ids, str) := parseStrings str false in
         let* str := expect ")" str in
         Ok (map_insert_or_assign pathcmp p ids ins, str))
      [] str in
  let* str := expect ",[" str in
  let* (srcs, str) := parseStrings str true in
  let* inSrcs := parseStorePathSet srcs in
  let* str := expect "," str in
  let* (platform, str) := parseString str in
  let* str := expect "," str in
  let* (builder, str) := parseString str in
  (* Parse the builder arguments. *)
  let* str := expect ",[" str in
  let* (args, str) :=
    whileNotEndOfList
      (fun (args : Strings) str =>
         let* (a, str) := parseString str in
         Ok (args ++ [a], str))
      [] str in
  (* Parse the environment variables. *)
  let* str := expect ",[" str in
  let* (env, str) :=
    whileNotEndOfList
      (fun (env : StringPairs) str =>
         let* str := expect "(" str in
         let* (name, str) := parseString str in
         let* str := expect "," str in
         let* (value, str) := parseString str in
         let* str := expect ")" str in
         Ok (map_insert_or_assign strcmp name value env, str))
      [] str in
  let* str := expect ")" str in
  Ok {| outputs := outs; inputSrcs := inSrcs; platform := platform;
        builder := builder; args := args; env := env; name := name;
        inputDrvs := inDrvs |}.

(** *** Writing *)

Fixpoint escape (s : string) : string :=
  match s with
  | EmptyString => EmptyString
  | String c s' =>
      if Ascii.eqb c dquote || Ascii.eqb c backslash
      then String backslash (String c (escape s'))
      else if Ascii.eqb c LF then String backslash (String chr_n (escape s'))
      else if Ascii.eqb c CR then String backslash (String chr_r (escape s'))
      else if Ascii.eqb c TAB then String backslash (String chr_t (escape s'))
      else String c (escape s')
  end.

(** The printers of the source append to a buffer; here each returns
    the text it appends. *)
Definition printString (s : string) : string :=
  str1 dquote +:+ escape s +:+ str1 dquote.

Definition printUnquotedString (s : string) : string :=
  str1 dquote +:+ s +:+ str1 dquote.

(** The loops [if (first) first = false; else s += ','; ...] *)
Fixpoint printSeparated {A : Type} (pr : A -> string) (first : bool) (l : list A) : string :=
  match l with
  | [] => EmptyString
  | x :: l' =>
      (if first then "" else ",") +:+ pr x +:+ printSeparated pr false l'
  end.

Definition printStrings (l : list string) : string :=
  "[" +:+ printSeparated printString true l +:+ "]".

Definition printUnquotedStrings (l : list string) : string :=
  "[" +:+ printSeparated printUnquotedString true l +:+ "]".

Definition printOutput (drvName : string) (maskOutputs : bool)
    (i : string * DerivationOutput) : string :=
  "(" +:+ printUnquotedString (fst i)
  +:+ "," +:+ printUnquotedString
                (if maskOutputs then ""
                 else printStorePath store (DerivationOutput_path (snd i) drvName))
  +:+ match snd i with
      | DerivationOutputFixed hash =>
          "," +:+ printUnquotedString (printMethodAlgo hash)
          +:+ "," +:+ printUnquotedString (to_base16 hl (foh_hash hash))
      | DerivationOutputIntensional _ =>
          "," +:+ printUnquotedString ""
          +:+ "," +:+ printUnquotedString ""
      end
  +:+ ")".

Definition printInput (i : string * StringSet) : string :=
  "(" +:+ printUnquotedString (fst i)
  +:+ "," +:+ printUnquotedStrings (snd i)
  +:+ ")".

Definition printEnvPair (outs : DerivationOutputs) (maskOutputs : bool)
    (i : string * string) : string :=
  "(" +:+ printString (fst i)
  +:+ "," +:+ printString
                (if maskOutputs && negb (Nat.eqb (map_count strcmp (fst i) outs) 0)
                 then "" else snd i)
  +:+ ")".

(** [Derivation::unparse] *)
Definition unparse (drv : Derivation) (maskOutputs : bool)
    (actualInputs : option (list (string * StringSet))) : string :=
  "Derive(["
  +:+ printSeparated (printOutput (name drv) maskOutputs) true (outputs drv)
  +:+ "],["
  +:+ match actualInputs with
      | Some inputs => printSeparated printInput true inputs
      | None =>
          printSeparated
            (fun i => printInput (printStorePath store (fst i), snd i))
            true (inputDrvs drv)
      end
  +:+ "],"
  +:+ printUnquotedStrings (printStorePathSet (inputSrcs drv))
  +:+ "," +:+ printUnquotedString (platform drv)
  +:+ "," +:+ printString (builder drv)
  +:+ "," +:+ printStrings (args drv)
  +:+ ",["
  +:+ printSeparated (printEnvPair (outputs drv) maskOutputs) true (env drv)
  +:+ "])".

(** *** Hashing modulo fixed-output derivations *)

(** [BasicDerivation::isFixedOutput] *)
Definition isFixedOutput (drv : Derivation) : bool :=
  Nat.eqb (length (outputs drv)) 1
  && match outputs drv with
     | (id, o) :: _ =>
         String.eqb id "out"
         && match o with DerivationOutputFixed _ => true | _ => false end
     | [] => false
     end.

(** [Store::readDerivation] *)
Definition readDerivation (drvPath : StorePath) : result Derivation :=
  match
    (let* text := readFile store (printStorePath store drvPath) in
     parseDerivation text (storePathName drvPath))
  with
  | Raise (FormatError msg) =>
      Raise (Error ("error parsing derivation '" +:+ printStorePath store drvPath
                    +:+ "': " +:+ msg))
  | r => r
  end.

(** [hashDerivationModulo].  The memo table [drvHashes] is threaded
    through; [fuel] bounds the depth of the recursion through input
    derivations. *)
Fixpoint hashDerivationModulo (fuel : nat) (drvHashes : DrvHashes)
    (drv : Derivation) (maskOutputs : bool) : result (Hash * DrvHashes) :=
  (* Return a fixed hash for fixed-output derivations. *)
  if isFixedOutput drv then
    match outputs drv with
    | i :: _ =>
        match snd i with
        | DerivationOutputFixed hash =>
            Ok (hashString hl htSHA256
                  ("fixed:out:"
                   +:+ printMethodAlgo hash +:+ ":"
                   +:+ to_base16 hl (foh_hash hash) +:+ ":"
                   +:+ printStorePath store (DerivationOutput_path (snd i) (name drv))),
                drvHashes)
        | _ => Raise (AssertionFailed "std::get<DerivationOutputFixed>")
        end
    | [] => Raise (AssertionFailed "outputs.begin()")
    end
  else
    match fuel with
    | 0 => Raise OutOfFuel
    | S fuel' =>
        (* For other derivations, replace the inputs paths with
           recursive calls to this function. *)
        let* (inputs2, drvHashes) :=
          foldM
            (fun '(inputs2, drvHashes) (i : StorePath * StringSet) =>
               let* (h, drvHashes) :=
                 match drvHashes !! fst i with
                 | Some h => Ok (h, drvHashes)
                 | None =>
                     if negb (isValidPath store (fst i))
                     then Raise (AssertionFailed "store.isValidPath(i.first)")
                     else
                       let* d := readDerivation (fst i) in
                       let* (h, drvHashes) :=
                         hashDerivationModulo fuel' drvHashes d false in
                       Ok (h, <[fst i := h]> drvHashes)
                 end in
               Ok (map_insert_or_assign strcmp (to_base16 hl h) (snd i) inputs2,
                   drvHashes))
            (inputDrvs drv) ([], drvHashes) in
        Ok (hashString hl htSHA256 (unparse drv maskOutputs (Some inputs2)), drvHashes)
    end.

(** *** The reference definition of the specification

    "For a fixed-output derivation with single output [out], returns
    SHA256("fixed:out:" + methodAlgo + ":" + hexHash + ":" + outPath).
    Otherwise, constructs [inputs2] by mapping each input drv path to
    the hex form of its own modulo-hash, then returns
    SHA256(unparse(drv, maskOutputs=false, actualInputs=inputs2))." *)

(** "a fixed-output derivation with single output [out]" *)
Definition spec_fixedOutput (drv : Derivation) : option FixedOutputHash :=
  match outputs drv with
  | [(id, DerivationOutputFixed foh)] => if String.eqb id "out" then Some foh else None
  | _ => None
  end.

Definition spec_fixedHash (foh : FixedOutputHash) (drvName : string) : Hash :=
  let methodAlgo := printMethodAlgo foh in
  let hexHash := to_base16 hl (foh_hash foh) in
  let outPath :=
    printStorePath store
      (makeFixedOutputPath store (foh_method foh) (foh_hash foh) drvName) in
  hashString hl htSHA256 ("fixed:out:" +:+ methodAlgo +:+ ":" +:+ hexHash +:+ ":" +:+ outPath).

(** Lists of output names in lexicographic order *)
Fixpoint idscmp (a b : StringSet) : comparison :=
  match a, b with
  | [], [] => Eq
  | [], _ :: _ => Lt
  | _ :: _, [] => Gt
  | x :: a', y :: b' =>
      match strcmp x y with
      | Eq => idscmp a' b'
      | c => c
      end
  end.

(** The entry of one input derivation under its new key [k], put in
    its place in key order.  Every input keeps its entry; entries
    with the same key are in the order of their output names, so
    that the list does not depend on the path of an input. *)
Fixpoint spec_addInput (k : string) (ids : StringSet)
    (inputs2 : list (string * StringSet)) : list (string * StringSet) :=
  match inputs2 with
  | [] => [(k, ids)]
  | (k', ids') :: rest =>
      match strcmp k k' with
      | Lt => (k, ids) :: inputs2
      | Eq =>
          match idscmp ids ids' with
          | Lt => (k, ids) :: inputs2
          | _ => (k', ids') :: spec_addInput k ids rest
          end
      | Gt => (k', ids') :: spec_addInput k ids rest
      end
  end.

(** "mapping each input drv path to the hex form of its own
    modulo-hash", "each [inputDrvs] key replaced"; [modulo] is the
    modulo-hash of a derivation *)
Definition spec_inputs2 (modulo : Derivation -> result Hash) (drv : Derivation)
    : result (list (string * StringSet)) :=
  foldM
    (fun inputs2 (i : StorePath * StringSet) =>
       let* d := readDerivation (fst i) in
       let* h := modulo d in
       Ok (spec_addInput (to_base16 hl h) (snd i) inputs2))
    (inputDrvs drv) [].

(** The reference with the masking flag of the final [unparse] left
    open; the specification fixes it to [false] *)
Fixpoint ref_hashDerivationModulo (fuel : nat) (drv : Derivation) (maskOutputs : bool)
    : result Hash :=
  match spec_fixedOutput drv with
  | Some foh => Ok (spec_fixedHash foh (name drv))
  | None =>
      match fuel with
      | 0 => Raise OutOfFuel
      | S fuel' =>
          let* inputs2 :=
            spec_inputs2 (fun d => ref_hashDerivationModulo fuel' d false) drv in
          Ok (hashString hl htSHA256 (unparse drv maskOutputs (Some inputs2)))
      end
  end.

Definition spec_hashDerivationModulo (fuel : nat) (drv : Derivation) : result Hash :=
  ref_hashDerivationModulo fuel drv false.

(** The modulo-hash of the derivation stored at [p] *)
Definition spec_hashOfPath (fuel : nat) (p : StorePath) : result Hash :=
  let* d := readDerivation p in
  spec_hashDerivationModulo fuel d.

(** Every entry of the memo table is the modulo-hash of the
    derivation stored at its key *)
Definition drvHashes_ok (drvHashes : DrvHashes) : Prop :=
  forall p h, drvHashes !! p = Some h ->
    exists fuel, spec_hashOfPath fuel p = Ok h.

(** A path whose derivation can be read is a valid path *)
Definition readable_valid : Prop :=
  forall p d, readDerivation p = Ok d -> isValidPath store p = true.
End Derivations.

(** ** The binary cache store (binary-cache-store.hh) *)

Record ValidPathInfo := mkValidPathInfo {
  path : StorePath;
  deriver : option StorePath;
  (** an unset [Hash] object is [None] *)
  narHash : option Hash;
  references : StorePathSet;
  registrationTime : Z;
  narSize : Z;
  ultimate : bool;
  sigs : StringSet;
  ca : option string
}.

(** [struct NarInfo : ValidPathInfo] *)
Record NarInfo := mkNarInfo {
  vpi : ValidPathInfo;
  url : string;
  compression : string;
  fileHash : option Hash;
  fileSize : Z;
  system : string
}.

(** [NarInfo(const ValidPathInfo & info)] *)
Definition NarInfo_of (info : ValidPathInfo) : NarInfo :=
  {| vpi := info; url := ""; compression := ""; fileHash := None;
     fileSize := 0; system := "" |}.

Definition set_vpi (f : ValidPathInfo -> ValidPathInfo) (n : NarInfo) : NarInfo :=
  {| vpi := f (vpi n); url := url n; compression := compression n;
     fileHash := fileHash n; fileSize := fileSize n; system := system n |}.

Definition with_sigs (s : StringSet) (i : ValidPathInfo) : ValidPathInfo :=
  {| path := path i; deriver := deriver i; narHash := narHash i;
     references := references i; registrationTime := registrationTime i;
     narSize := narSize i; ultimate := ultimate i; sigs := s; ca := ca i |}.

Definition with_nar (h : Hash) (size : Z) (i : ValidPathInfo) : ValidPathInfo :=
  {| path := path i; deriver := deriver i; narHash := Some h;
     references := references i; registrationTime := registrationTime i;
     narSize := size; ultimate := ultimate i; sigs := sigs i; ca := ca i |}.

(** The counters are [std::atomic<uint64_t>] *)
Definition wrap64 (z : Z) : Z := z mod 2 ^ 64.

Record Stats := mkStats {
  narInfoRead : Z;
  narInfoWrite : Z;
  narRead : Z;
  narReadBytes : Z;
  narWrite : Z;
  narWriteAverted : Z;
  narWriteBytes : Z;
  narWriteCompressedBytes : Z;
  narWriteCompressionTimeMs : Z
}.

Inductive Counter :=
| cNarInfoRead | cNarInfoWrite
| cNarRead | cNarReadBytes | cNarWrite | cNarWriteAverted | cNarWriteBytes
| cNarWriteCompressedBytes | cNarWriteCompressionTimeMs.

#[global] Instance Counter_eq_dec : EqDecision Counter.
Proof. solve_decision. Defined.

(** [stats.c += n] *)
Definition bump (c : Counter) (n : Z) (s : Stats) : Stats :=
  let upd c' v := if bool_decide (c = c') then wrap64 (v + n) else v in
  {| narInfoRead := upd cNarInfoRead (narInfoRead s);
     narInfoWrite := upd cNarInfoWrite (narInfoWrite s);
     narRead := upd cNarRead (narRead s);
     narReadBytes := upd cNarReadBytes (narReadBytes s);
     narWrite := upd cNarWrite (narWrite s);
     narWriteAverted := upd cNarWriteAverted (narWriteAverted s);
     narWriteBytes := upd cNarWriteBytes (narWriteBytes s);
     narWriteCompressedBytes := upd cNarWriteCompressedBytes (narWriteCompressedBytes s);
     narWriteCompressionTimeMs :=
       upd cNarWriteCompressionTimeMs (narWriteCompressionTimeMs s) |}.

Definition counter (c : Counter) (s : Stats) : Z :=
  match c with
  | cNarInfoRead => narInfoRead s
  | cNarInfoWrite => narInfoWrite s
  | cNarRead => narRead s
  | cNarReadBytes => narReadBytes s
  | cNarWrite => narWrite s
  | cNarWriteAverted => narWriteAverted s
  | cNarWriteBytes => narWriteBytes s
  | cNarWriteCompressedBytes => narWriteCompressedBytes s
  | cNarWriteCompressionTimeMs => narWriteCompressionTimeMs s
  end.

(** The contents of a NAR as [makeNarAccessor] presents them *)
Inductive FileType := tMissing | tRegular | tSymlink | tDirectory.

#[global] Instance FileType_eq_dec : EqDecision FileType.
Proof. solve_decision. Defined.

Record NarAccessor := {
  acc_stat : string -> FileType;
  acc_readDirectory : string -> StringSet
}.

(** What the store calls outside the two sources: the compression
    library, the [.narinfo] codec, the NAR reader, the JSON printers and
    the signing key. *)
Record CacheLib := {
  compress : string -> string -> bool -> result string;
  (** [makeDecompressionSink] knows the method, and what the sink
      delivers for a complete compressed input *)
  decompressionKnown : string -> bool;
  decompress : string -> string -> result string;
  NarInfo_to_string : NarInfo -> string;
  NarInfo_parse : string -> string -> result NarInfo;
  makeNarAccessor : string -> result NarAccessor;
  listNarJSON : NarAccessor -> string;
  debugLinkJSON : string -> string -> string;
  (** [NarInfo::sign]: the signature over the fingerprint *)
  signDetached : string -> NarInfo -> string
}.

(** The settings of one [BinaryCacheStore] *)
Record Config := {
  cfg_compression : string;
  parallelCompression : bool;
  writeNARListing : bool;
  writeDebugInfo : bool;
  secretKey : option string;
  narMagic : string
}.

(** A file of the backend: its bytes and its MIME type *)
Abbreviation Backend := (gmap string (string * string)).

(** Modelled from the spec: the path-info cache is two-tier, an
    in-process table from hash part to an optional [NarInfo] (absent
    value: a negative entry) and an optional persistent table with the
    same keys.  Expiry and eviction of entries are not represented. *)
Abbreviation PathInfoCache := (gmap string (option NarInfo)).

Record State := mkState {
  backend : Backend;
  pathInfoCache : PathInfoCache;
  diskCache : option PathInfoCache;
  stats : Stats
}.

Definition set_backend (f : Backend -> Backend) (s : State) : State :=
  {| backend := f (backend s); pathInfoCache := pathInfoCache s;
     diskCache := diskCache s; stats := stats s |}.
Definition set_pathInfoCache (f : PathInfoCache -> PathInfoCache) (s : State) : State :=
  {| backend := backend s; pathInfoCache := f (pathInfoCache s);
     diskCache := diskCache s; stats := stats s |}.
Definition set_diskCache (f : PathInfoCache -> PathInfoCache) (s : State) : State :=
  {| backend := backend s; pathInfoCache := pathInfoCache s;
     diskCache := f <$> diskCache s; stats := stats s |}.
Definition set_stats (f : Stats -> Stats) (s : State) : State :=
  {| backend := backend s; pathInfoCache := pathInfoCache s;
     diskCache := diskCache s; stats := f (stats s) |}.

(** *** Store operations: a state and exception monad.  A thrown
    exception keeps the state reached so far. *)

Definition M (A : Type) : Type := State -> result A * State.

Definition ret {A : Type} (a : A) : M A := fun s => (Ok a, s).
Definition throw {A : Type} (e : Exn) : M A := fun s => (Raise e, s).
Definition mbindM {A B : Type} (m : M A) (k : A -> M B) : M B :=
  fun s => match m s with
           | (Ok a, s') => k a s'
           | (Raise e, s') => (Raise e, s')
           end.
Definition modify (f : State -> State) : M unit := fun s => (Ok tt, f s).
Definition gets {A : Type} (f : State -> A) : M A := fun s => (Ok (f s), s).
Definition lift {A : Type} (r : result A) : M A := fun s => (r, s).
(** [try m catch (e) h]: [h] says which exceptions are caught *)
Definition try_catch {A : Type} (m : M A) (h : Exn -> option (M A)) : M A :=
  fun s => match m s with
           | (Raise e, s') => match h e with Some k => k s' | None => (Raise e, s') end
           | r => r
           end.

Notation "'do' x <- m ; k" := (mbindM m (fun x => k))
  (at level 10, x name, m at level 100, k at level 200).
Notation "'exec' m ; k" := (mbindM m (fun _ => k))
  (at level 10, m at level 100, k at level 200).

Fixpoint forM_ {A : Type} (l : list A) (f : A -> M unit) : M unit :=
  match l with
  | [] => ret tt
  | x :: l' => exec f x; forM_ l' f
  end.

Definition is_prefix (s str : string) : bool :=
  match strip_prefix s str with Some _ => true | None => false end.

Definition isHexLower (c : ascii) : bool :=
  let n := nat_of_ascii c in
  (Nat.leb 48 n && Nat.leb n 57) || (Nat.leb 97 n && Nat.leb n 102).

(** [std::regex_match(s, "^[0-9a-f]{2}$")] *)
Definition regex1 (s : string) : bool :=
  Nat.eqb (String.length s) 2 && string_forall isHexLower s.

(** [std::regex_match(s, "^[0-9a-f]{38}\\.debug$")] *)
Definition regex2 (s : string) : bool :=
  Nat.eqb (String.length s) 44
  && string_forall isHexLower (String.substring 0 38 s)
  && String.eqb (String.substring 38 6 s) ".debug".

(** What the remaining operations call outside the two sources.  From
    the utility library: [tokenizeString], [trim], [hasSuffix],
    [baseNameOf] and [readFile] on the local file system; from the
    standard library: [std::stoi] and the [%d] of a format.  From the
    store and the archive code: [computeStorePathForText], [dumpString],
    [dumpPath] and [getUri]. *)
Record Util := {
  tokenizeString : string -> string -> Strings;
  trim : string -> string;
  hasSuffix : string -> string -> bool;
  baseNameOf : string -> string;
  readLocalFile : string -> result string;
  stoi : string -> result Z;
  fmtInt : Z -> string
}.

Record StoreLib := {
  computeStorePathForText : string -> string -> StorePathSet -> StorePath;
  dumpString : string -> string;
  dumpPath : string -> (string -> bool) -> result string;
  getUri : string
}.

(** Modelled from the spec: [drvExtension] is declared in a header that
    is not among the sources; the file of a derivation is named
    [<hashPart>-<name>.drv]. *)
Definition drvExtension : string := ".drv".

(** A call of [setDefault] on one of the two settings [init] sets *)
Inductive SettingDefault :=
| WantMassQueryDefault (value : string)
| PriorityDefault (value : string).

(** [ValidPathInfo(path)]: the record as the constructor leaves it *)
Definition ValidPathInfo_of (p : StorePath) : ValidPathInfo :=
  {| path := p; deriver := None; narHash := None; references := [];
     registrationTime := 0; narSize := 0; ultimate := false; sigs := []; ca := None |}.

Definition with_references (refs : StorePathSet) (i : ValidPathInfo) : ValidPathInfo :=
  {| path := path i; deriver := deriver i; narHash := narHash i;
     references := refs; registrationTime := registrationTime i;
     narSize := narSize i; ultimate := ultimate i; sigs := sigs i; ca := ca i |}.

Module BinaryCacheStore.
Section Ops.
Context (store : Store) (hl : HashLib) (lib : CacheLib) (cfg : Config).

(** *** The backend: a flat key-value space *)

Definition fileExists (key : string) : M bool :=
  gets (fun s => match backend s !! key with Some _ => true | None => false end).

Definition upsertFile (key data mimeType : string) : M unit :=
  modify (set_backend <[key := (data, mimeType)]>).

(** [getFile(path, sink)]: the fetch of the backend *)
Definition getFile_sink (key : string) : M string :=
  do f <- gets (fun s => backend s !! key);
  match f with
  | Some (data, _) => ret data
  | None =>
      throw (NoSuchBinaryCacheFile ("file '" +:+ key +:+ "' does not exist in binary cache"))
  end.

(** [getFile(path)]: a missing file is a null result *)
Definition getFile (key : string) : M (option string) :=
  try_catch (do data <- getFile_sink key; ret (Some data))
    (fun e => match e with
              | NoSuchBinaryCacheFile _ => Some (ret None)
              | _ => None
              end).

Definition narInfoFileFor (storePath : StorePath) : string :=
  hashPart storePath +:+ ".narinfo".

Definition writeNarInfo (narInfo : NarInfo) : M unit :=
  let narInfoFile := narInfoFileFor (path (vpi narInfo)) in
  exec upsertFile narInfoFile (NarInfo_to_string lib narInfo) "text/x-nix-narinfo";
  let hashPart := hashPart (path (vpi narInfo)) in
  exec modify (set_pathInfoCache <[hashPart := Some narInfo]>);
  do dc <- gets diskCache;
  match dc with
  | Some _ => modify (set_diskCache <[hashPart := Some narInfo]>)
  | None => ret tt
  end.

Definition isValidPathUncached (storePath : StorePath) : M bool :=
  fileExists (narInfoFileFor storePath).

Definition queryPathInfoUncached (storePath : StorePath) : M (option NarInfo) :=
  let narInfoFile := narInfoFileFor storePath in
  do data <- getFile narInfoFile;
  match data with
  | None => ret None
  | Some data =>
      exec modify (set_stats (bump cNarInfoRead 1));
      do ni <- lift (NarInfo_parse lib data narInfoFile);
      ret (Some ni)
  end.

(** Modelled from the spec: [Store::isValidPath] and
    [Store::queryPathInfo] are not among the sources.  Lookup order is
    tier 1, tier 2, backend; a fetch from the backend populates both
    tiers with its answer, and a path without record is [InvalidPath]. *)
Definition cacheLookup (storePath : StorePath) : M (option (option NarInfo)) :=
  gets (fun s =>
          match pathInfoCache s !! hashPart storePath with
          | Some v => Some v
          | None =>
              match diskCache s with
              | Some dc => dc !! hashPart storePath
              | None => None
              end
          end).

Definition isValidPath (storePath : StorePath) : M bool :=
  do c <- cacheLookup storePath;
  match c with
  | Some (Some _) => ret true
  | Some None => ret false
  | None => isValidPathUncached storePath
  end.

Definition invalidPath {A : Type} (storePath : StorePath) : M A :=
  throw (InvalidPath ("path '" +:+ printStorePath store storePath +:+ "' is not valid")).

Definition queryPathInfo (storePath : StorePath) : M NarInfo :=
  do c <- cacheLookup storePath;
  match c with
  | Some (Some ni) => ret ni
  | Some None => invalidPath storePath
  | None =>
      do info <- queryPathInfoUncached storePath;
      exec modify (set_pathInfoCache <[hashPart storePath := info]>);
      exec modify (set_diskCache <[hashPart storePath := info]>);
      match info with
      | Some ni => ret ni
      | None => invalidPath storePath
      end
  end.

(** *** [addToStore(info, narSource, repair, checkSigs, accessor)] *)

Definition invalidReference (info : ValidPathInfo) (ref : StorePath) : Exn :=
  Error ("cannot add '" +:+ printStorePath store (path info)
         +:+ "' to the binary cache because the reference '"
         +:+ printStorePath store ref +:+ "' is not valid").

(** The body of the loop over [info.references] *)
Definition checkReference (info : ValidPathInfo) (ref : StorePath) : M unit :=
  try_catch
    (if negb (bool_decide (ref = path info))
     then (do _i <- queryPathInfo ref; ret tt)
     else ret tt)
    (fun e =>
       match e with
       | InvalidPath _ => Some (throw (invalidReference info ref))
       | _ => None
       end).

Definition corruptedPath (info : ValidPathInfo) : Exn :=
  Error ("refusing to copy corrupted path '" +:+ printStorePath store (path info)
         +:+ "' to binary cache").

(** The task [doFile] given to the thread pool *)
Definition doFile (member key target : string) : M unit :=
  do ex <- fileExists key;
  if ex then ret tt
  else upsertFile key (debugLinkJSON lib target member) "application/json".

Definition buildIdDir : string := "/lib/debug/.build-id".

(** The tasks enqueued by the two nested loops over the build-id
    directory, in the order of enqueueing.  Their keys are pairwise
    distinct, so the order in which the pool runs them does not show. *)
Definition debugInfoTasks (narAccessor : NarAccessor) (url : string) : list (M unit) :=
  flat_map
    (fun s1 =>
       let dir := buildIdDir +:+ "/" +:+ s1 in
       if negb (bool_decide (acc_stat narAccessor dir = tDirectory)) || negb (regex1 s1)
       then []
       else
         flat_map
           (fun s2 =>
              let debugPath := dir +:+ "/" +:+ s2 in
              if negb (bool_decide (acc_stat narAccessor debugPath = tRegular))
                 || negb (regex2 s2)
              then []
              else
                let buildId := s1 +:+ s2 in
                let key := "debuginfo/" +:+ buildId in
                let target := "../" +:+ url in
                [doFile (String.substring 1 (String.length debugPath - 1) debugPath)
                        key target])
           (acc_readDirectory narAccessor dir))
    (acc_readDirectory narAccessor buildIdDir).

Definition compressionExt (compression : string) : string :=
  if String.eqb compression "xz" then ".xz"
  else if String.eqb compression "bzip2" then ".bz2"
  else if String.eqb compression "br" then ".br"
  else "".

(** The test [!repair && isValidPath(info.path)] *)
Definition alreadyValid (info : ValidPathInfo) (repair : bool) : M bool :=
  if negb repair then isValidPath (path info) else ret false.

(** The failed [assert] on the magic *)
Definition magicAssertion : Exn :=
  AssertionFailed "nar->compare(0, narMagic.size(), narMagic) == 0".

(** [duration] is the compression time the clock measured.  The
    optional [accessor] of the source only has its own cache filled and
    is left out. *)
Definition addToStore (info : ValidPathInfo) (narSource : string)
    (repair : bool) (checkSigs : bool) (duration : Z) : M unit :=
  let nar := narSource in
  do skip <- alreadyValid info repair;
  if skip then ret tt
  else
    (* Verify that all references are valid. *)
    exec forM_ (references info) (checkReference info);
    exec (if is_prefix (narMagic cfg) nar then ret tt
          else throw magicAssertion);
    let narInfo := NarInfo_of info in
    let narInfo :=
      set_vpi (with_nar (hashString hl htSHA256 nar) (Z.of_nat (String.length nar)))
              narInfo in
    exec (match narHash info with
          | Some h =>
              if negb (bool_decide (Some h = narHash (vpi narInfo)))
              then throw (corruptedPath info)
              else ret tt
          | None => ret tt
          end);
    do narAccessor <- lift (makeNarAccessor lib nar);
    (* Optionally write a JSON file containing a listing of the
       contents of the NAR. *)
    exec (if writeNARListing cfg
          then upsertFile (baseName (path info) +:+ ".ls")
                          (listNarJSON lib narAccessor) "application/json"
          else ret tt);
    (* Compress the NAR. *)
    do narCompressed <- lift (compress lib (cfg_compression cfg) nar (parallelCompression cfg));
    let fh := hashString hl htSHA256 narCompressed in
    let narInfo :=
      {| vpi := vpi narInfo;
         url := "nar/" +:+ to_base32 hl fh +:+ ".nar"
                +:+ compressionExt (cfg_compression cfg);
         compression := cfg_compression cfg;
         fileHash := Some fh;
         fileSize := Z.of_nat (String.length narCompressed);
         system := system narInfo |} in
    (* Optionally maintain an index of DWARF debug info files. *)
    exec (if writeDebugInfo cfg
          then
            if bool_decide (acc_stat narAccessor buildIdDir = tDirectory)
            then forM_ (debugInfoTasks narAccessor (url narInfo)) (fun task => task)
            else ret tt
          else ret tt);
    (* Atomically write the NAR file. *)
    do present <- (if repair then ret false else fileExists (url narInfo));
    exec (if repair || negb present
          then
            exec modify (set_stats (bump cNarWrite 1));
            upsertFile (url narInfo) narCompressed "application/x-nix-nar"
          else modify (set_stats (bump cNarWriteAverted 1)));
    exec modify (set_stats (bump cNarWriteBytes (Z.of_nat (String.length nar))));
    exec modify (set_stats (bump cNarWriteCompressedBytes
                                 (Z.of_nat (String.length narCompressed))));
    exec modify (set_stats (bump cNarWriteCompressionTimeMs duration));
    (* Atomically write the NAR info file. *)
    let narInfo :=
      match secretKey cfg with
      | Some key =>
          set_vpi (fun i => with_sigs (set_insert strcmp (signDetached lib key narInfo)
                                                  (sigs i)) i)
                  narInfo
      | None => narInfo
      end in
    exec writeNarInfo narInfo;
    modify (set_stats (bump cNarInfoWrite 1)).

(** *** [narFromPath]: the result is what the caller's sink receives *)
Definition narFromPath (storePath : StorePath) : M string :=
  do info <- queryPathInfo storePath;
  exec (if decompressionKnown lib (compression info) then ret tt
        else throw (UnknownCompressionMethod
                      ("unknown compression method '" +:+ compression info +:+ "'")));
  do data <-
    try_catch (getFile_sink (url info))
      (fun e => match e with
                | NoSuchBinaryCacheFile msg => Some (throw (SubstituteGone msg))
                | _ => None
                end);
  do nar <- lift (decompress lib (compression info) data);
  exec modify (set_stats (bump cNarRead 1));
  exec modify (set_stats (bump cNarReadBytes (Z.of_nat (String.length nar))));
  ret nar.

(** *** [addSignatures] *)
Definition addSignatures (storePath : StorePath) (newSigs : StringSet) : M unit :=
  do ni <- queryPathInfo storePath;
  let narInfo :=
    set_vpi (fun i => with_sigs (set_insert_all strcmp newSigs (sigs i)) i) ni in
  writeNarInfo narInfo.

(** *** The remaining operations *)
Context (util : Util) (slib : StoreLib).

Definition storeDirMismatch (value : string) : Exn :=
  Error ("binary cache '" +:+ getUri slib +:+ "' is for Nix stores with prefix '"
         +:+ value +:+ "', not '" +:+ storeDir store +:+ "'").

(** The loop of [init] over the lines of [nix-cache-info]; [acc] holds
    the calls of [setDefault] made so far *)
Fixpoint initLines (lines : Strings) (acc : list SettingDefault)
    : result (list SettingDefault) :=
  match lines with
  | [] => Ok acc
  | line :: lines' =>
      match String.index 0 ":" line with
      | None => initLines lines' acc
      | Some colon =>
          let name := String.substring 0 colon line in
          let value :=
            trim util (String.substring (colon + 1) (String.length line - (colon + 1)) line) in
          if String.eqb name "StoreDir" then
            if negb (String.eqb value (storeDir store))
            then Raise (storeDirMismatch value)
            else initLines lines' acc
          else if String.eqb name "WantMassQuery" then
            initLines lines'
              (acc ++ [WantMassQueryDefault (if String.eqb value "1" then "true" else "false")])
          else if String.eqb name "Priority" then
            let* n := stoi util value in
            initLines lines' (acc ++ [PriorityDefault (fmtInt util n)])
          else initLines lines' acc
      end
  end.

(** [init]: the result lists the defaults set *)
Definition init : M (list SettingDefault) :=
  let cacheInfoFile := "nix-cache-info" in
  do cacheInfo <- getFile cacheInfoFile;
  match cacheInfo with
  | None =>
      exec upsertFile cacheInfoFile ("StoreDir: " +:+ storeDir store +:+ str1 LF)
                      "text/x-nix-cache-info";
      ret []
  | Some text => lift (initLines (tokenizeString util text (str1 LF)) [])
  end.

(** [addToStore(name, srcPath, method, hashAlgo, filter, repair)] *)
Definition addToStore_path (name srcPath : string) (method : FileIngestionMethod)
    (hashAlgo : HashType) (filter : string -> bool) (repair : bool) (duration : Z)
    : M StorePath :=
  do sh <-
    lift (match method with
          | Recursive =>
              let* nar := dumpPath slib srcPath filter in
              Ok (nar, hashString hl hashAlgo nar)
          | Flat =>
              let* s := readLocalFile util srcPath in
              Ok (dumpString slib s, hashString hl hashAlgo s)
          end);
  let info := ValidPathInfo_of (makeFixedOutputPath store method (snd sh) name) in
  exec addToStore info (fst sh) repair true duration;
  ret (path info).

(** [addTextToStore] *)
Definition addTextToStore (name s : string) (references : StorePathSet)
    (repair : bool) (duration : Z) : M StorePath :=
  let info :=
    with_references references
      (ValidPathInfo_of (computeStorePathForText slib name s references)) in
  do valid <- (if repair then ret false else isValidPath (path info));
  exec (if repair || negb valid
        then addToStore info (dumpString slib s) repair true duration
        else ret tt);
  ret (path info).

(** [isDerivation] of derivations.cc *)
Definition isDerivation (fileName : string) : bool :=
  hasSuffix util fileName drvExtension.

(** Modelled from the spec: [StorePath::isDerivation] is not among the
    sources; a path is a derivation when its name ends in
    [drvExtension], the test [isDerivation] makes on a file name. *)
Definition StorePath_isDerivation (p : StorePath) : bool :=
  isDerivation (storePathName p).

(** [getBuildLog] *)
Definition getBuildLog (path : StorePath) : M (option string) :=
  do drvPath <-
    (if negb (StorePath_isDerivation path)
     then
       try_catch
         (do info <- queryPathInfo path;
          match deriver (vpi info) with
          | None => ret None
          | Some d => ret (Some d)
          end)
         (fun e => match e with
                   | InvalidPath _ => Some (ret None)
                   | _ => None
                   end)
     else ret (Some path));
  match drvPath with
  | None => ret None
  | Some drvPath =>
      let logPath := "log/" +:+ baseNameOf util (printStorePath store drvPath) in
      getFile logPath
  end.

(** [writeDerivation(store, drv, name, repair)] of derivations.cc, on
    this store; [readOnlyMode] is [settings.readOnlyMode] *)
Definition writeDerivation (readOnlyMode : bool) (drv : Derivation) (name : string)
    (repair : bool) (duration : Z) : M StorePath :=
  let references := set_insert_all pathcmp (map fst (inputDrvs drv)) (inputSrcs drv) in
  let suffix := name +:+ drvExtension in
  let contents := unparse store hl drv false None in
  if readOnlyMode
  then ret (computeStorePathForText slib suffix contents references)
  else addTextToStore suffix contents references repair duration.
End Ops.
End BinaryCacheStore.

(** ** A concrete store for the examples

    SHA-256 (FIPS 180-4) on 32-bit words kept in [N], the base-16
    printer and reader of digests, and a store whose paths print as
    [/nix/store/<baseName>]. *)

Module SHA256.
Definition w32 (x : N) : N := N.land x 0xFFFFFFFF.
Definition add32 (x y : N) : N := w32 (x + y).
Definition rotr (n x : N) : N := N.lor (N.shiftr x n) (w32 (N.shiftl x (32 - n))).
Definition not32 (x : N) : N := N.lxor x 0xFFFFFFFF.
Definition Ch (x y z : N) : N := N.lxor (N.land x y) (N.land (not32 x) z).
Definition Maj (x y z : N) : N :=
  N.lxor (N.lxor (N.land x y) (N.land x z)) (N.land y z).
Definition Sigma0 (x : N) : N := N.lxor (N.lxor (rotr 2 x) (rotr 13 x)) (rotr 22 x).
Definition Sigma1 (x : N) : N := N.lxor (N.lxor (rotr 6 x) (rotr 11 x)) (rotr 25 x).
Definition sigma0 (x : N) : N := N.lxor (N.lxor (rotr 7 x) (rotr 18 x)) (N.shiftr x 3).
Definition sigma1 (x : N) : N := N.lxor (N.lxor (rotr 17 x) (rotr 19 x)) (N.shiftr x 10).

(** The round constants and the initial state, from their definition:
    the first 32 bits of the fractional parts of the cube roots of the
    first 64 primes, and of the square roots of the first 8 *)
Definition isPrime (n : N) : bool :=
  forallb (fun d => negb (n mod N.of_nat d =? 0)%N) (seq 2 (N.to_nat n - 2)).

Definition primes64 : list N :=
  Eval vm_compute in firstn 64 (filter isPrime (map N.of_nat (seq 2 400))).

Fixpoint root3 (bits : nat) (r n : N) : N :=
  match bits with
  | 0 => r
  | S b =>
      let c := (r + 2 ^ N.of_nat b)%N in
      root3 b (if (c * c * c <=? n)%N then c else r) n
  end.

Definition K : list N :=
  Eval vm_compute in map (fun p => w32 (root3 36 0 (N.shiftl p 96))) primes64.

Definition H0 : list N :=
  Eval vm_compute in map (fun p => w32 (N.sqrt (N.shiftl p 64))) (firstn 8 primes64).

Fixpoint bytes_of_string (s : string) : list N :=
  match s with
  | EmptyString => []
  | String c s' => N_of_ascii c :: bytes_of_string s'
  end.

Fixpoint string_of_bytes (l : list N) : string :=
  match l with
  | [] => EmptyString
  | b :: l' => String (ascii_of_N b) (string_of_bytes l')
  end.

(** Big-endian bytes of a [k]-byte number *)
Fixpoint be_bytes (k : nat) (x : N) : list N :=
  match k with
  | 0 => []
  | S k' => N.land (N.shiftr x (8 * N.of_nat k')) 0xFF :: be_bytes k' x
  end.

Definition pad (msg : list N) : list N :=
  let len := length msg in
  let zeros := (64 - (len + 9) mod 64) mod 64 in
  msg ++ [0x80%N] ++ repeat 0%N zeros ++ be_bytes 8 (8 * N.of_nat len).

Fixpoint words (k : nat) (l : list N) : list N :=
  match k with
  | 0 => []
  | S k' =>
      match l with
      | a :: b :: c :: d :: l' =>
          (N.shiftl a 24 + N.shiftl b 16 + N.shiftl c 8 + d)%N :: words k' l'
      | _ => []
      end
  end.

(** The message schedule, most recent word first *)
Fixpoint schedule (k : nat) (ws : list N) : list N :=
  match k with
  | 0 => ws
  | S k' =>
      let w := add32 (add32 (sigma1 (nth 1 ws 0%N)) (nth 6 ws 0%N))
                     (add32 (sigma0 (nth 14 ws 0%N)) (nth 15 ws 0%N)) in
      schedule k' (w :: ws)
  end.

Definition round (st : list N) (kw : N * N) : list N :=
  match st with
  | [a; b; c; d; e; f; g; h] =>
      let t1 := add32 (add32 (add32 h (Sigma1 e)) (add32 (Ch e f g) (fst kw))) (snd kw) in
      let t2 := add32 (Sigma0 a) (Maj a b c) in
      [add32 t1 t2; a; b; c; add32 d t1; e; f; g]
  | _ => st
  end.

Fixpoint zip {A B : Type} (l : list A) (l' : list B) : list (A * B) :=
  match l, l' with
  | a :: l, b :: l' => (a, b) :: zip l l'
  | _, _ => []
  end.

Definition block (h : list N) (blk : list N) : list N :=
  let w := rev (schedule 48 (rev (words 16 blk))) in
  let h' := fold_left round (zip K w) h in
  map (fun p => add32 (fst p) (snd p)) (zip h h').

Fixpoint blocks (k : nat) (h : list N) (l : list N) : list N :=
  match k with
  | 0 => h
  | S k' => blocks k' (block h (firstn 64 l)) (skipn 64 l)
  end.

Definition digest (s : string) : string :=
  let m := pad (bytes_of_string s) in
  string_of_bytes (flat_map (be_bytes 4) (blocks (length m / 64) H0 m)).
End SHA256.

Definition hexDigit (n : N) : ascii :=
  ascii_of_N (if (n <? 10)%N then 48 + n else 87 + n)%N.

(** [printHash16] *)
Fixpoint printHash16 (bytes : string) : string :=
  match bytes with
  | EmptyString => EmptyString
  | String c s' =>
      String (hexDigit (N.shiftr (N_of_ascii c) 4))
        (String (hexDigit (N.land (N_of_ascii c) 15)) (printHash16 s'))
  end.

Definition hashSize (ht : HashType) : nat :=
  match ht with
  | htMD5 => 16
  | htSHA1 => 20
  | htSHA256 => 32
  | htSHA512 => 64
  end.

Definition hexValue (c : ascii) : option N :=
  let n := N_of_ascii c in
  if (48 <=? n)%N && (n <=? 57)%N then Some (n - 48)%N
  else if (97 <=? n)%N && (n <=? 102)%N then Some (n - 87)%N
  else None.

Fixpoint parseHash16 (s : string) : option string :=
  match s with
  | EmptyString => Some EmptyString
  | String a (String b s') =>
      match hexValue a, hexValue b, parseHash16 s' with
      | Some x, Some y, Some r => Some (String (ascii_of_N (16 * x + y)) r)
      | _, _, _ => None
      end
  | _ => None
  end.

Definition base32Chars : string := "0123456789abcdfghijklmnpqrsvwxyz".

(** The digest read as a little-endian number *)
Fixpoint le_number (bytes : string) : N :=
  match bytes with
  | EmptyString => 0
  | String c s' => N_of_ascii c + 256 * le_number s'
  end.

Fixpoint base32Digits (n : nat) (x : N) : string :=
  match n with
  | 0 => EmptyString
  | S n' =>
      match String.get (N.to_nat (N.land (N.shiftr x (5 * N.of_nat n')) 31)) base32Chars with
      | Some c => String c (base32Digits n' x)
      | None => EmptyString
      end
  end.

(** [printHash32] *)
Definition printHash32 (bytes : string) : string :=
  base32Digits ((String.length bytes * 8 - 1) / 5 + 1) (le_number bytes).

(** [compressHash]: the digest folded by exclusive or onto [newSize] bytes *)
Definition compressHash (bytes : string) (newSize : nat) : string :=
  let l := SHA256.bytes_of_string bytes in
  SHA256.string_of_bytes
    (map (fun j =>
            fold_left N.lxor
              (map snd (filter (fun p => Nat.eqb (fst p mod newSize) j)
                               (SHA256.zip (seq 0 (length l)) l)))
              0%N)
         (seq 0 newSize)).

(** The hash library of the examples.  Only SHA-256 is computed; no
    function of this development asks for another algorithm. *)
Definition nixHash : HashLib := {|
  hashString ht s := mkHash ht (SHA256.digest s);
  to_base16 h := printHash16 (hashBytes h);
  to_base32 h := printHash32 (hashBytes h);
  parseHash s ht :=
    match parseHash16 s with
    | Some bytes =>
        if Nat.eqb (String.length bytes) (hashSize ht) then Ok (mkHash ht bytes)
        else Raise (BadHash ("hash '" +:+ s +:+ "' has wrong length"))
    | None => Raise (BadHash ("invalid base-16 hash '" +:+ s +:+ "'"))
    end
|}.

Definition isBase32Char (c : ascii) : bool :=
  let n := nat_of_ascii c in
  ((Nat.leb 48 n && Nat.leb n 57) || (Nat.leb 97 n && Nat.leb n 122))
  && negb (Ascii.eqb c "e") && negb (Ascii.eqb c "o")
  && negb (Ascii.eqb c "u") && negb (Ascii.eqb c "t").

Definition isNameChar (c : ascii) : bool :=
  let n := nat_of_ascii c in
  (Nat.leb 48 n && Nat.leb n 57) || (Nat.leb 97 n && Nat.leb n 122)
  || (Nat.leb 65 n && Nat.leb n 90)
  || Ascii.eqb c "+" || Ascii.eqb c "-" || Ascii.eqb c "." || Ascii.eqb c "_"
  || Ascii.eqb c "?" || Ascii.eqb c "=".

(** The checks of the constructor [StorePath(baseName)] *)
Definition validBaseName (b : string) : bool :=
  Nat.leb (S (S HashLen)) (String.length b)
  && string_forall isBase32Char (String.substring 0 HashLen b)
  && String.eqb (String.substring HashLen 1 b) "-"
  && string_forall isNameChar
       (String.substring (S HashLen) (String.length b - S HashLen) b).

Definition nixStoreDir : string := "/nix/store".

Definition nixMakeStorePath (type : string) (h : Hash) (name : string) : StorePath :=
  let s := type +:+ ":" +:+ printHashType (hashType h) +:+ ":"
           +:+ printHash16 (hashBytes h) +:+ ":" +:+ nixStoreDir +:+ ":" +:+ name in
  mkStorePath (printHash32 (compressHash (SHA256.digest s) 20) +:+ "-" +:+ name).

Definition nixMakeFixedOutputPath (method : FileIngestionMethod) (h : Hash)
    (name : string) : StorePath :=
  match method, hashType h with
  | Recursive, htSHA256 => nixMakeStorePath "source" h name
  | _, _ =>
      nixMakeStorePath "output:out"
        (mkHash htSHA256
           (SHA256.digest
              ("fixed:out:" +:+ match method with Recursive => "r:" | Flat => "" end
               +:+ printHashType (hashType h) +:+ ":" +:+ printHash16 (hashBytes h)
               +:+ ":")))
        name
  end.

Fixpoint assoc (k : string) (l : list (string * string)) : option string :=
  match l with
  | [] => None
  | (k', v) :: l' => if String.eqb k k' then Some v else assoc k l'
  end.

(** A store holding the files [files] (full path, contents) *)
Definition nixStore (files : list (string * string)) : Store := {|
  storeDir := nixStoreDir;
  printStorePath p := nixStoreDir +:+ "/" +:+ baseName p;
  parseStorePath s :=
    match strip_prefix (nixStoreDir +:+ "/") s with
    | Some b =>
        if validBaseName b then Ok (mkStorePath b)
        else Raise (BadStorePath ("'" +:+ b +:+ "' is not a valid store path name"))
    | None => Raise (BadStorePath ("path '" +:+ s +:+ "' is not in the Nix store"))
    end;
  makeFixedOutputPath := nixMakeFixedOutputPath;
  isValidPath p :=
    match assoc (nixStoreDir +:+ "/" +:+ baseName p) files with
    | Some _ => true
    | None => false
    end;
  readFile f :=
    match assoc f files with
    | Some text => Ok text
    | None => Raise (Error ("file '" +:+ f +:+ "' does not exist"))
    end
|}.

(** Scenario S1 of the specification: one fixed output, no inputs *)
Definition drvS1 : Derivation := {|
  outputs :=
    [("out", DerivationOutputFixed
               (mkFixedOutputHash Flat (hashString nixHash htSHA256 "hi")))];
  inputSrcs := [];
  platform := "x86_64-linux";
  builder := "/bin/sh";
  args := ["-c"; "echo hi"];
  env := [("name", "hi")];
  name := "hi";
  inputDrvs := []
|}.

(** ** Predicates of the statements *)

(** A character that [parseString] takes as it stands: neither the
    quote nor the backslash *)
Definition plainChar (c : ascii) : bool :=
  negb (Ascii.eqb c dquote) && negb (Ascii.eqb c backslash).

Definition plain (s : string) : bool := string_forall plainChar s.

Definition result_is {A : Type} `{EqDecision A} (r : result A) (a : A) : bool :=
  match r with Ok a' => bool_decide (a' = a) | Raise _ => false end.

(** The printed form of [p] can stand between quotes, starts with a
    slash and is read back as [p] by the store *)
Definition pathRoundTrips (st : Store) (p : StorePath) : bool :=
  let s := printStorePath st p in
  plain s && is_prefix "/" s && result_is (parseStorePath st s) p.

Definition hashRoundTrips (hl : HashLib) (h : Hash) : bool :=
  plain (to_base16 hl h) && result_is (parseHash hl (to_base16 hl h) (hashType h)) h.

Definition outputRoundTrips (st : Store) (hl : HashLib) (drvName : string)
    (i : string * DerivationOutput) : bool :=
  plain (fst i)
  && pathRoundTrips st (DerivationOutput_path st (snd i) drvName)
  && match snd i with
     | DerivationOutputFixed h => hashRoundTrips hl (foh_hash h)
     | DerivationOutputIntensional _ => true
     end.

Definition inputRoundTrips (st : Store) (i : StorePath * StringSet) : bool :=
  pathRoundTrips st (fst i) && forallb plain (snd i).

(** What [unparse] writes without escaping can be read back: output
    names, printed store paths, printed hashes, requested output names
    and the platform *)
Definition printableDerivation (st : Store) (hl : HashLib) (d : Derivation) : bool :=
  forallb (outputRoundTrips st hl (name d)) (outputs d)
  && forallb (inputRoundTrips st) (inputDrvs d)
  && forallb (pathRoundTrips st) (inputSrcs d)
  && plain (platform d).

(** The class invariants of the [std::map]s and [std::set]s of a
    derivation: keys strictly increasing *)
Definition wfDerivation (d : Derivation) : bool :=
  increasingb strcmp (map fst (outputs d))
  && increasingb pathcmp (map fst (inputDrvs d))
  && forallb (increasingb strcmp) (map snd (inputDrvs d))
  && increasingb pathcmp (inputSrcs d)
  && increasingb strcmp (map fst (env d)).

(** An element of a printed list starts with a character that
    [endOfList] leaves in place *)
Definition starts_element (s : string) : Prop :=
  exists c s', s = String c s' /\ c <> ","%char /\ c <> "]"%char.

(** A derivation whose platform holds a backslash *)
Definition drvBackslash : Derivation := {|
  outputs := [];
  inputSrcs := [];
  platform := "a\b";
  builder := "/bin/sh";
  args := [];
  env := [];
  name := "x";
  inputDrvs := []
|}.

(** The text of a derivation whose outputs are written by [pr];
    [unparse] without masking and without substituted inputs is the
    case [pr = printOutput] *)
Definition derivationText (st : Store) (hl : HashLib)
    (pr : string * DerivationOutput -> string) (drv : Derivation) : string :=
  "Derive(["
  +:+ printSeparated pr true (outputs drv)
  +:+ "],["
  +:+ printSeparated (fun i => printInput (printStorePath st (fst i), snd i))
        true (inputDrvs drv)
  +:+ "],"
  +:+ printUnquotedStrings (printStorePathSet st (inputSrcs drv))
  +:+ "," +:+ printUnquotedString (platform drv)
  +:+ "," +:+ printString (builder drv)
  +:+ "," +:+ printStrings (args drv)
  +:+ ",["
  +:+ printSeparated (printEnvPair (outputs drv) false) true (env drv)
  +:+ "])".

(** An output written with the path text [declared id] when it is
    fixed, and as [printOutput] writes it otherwise *)
Definition declareOutput (st : Store) (hl : HashLib) (drvName : string)
    (declared : string -> string) (i : string * DerivationOutput) : string :=
  match snd i with
  | DerivationOutputFixed hash =>
      "(" +:+ printUnquotedString (fst i)
      +:+ "," +:+ printUnquotedString (declared (fst i))
      +:+ "," +:+ printUnquotedString (printMethodAlgo hash)
      +:+ "," +:+ printUnquotedString (to_base16 hl (foh_hash hash))
      +:+ ")"
  | DerivationOutputIntensional _ => printOutput st hl drvName false i
  end.

(** [s] is the text of a path the store accepts *)
Definition declarable (st : Store) (s : string) : bool :=
  plain s && is_prefix "/" s && is_Ok (parseStorePath st s).

Definition isFixed (o : DerivationOutput) : bool :=
  match o with DerivationOutputFixed _ => true | DerivationOutputIntensional _ => false end.

(** The path text [unparse] writes for the fixed output [id] of [d] *)
Definition recomputedPath (st : Store) (d : Derivation) (id : string) : string :=
  match map_find strcmp id (outputs d) with
  | Some (DerivationOutputFixed foh) =>
      printStorePath st
        (makeFixedOutputPath st (foh_method foh) (foh_hash foh) (name d))
  | _ => ""
  end.

(** A well-formed path text that no fixed output hashes to *)
Definition bogusPath : string := "/nix/store/00000000000000000000000000000000-bogus".

(** ** Examples for hashing modulo fixed-output derivations *)

Definition with_inputDrvs (l : DerivationInputs) (d : Derivation) : Derivation :=
  {| outputs := outputs d; inputSrcs := inputSrcs d; platform := platform d;
     builder := builder d; args := args d; env := env d; name := name d;
     inputDrvs := l |}.

(** The hash of a result of [hashDerivationModulo], without the memo table *)
Definition resultHash (r : result (Hash * DrvHashes)) : result Hash :=
  let* (h, _m) := r in Ok h.

(** One output declared in the text, no inputs *)
Definition drvHello : Derivation := {|
  outputs :=
    [("out", DerivationOutputIntensional
               (mkStorePath "9999999999999999999999999999999a-hello"))];
  inputSrcs := [];
  platform := "x86_64-linux";
  builder := "/bin/sh";
  args := ["-c"; "echo hello > $out"];
  env := [("out", "/nix/store/9999999999999999999999999999999a-hello")];
  name := "hello";
  inputDrvs := []
|}.

(** Two fetches of the same file from two mirrors: fixed-output
    derivations that differ in the [url] only *)
Definition drvFetch (url : string) : Derivation := {|
  outputs :=
    [("out", DerivationOutputFixed
               (mkFixedOutputHash Flat (hashString nixHash htSHA256 "the tarball")))];
  inputSrcs := [];
  platform := "builtin";
  builder := "builtin:fetchurl";
  args := [];
  env := [("url", url)];
  name := "src.drv";
  inputDrvs := []
|}.

Definition pathF1 : StorePath := mkStorePath "11111111111111111111111111111111-src.drv".
Definition pathF2 : StorePath := mkStorePath "22222222222222222222222222222222-src.drv".

(** A library with two outputs built from the fetched file; [src] is
    the fetch it depends on *)
Definition drvLib (src : StorePath) : Derivation := {|
  outputs :=
    [("dev", DerivationOutputIntensional
               (mkStorePath "55555555555555555555555555555555-lib-dev"));
     ("out", DerivationOutputIntensional
               (mkStorePath "66666666666666666666666666666666-lib"))];
  inputSrcs := [];
  platform := "x86_64-linux";
  builder := "/bin/sh";
  args := ["-c"; "make install"];
  env := [("dev", "/nix/store/55555555555555555555555555555555-lib-dev");
          ("out", "/nix/store/66666666666666666666666666666666-lib")];
  name := "lib.drv";
  inputDrvs := [(src, ["out"])]
|}.

Definition pathB1 : StorePath := mkStorePath "33333333333333333333333333333333-lib.drv".
Definition pathB2 : StorePath := mkStorePath "44444444444444444444444444444444-lib.drv".

(** An application that takes [out] from one build of the library and
    [dev] from the other *)
Definition drvApp (ins : DerivationInputs) : Derivation := {|
  outputs :=
    [("out", DerivationOutputIntensional
               (mkStorePath "77777777777777777777777777777777-app"))];
  inputSrcs := [];
  platform := "x86_64-linux";
  builder := "/bin/sh";
  args := ["-c"; "make app"];
  env := [("out", "/nix/store/77777777777777777777777777777777-app")];
  name := "app.drv";
  inputDrvs := ins
|}.

Definition pathB3 : StorePath := mkStorePath "88888888888888888888888888888888-lib.drv".

Definition drvA : Derivation := drvApp [(pathB1, ["out"]); (pathB2, ["dev"])].

(** [drvA] with its input [pathB1] replaced by [pathB3] *)
Definition drvA' : Derivation := drvApp [(pathB2, ["dev"]); (pathB3, ["out"])].

(** An application that depends on one build of the library *)
Definition drvC : Derivation := drvApp [(pathB1, ["dev"; "out"])].

Definition drvFile (p : StorePath) (d : Derivation) : string * string :=
  (printStorePath (nixStore []) p, unparse (nixStore []) nixHash d false None).

Definition exampleStore : Store :=
  nixStore
    [drvFile pathF1 (drvFetch "http://mirror1.example.org/src.tar");
     drvFile pathF2 (drvFetch "http://mirror2.example.org/src.tar");
     drvFile pathB1 (drvLib pathF1);
     drvFile pathB2 (drvLib pathF2);
     drvFile pathB3 (drvLib pathF2)].

(** The key under which the input derivation at [p] enters [inputs2]:
    the hex form of its modulo-hash *)
Definition inputKey (st : Store) (hl : HashLib) (fuel : nat) (p : StorePath)
    : result string :=
  let* h := spec_hashOfPath st hl fuel p in Ok (to_base16 hl h).

Definition keyOf (st : Store) (hl : HashLib) (fuel : nat) (p : StorePath) : string :=
  match inputKey st hl fuel p with Ok s => s | Raise _ => "" end.

(** No string occurs twice in [l] *)
Fixpoint distinct (l : list string) : bool :=
  match l with
  | [] => true
  | x :: l' => negb (existsb (String.eqb x) l') && distinct l'
  end.

(** No two input derivations of [drv] have the same modulo-hash, and
    none of the derivations [drv] depends on has two such inputs.  The
    inputs of a fixed-output derivation play no part. *)
Fixpoint distinctInputs (st : Store) (hl : HashLib) (fuel : nat) (drv : Derivation)
    : bool :=
  match spec_fixedOutput drv, fuel with
  | Some _, _ => true
  | None, 0 => true
  | None, S fuel' =>
      distinct (map (fun i => keyOf st hl fuel' (fst i)) (inputDrvs drv))
      && forallb
           (fun i =>
              match readDerivation st hl (fst i) with
              | Ok d => distinctInputs st hl fuel' d
              | Raise _ => true
              end)
           (inputDrvs drv)
  end.

(** The example store with none of its paths registered as valid: the
    files of the derivations can be read all the same *)
Definition unregisteredStore : Store := {|
  storeDir := storeDir exampleStore;
  printStorePath := printStorePath exampleStore;
  parseStorePath := parseStorePath exampleStore;
  makeFixedOutputPath := makeFixedOutputPath exampleStore;
  isValidPath := fun _ => false;
  readFile := readFile exampleStore
|}.

(** The base-16 form of a computed hash *)
Definition hexOf (r : result Hash) : result string :=
  let* h := r in Ok (to_base16 nixHash h).

(** ** Examples for the binary cache store *)

(** Decimal digits of [n], most significant first; [fuel] bounds their number *)
Fixpoint decimal (fuel : nat) (n : N) (acc : string) : string :=
  match fuel with
  | 0 => acc
  | S fuel' =>
      let acc' := String (ascii_of_N (48 + n mod 10)) acc in
      if (n <? 10)%N then acc' else decimal fuel' (n / 10) acc'
  end.

Definition printZ (z : Z) : string := decimal 20 (Z.to_N z) "".

Definition printHashField (h : option Hash) : string :=
  match h with
  | Some h => printHashType (hashType h) +:+ ":" +:+ printHash32 (hashBytes h)
  | None => ""
  end.

Fixpoint joinWith (sep : string) (l : list string) : string :=
  match l with
  | [] => ""
  | [x] => x
  | x :: l' => x +:+ sep +:+ joinWith sep l'
  end.

Definition newline : string := str1 LF.

(** The text of a [.narinfo] file, as the external interfaces of the
    specification lay it out *)
Definition printNarInfo (ni : NarInfo) : string :=
  "StorePath: " +:+ nixStoreDir +:+ "/" +:+ baseName (path (vpi ni)) +:+ newline
  +:+ "URL: " +:+ url ni +:+ newline
  +:+ "Compression: " +:+ compression ni +:+ newline
  +:+ "FileHash: " +:+ printHashField (fileHash ni) +:+ newline
  +:+ "FileSize: " +:+ printZ (fileSize ni) +:+ newline
  +:+ "NarHash: " +:+ printHashField (narHash (vpi ni)) +:+ newline
  +:+ "NarSize: " +:+ printZ (narSize (vpi ni)) +:+ newline
  +:+ "References: " +:+ joinWith " " (map baseName (references (vpi ni))) +:+ newline
  +:+ match deriver (vpi ni) with
      | Some d => "Deriver: " +:+ baseName d +:+ newline
      | None => ""
      end
  +:+ joinWith "" (map (fun s => "Sig: " +:+ s +:+ newline) (sigs (vpi ni)))
  +:+ match ca (vpi ni) with
      | Some c => "CA: " +:+ c +:+ newline
      | None => ""
      end.

(** The library of the examples.  Compression method [none] only; a
    [.narinfo] text is read by looking it up among the records [known];
    every NAR is taken for a single regular file. *)
Definition exampleLib (known : list NarInfo) : CacheLib := {|
  compress method s _ :=
    if String.eqb method "none" then Ok s
    else Raise (UnknownCompressionMethod ("unknown compression method '" +:+ method +:+ "'"));
  decompressionKnown method := String.eqb method "none" || String.eqb method "";
  decompress _ s := Ok s;
  NarInfo_to_string := printNarInfo;
  NarInfo_parse data whence :=
    match find (fun ni => String.eqb (printNarInfo ni) data) known with
    | Some ni => Ok ni
    | None => Raise (Error ("NAR info file '" +:+ whence +:+ "' is corrupt"))
    end;
  makeNarAccessor _ :=
    Ok {| acc_stat p := if String.eqb p "" then tRegular else tMissing;
          acc_readDirectory _ := [] |};
  listNarJSON _ := "{version:1,root:{type:regular}}";
  debugLinkJSON target member := "{archive:" +:+ target +:+ ",member:" +:+ member +:+ "}";
  signDetached key ni :=
    key +:+ ":" +:+ printHash16 (SHA256.digest (key +:+ printNarInfo ni))
|}.

(** [narVersionMagic1] as a string sink serializes it: the length in 8
    little-endian bytes, the characters, zero padding to a multiple of 8 *)
Definition nul : string := str1 zero.
Definition exampleMagic : string :=
  str1 (ascii_of_nat 13) +:+ nul +:+ nul +:+ nul +:+ nul +:+ nul +:+ nul +:+ nul
  +:+ "nix-archive-1" +:+ nul +:+ nul +:+ nul.

Definition exampleConfig : Config := {|
  cfg_compression := "none";
  parallelCompression := false;
  writeNARListing := true;
  writeDebugInfo := false;
  secretKey := None;
  narMagic := exampleMagic
|}.

Definition exampleNar : string := exampleMagic +:+ "(type regular contents hello)".

Definition emptyStats : Stats :=
  {| narInfoRead := 0; narInfoWrite := 0; narRead := 0; narReadBytes := 0;
     narWrite := 0; narWriteAverted := 0; narWriteBytes := 0;
     narWriteCompressedBytes := 0; narWriteCompressionTimeMs := 0 |}.

Definition emptyState : State :=
  {| backend := ∅; pathInfoCache := ∅; diskCache := None; stats := emptyStats |}.

Definition pathP : StorePath := mkStorePath "aaaaaaaaaaaaaaaaaaaaaaaaaaaaaaaa-hello".
Definition pathR : StorePath := mkStorePath "bbbbbbbbbbbbbbbbbbbbbbbbbbbbbbbb-libc".

Definition infoOf (p : StorePath) (refs : StorePathSet) (h : option Hash) : ValidPathInfo :=
  {| path := p; deriver := None; narHash := h; references := refs;
     registrationTime := 0; narSize := 0; ultimate := false; sigs := []; ca := None |}.

(** A cache that holds a record for [pathP] and none for [pathR] *)
Definition stateWithP : State :=
  {| backend := {[ "aaaaaaaaaaaaaaaaaaaaaaaaaaaaaaaa.narinfo" :=
                     ("StorePath: /nix/store/aaaaaaaaaaaaaaaaaaaaaaaaaaaaaaaa-hello",
                      "text/x-nix-narinfo") ]};
     pathInfoCache := ∅; diskCache := None; stats := emptyStats |}.

(** The record that ingesting [exampleNar] under [pathP] writes *)
Definition recordP : NarInfo := {|
  vpi := with_nar (hashString nixHash htSHA256 exampleNar) 53 (infoOf pathP [] None);
  url := "nar/" +:+ printHash32 (SHA256.digest exampleNar) +:+ ".nar";
  compression := "none";
  fileHash := Some (hashString nixHash htSHA256 exampleNar);
  fileSize := 53;
  system := ""
|}.

(** Scenario S5 of the specification: the [.narinfo] of [pathP] is in
    the cache, the blob it names is not *)
Definition stateGone : State :=
  {| backend := {[ "aaaaaaaaaaaaaaaaaaaaaaaaaaaaaaaa.narinfo" :=
                     (printNarInfo recordP, "text/x-nix-narinfo") ]};
     pathInfoCache := ∅; diskCache := None; stats := emptyStats |}.

(** ** Predicates of the lemmas *)

(** The loop body [body] reads the printed form of [x] and adds [x] to
    what it has accumulated *)
Definition parses {A B : Type} (body : B -> string -> result (B * string))
    (pr : A -> string) (ins : B -> A -> B) (x : A) : Prop :=
  forall acc rest, body acc (pr x +:+ rest) = Ok (ins acc x, rest).

(** An operation that writes nothing to the backend *)
Definition keeps_backend {A : Type} (m : M A) : Prop :=
  forall s, backend (snd (m s)) = backend s.

(** An operation that leaves the whole state as it is *)
Definition keeps_state {A : Type} (m : M A) : Prop :=
  forall s, snd (m s) = s.

(** ** More of derivations.cc *)

Section MoreDerivations.
Context (store : Store) (hl : HashLib).

(** [BasicDerivation::outputPaths] *)
Definition outputPaths (drv : Derivation) : StorePathSet :=
  fold_left
    (fun paths i => set_insert pathcmp (DerivationOutput_path store (snd i) (name drv)) paths)
    (outputs drv) [].

(** [BasicDerivation::outputNames] *)
Definition outputNames (drv : Derivation) : StringSet :=
  fold_left (fun names i => set_insert strcmp (fst i) names) (outputs drv) [].
End MoreDerivations.

(** The value the first entry for [k] binds, in a list of entries as a
    text lists them *)
Fixpoint firstBinding {K V : Type} (cmp : K -> K -> comparison) (k : K) (l : list (K * V))
    : option V :=
  match l with
  | [] => None
  | (k', v) :: l' =>
      match cmp k k' with
      | Eq => Some v
      | _ => firstBinding cmp k l'
      end
  end.

Definition lastBinding {K V : Type} (cmp : K -> K -> comparison) (k : K) (l : list (K * V))
    : option V :=
  firstBinding cmp k (rev l).

(** The character [c] does not occur in [s] *)
Definition without (c : ascii) (s : string) : bool :=
  string_forall (fun c' => negb (Ascii.eqb c' c)) s.

(** Two derivations that differ at most in what [maskOutputs] blanks:
    the paths of the outputs that are not fixed, the values of the
    environment variables named like an output, and the name *)
Definition sameOutputModuloPath (i i' : string * DerivationOutput) : Prop :=
  fst i = fst i'
  /\ match snd i, snd i' with
     | DerivationOutputFixed h, DerivationOutputFixed h' => h = h'
     | DerivationOutputIntensional _, DerivationOutputIntensional _ => True
     | _, _ => False
     end.

Definition sameEnvModuloOutputs (outs : DerivationOutputs) (e e' : string * string) : Prop :=
  fst e = fst e' /\ (map_count strcmp (fst e) outs = 0 -> snd e = snd e').

Record sameModuloOutputs (d d' : Derivation) : Prop := {
  smo_outputs : Forall2 sameOutputModuloPath (outputs d) (outputs d');
  smo_env : Forall2 (sameEnvModuloOutputs (outputs d)) (env d) (env d');
  smo_inputSrcs : inputSrcs d = inputSrcs d';
  smo_platform : platform d = platform d';
  smo_builder : builder d = builder d';
  smo_args : args d = args d';
  smo_inputDrvs : inputDrvs d = inputDrvs d'
}.

(** [drvHello] built into another output path *)
Definition drvHello' : Derivation := {|
  outputs :=
    [("out", DerivationOutputIntensional
               (mkStorePath "00000000000000000000000000000000-hello"))];
  inputSrcs := [];
  platform := "x86_64-linux";
  builder := "/bin/sh";
  args := ["-c"; "echo hello > $out"];
  env := [("out", "/nix/store/00000000000000000000000000000000-hello")];
  name := "hello";
  inputDrvs := []
|}.

(** A derivation text that lists the output [out] twice, the variable
    [b] twice and its entries out of order *)
Definition drvRepeats : Derivation := {|
  outputs :=
    [("out", DerivationOutputIntensional
               (mkStorePath "66666666666666666666666666666666-lib"));
     ("dev", DerivationOutputIntensional
               (mkStorePath "55555555555555555555555555555555-lib-dev"));
     ("out", DerivationOutputIntensional
               (mkStorePath "77777777777777777777777777777777-app"))];
  inputSrcs := [mkStorePath "66666666666666666666666666666666-lib";
                mkStorePath "55555555555555555555555555555555-lib-dev"];
  platform := "x86_64-linux";
  builder := "/bin/sh";
  args := ["-c"; "make"];
  env := [("b", "1"); ("a", "2"); ("b", "3")];
  name := "lib.drv";
  inputDrvs := [(pathB1, ["out"; "dev"; "out"])]
|}.

(** The derivation the containers hold after the insertions that
    [parseDerivation] makes for a text listing the entries of [d] in
    their order: [emplace] for the outputs, [insert_or_assign] for the
    input derivations and the environment, [insert] for the sets *)
Definition normalise (d : Derivation) : Derivation := {|
  outputs :=
    fold_left (fun outs i => map_emplace strcmp (fst i) (snd i) outs) (outputs d) [];
  inputSrcs := set_insert_all pathcmp (inputSrcs d) [];
  platform := platform d;
  builder := builder d;
  args := args d;
  env :=
    fold_left (fun env i => map_insert_or_assign strcmp (fst i) (snd i) env) (env d) [];
  name := name d;
  inputDrvs :=
    fold_left
      (fun ins i => map_insert_or_assign pathcmp (fst i) (set_insert_all strcmp (snd i) []) ins)
      (inputDrvs d) []
|}.

(** The body of the loop of [hashDerivationModulo] over the input
    derivations, with [rec] for the recursive call *)
Definition inputStep (st : Store) (hl : HashLib)
    (rec : DrvHashes -> Derivation -> result (Hash * DrvHashes))
    : list (string * StringSet) * DrvHashes -> StorePath * StringSet ->
      result (list (string * StringSet) * DrvHashes) :=
  fun '(inputs2, drvHashes) (i : StorePath * StringSet) =>
    let* (h, drvHashes) :=
      match drvHashes !! fst i with
      | Some h => Ok (h, drvHashes)
      | None =>
          if negb (isValidPath st (fst i))
          then Raise (AssertionFailed "store.isValidPath(i.first)")
          else
            let* d := readDerivation st hl (fst i) in
            let* (h, drvHashes) := rec drvHashes d in
            Ok (h, <[fst i := h]> drvHashes)
      end in
    Ok (map_insert_or_assign strcmp (to_base16 hl h) (snd i) inputs2, drvHashes).

(** ** The binary form of a derivation *)

(** The framing primitives of the serialiser and of the worker
    protocol, which are not among the sources: what [operator <<]
    appends to a sink for a number, a string and a list of strings, what
    [writeStorePaths] appends, and the readers, which return the value
    read and the rest of the source. *)
Record Serialiser := {
  writeNum : N -> string;
  writeString : string -> string;
  writeStrings : Strings -> string;
  writeStorePaths : Store -> StorePathSet -> string;
  readNum : string -> result (N * string);
  readString : string -> result (string * string);
  readStrings : string -> result (Strings * string);
  readStorePaths : Store -> string -> result (StorePathSet * string)
}.

(** [for (size_t n = 0; n < nr; n++) body] over a source *)
Fixpoint times {A : Type} (nr : nat) (body : A -> string -> result (A * string))
    (acc : A) (src : string) : result (A * string) :=
  match nr with
  | 0 => Ok (acc, src)
  | S nr' =>
      let* (acc, src) := body acc src in
      times nr' body acc src
  end.

Module Wire.
Section Codec.
Context (store : Store) (hl : HashLib) (ser : Serialiser).

(** [readDerivationOutput] *)
Definition readDerivationOutput (src : string) : result (DerivationOutput * string) :=
  let* (pathS, src) := readString ser src in
  let* path := parseStorePath store pathS in
  let* (hashAlgo, src) := readString ser src in
  let* (hash, src) := readString ser src in
  if negb (String.eqb hashAlgo "") then
    let '(method, hashAlgo) :=
      if String.eqb (String.substring 0 2 hashAlgo) "r:"
      then (Recursive, String.substring 2 (String.length hashAlgo - 2) hashAlgo)
      else (Flat, hashAlgo) in
    let* hashType := parseHashType hashAlgo in
    let* h := parseHash hl hash hashType in
    Ok (DerivationOutputFixed (mkFixedOutputHash method h), src)
  else
    Ok (DerivationOutputIntensional path, src).

(** [readDerivation(Source & in, store, drv, name)]: [drv] is the
    object the caller passes and the function fills; the result is
    that object after the call *)
Definition readDerivation (src : string) (drv : Derivation) (name : string)
    : result (Derivation * string) :=
  (* drv.outputs.clear() *)
  let* (nr, src) := readNum ser src in
  let* (outs, src) :=
    times (N.to_nat nr)
      (fun (outs : DerivationOutputs) src =>
         let* (name, src) := readString ser src in
         let* (output, src) := readDerivationOutput src in
         Ok (map_emplace strcmp name output outs, src))
      [] src in
  let* (inSrcs, src) := readStorePaths ser store src in
  let* (platform, src) := readString ser src in
  let* (builder, src) := readString ser src in
  let* (args, src) := readStrings ser src in
  let* (nr, src) := readNum ser src in
  let* (env, src) :=
    times (N.to_nat nr)
      (fun (env : StringPairs) src =>
         let* (key, src) := readString ser src in
         let* (value, src) := readString ser src in
         Ok (map_insert_or_assign strcmp key value env, src))
      (env drv) src in
  Ok ({| outputs := outs; inputSrcs := inSrcs; platform := platform;
         builder := builder; args := args; env := env; name := name;
         inputDrvs := inputDrvs drv |}, src).

Definition writeOutput (drvName : string) (i : string * DerivationOutput) : string :=
  writeString ser (fst i)
  +:+ writeString ser (printStorePath store (DerivationOutput_path store (snd i) drvName))
  +:+ match snd i with
      | DerivationOutputFixed hash =>
          writeString ser (printMethodAlgo hash)
          +:+ writeString ser (to_base16 hl (foh_hash hash))
      | DerivationOutputIntensional _ =>
          writeString ser "" +:+ writeString ser ""
      end.

Definition writeEnvPair (i : string * string) : string :=
  writeString ser (fst i) +:+ writeString ser (snd i).

Fixpoint writeAll {A : Type} (w : A -> string) (l : list A) : string :=
  match l with
  | [] => ""
  | x :: l' => w x +:+ writeAll w l'
  end.

(** [writeDerivation(Sink & out, store, drv)]: what is appended to [out] *)
Definition writeDerivation (drv : Derivation) : string :=
  writeNum ser (N.of_nat (length (outputs drv)))
  +:+ writeAll (writeOutput (name drv)) (outputs drv)
  +:+ writeStorePaths ser store (inputSrcs drv)
  +:+ writeString ser (platform drv)
  +:+ writeString ser (builder drv)
  +:+ writeStrings ser (args drv)
  +:+ writeNum ser (N.of_nat (length (env drv)))
  +:+ writeAll writeEnvPair (env drv).
End Codec.
End Wire.

(** A count or a length that a [size_t] holds *)
Definition fits (n : nat) : bool := (N.of_nat n <? 2 ^ 64)%N.

Definition short (s : string) : bool := fits (String.length s).

(** The printed form of [p] is read back as [p] by the store *)
Definition pathReadsBack (st : Store) (p : StorePath) : bool :=
  short (printStorePath st p) && result_is (parseStorePath st (printStorePath st p)) p.

(** What the readers owe the writers: a value written is the value read,
    and the source is left where the value ends *)
Record SerialiserOk (ser : Serialiser) : Prop := {
  num_ok : forall n rest,
    (n <? 2 ^ 64)%N = true -> readNum ser (writeNum ser n +:+ rest) = Ok (n, rest);
  string_ok : forall s rest,
    short s = true -> readString ser (writeString ser s +:+ rest) = Ok (s, rest);
  strings_ok : forall l rest,
    fits (length l) = true -> forallb short l = true ->
    readStrings ser (writeStrings ser l +:+ rest) = Ok (l, rest);
  storePaths_ok : forall st ps rest,
    fits (length ps) = true -> forallb (pathReadsBack st) ps = true ->
    increasingb pathcmp ps = true ->
    readStorePaths ser st (writeStorePaths ser st ps +:+ rest) = Ok (ps, rest)
}.

Definition wireOutputOk (st : Store) (hl : HashLib) (drvName : string)
    (i : string * DerivationOutput) : bool :=
  short (fst i)
  && pathReadsBack st (DerivationOutput_path st (snd i) drvName)
  && match snd i with
     | DerivationOutputFixed h =>
         short (to_base16 hl (foh_hash h))
         && result_is (parseHash hl (to_base16 hl (foh_hash h)) (hashType (foh_hash h)))
                      (foh_hash h)
     | DerivationOutputIntensional _ => true
     end.

(** A derivation whose counts and strings fit the frame, and whose
    store paths and hashes are read back as they are printed *)
Definition wireable (st : Store) (hl : HashLib) (d : Derivation) : bool :=
  fits (length (outputs d))
  && forallb (wireOutputOk st hl (name d)) (outputs d)
  && fits (length (inputSrcs d))
  && forallb (pathReadsBack st) (inputSrcs d)
  && short (platform d) && short (builder d)
  && fits (length (args d)) && forallb short (args d)
  && fits (length (env d))
  && forallb (fun e => short (fst e) && short (snd e)) (env d).

(** A derivation object as its constructor leaves it *)
Definition emptyDerivation : Derivation := {|
  outputs := []; inputSrcs := []; platform := ""; builder := ""; args := [];
  env := []; name := ""; inputDrvs := []
|}.

(** *** The frame of the examples: a number is 8 little-endian bytes, a
    string its length, its bytes and zero bytes up to a multiple of 8,
    a list its length and its elements *)

Fixpoint le_bytes (k : nat) (n : N) : string :=
  match k with
  | 0 => ""
  | S k' => String (ascii_of_N (n mod 256)) (le_bytes k' (n / 256))
  end.

(** The next [n] bytes of a source and what follows them *)
Fixpoint splitAt (n : nat) (s : string) : option (string * string) :=
  match n with
  | 0 => Some ("", s)
  | S n' =>
      match s with
      | EmptyString => None
      | String c s' =>
          match splitAt n' s' with
          | Some (a, b) => Some (String c a, b)
          | None => None
          end
      end
  end.

Definition endOfFile {A : Type} : result A := Raise (Error "unexpected end-of-file").

Fixpoint zeros (n : nat) : string :=
  match n with
  | 0 => ""
  | S n' => String zero (zeros n')
  end.

Definition padLength (len : nat) : nat := (8 - len mod 8) mod 8.

Definition nixWriteNum (n : N) : string := le_bytes 8 n.

Definition nixWriteString (s : string) : string :=
  nixWriteNum (N.of_nat (String.length s)) +:+ s +:+ zeros (padLength (String.length s)).

Definition nixReadNum (src : string) : result (N * string) :=
  match splitAt 8 src with
  | Some (b, rest) => Ok (le_number b, rest)
  | None => endOfFile
  end.

Definition nixReadString (src : string) : result (string * string) :=
  let* (len, src) := nixReadNum src in
  match splitAt (N.to_nat len) src with
  | Some (s, src) =>
      match splitAt (padLength (N.to_nat len)) src with
      | Some (pad, src) =>
          if string_forall (Ascii.eqb zero) pad then Ok (s, src)
          else Raise (Error "non-zero padding")
      | None => endOfFile
      end
  | None => endOfFile
  end.

Definition nixReadStrings (src : string) : result (Strings * string) :=
  let* (count, src) := nixReadNum src in
  times (N.to_nat count)
    (fun (ss : Strings) src =>
       let* (s, src) := nixReadString src in Ok (ss ++ [s], src))
    [] src.

Definition nixWire : Serialiser := {|
  writeNum := nixWriteNum;
  writeString := nixWriteString;
  writeStrings l :=
    nixWriteNum (N.of_nat (length l)) +:+ Wire.writeAll nixWriteString l;
  writeStorePaths st ps :=
    nixWriteNum (N.of_nat (length ps))
    +:+ Wire.writeAll (fun p => nixWriteString (printStorePath st p)) ps;
  readNum := nixReadNum;
  readString := nixReadString;
  readStrings := nixReadStrings;
  readStorePaths st src :=
    let* (l, src) := nixReadStrings src in
    let* paths := parseStorePathSet st l in
    Ok (paths, src)
|}.

(** A derivation object that was used before: it holds a variable and
    an input derivation of its own *)
Definition usedDerivation : Derivation := {|
  outputs :=
    [("doc", DerivationOutputIntensional
               (mkStorePath "77777777777777777777777777777777-app"))];
  inputSrcs := [];
  platform := "i686-linux";
  builder := "/bin/bash";
  args := ["-e"];
  env := [("dev", "stale"); ("shell", "/bin/bash")];
  name := "old";
  inputDrvs := [(pathF2, ["out"])]
|}.

(** ** Predicates of the statements on the binary cache store *)

(** An operation that leaves the part [f] of the state as it is *)
Definition preserves {A X : Type} (f : State -> X) (m : M A) : Prop :=
  forall s, f (snd (m s)) = f s.

(** An operation that removes no file from the backend *)
Definition keeps_files {A : Type} (m : M A) : Prop :=
  forall s k, is_Some (backend s !! k) -> is_Some (backend (snd (m s)) !! k).

(** An operation that always returns normally *)
Definition succeeds {A : Type} (m : M A) : Prop :=
  forall s, exists a, fst (m s) = Ok a.

Fixpoint lastChar (s : string) : option ascii :=
  match s with
  | EmptyString => None
  | String c EmptyString => Some c
  | String _ s' => lastChar s'
  end.

(** The key of the compressed NAR [narCompressed] *)
Definition narUrl (hl : HashLib) (cfg : Config) (narCompressed : string) : string :=
  "nar/" +:+ to_base32 hl (hashString hl htSHA256 narCompressed) +:+ ".nar"
  +:+ BinaryCacheStore.compressionExt (cfg_compression cfg).

(** The key of the listing *)
Definition listingKey (info : ValidPathInfo) : string := baseName (path info) +:+ ".ls".

(** The record [addToStore] publishes for [info], the NAR [nar] and its
    compressed form [narCompressed] *)
Definition ingestRecord (hl : HashLib) (lib : CacheLib) (cfg : Config)
    (info : ValidPathInfo) (nar narCompressed : string) : NarInfo :=
  let narInfo :=
    {| vpi := with_nar (hashString hl htSHA256 nar) (Z.of_nat (String.length nar)) info;
       url := narUrl hl cfg narCompressed;
       compression := cfg_compression cfg;
       fileHash := Some (hashString hl htSHA256 narCompressed);
       fileSize := Z.of_nat (String.length narCompressed);
       system := "" |} in
  match secretKey cfg with
  | Some key =>
      set_vpi (fun i => with_sigs (set_insert strcmp (signDetached lib key narInfo) (sigs i)) i)
              narInfo
  | None => narInfo
  end.

(** The steps of [addToStore] between the making of the accessor and
    the writing of the record, as state transformers: the listing, the
    debug-info links and the NAR file with the counters *)
Definition listingStep (lib : CacheLib) (cfg : Config) (info : ValidPathInfo)
    (narAccessor : NarAccessor) : M unit :=
  if writeNARListing cfg
  then BinaryCacheStore.upsertFile (listingKey info)
         (listNarJSON lib narAccessor) "application/json"
  else ret tt.

Definition debugInfoStep (lib : CacheLib) (cfg : Config) (narAccessor : NarAccessor)
    (url : string) : M unit :=
  if writeDebugInfo cfg
  then
    if bool_decide (acc_stat narAccessor BinaryCacheStore.buildIdDir = tDirectory)
    then forM_ (BinaryCacheStore.debugInfoTasks lib narAccessor url) (fun task => task)
    else ret tt
  else ret tt.

(** The test [repair || !fileExists(url)] *)
Definition writesNar (repair : bool) (url : string) (s : State) : bool :=
  repair || negb (match backend s !! url with Some _ => true | None => false end).

Definition narStep (repair : bool) (url narCompressed : string) (s : State) : State :=
  if writesNar repair url s
  then set_backend <[url := (narCompressed, "application/x-nix-nar")]>
         (set_stats (bump cNarWrite 1) s)
  else set_stats (bump cNarWriteAverted 1) s.

Definition countBytes (nar narCompressed : string) (duration : Z) (s : State) : State :=
  set_stats (bump cNarWriteCompressionTimeMs duration)
    (set_stats (bump cNarWriteCompressedBytes (Z.of_nat (String.length narCompressed)))
       (set_stats (bump cNarWriteBytes (Z.of_nat (String.length nar))) s)).

(** The state a completed ingestion leaves, from the state [s] after
    the debug-info links *)
Definition ingestFinal (hl : HashLib) (lib : CacheLib) (cfg : Config)
    (info : ValidPathInfo) (nar narCompressed : string) (repair : bool) (duration : Z)
    (s : State) : State :=
  set_stats (bump cNarInfoWrite 1)
    (snd (BinaryCacheStore.writeNarInfo lib
            (ingestRecord hl lib cfg info nar narCompressed)
            (countBytes nar narCompressed duration
               (narStep repair (narUrl hl cfg narCompressed) narCompressed s)))).

(** [s'] is [s] with debug-info links added under keys that were free *)
Definition addsLinks (s s' : State) : Prop :=
  pathInfoCache s' = pathInfoCache s /\ diskCache s' = diskCache s /\ stats s' = stats s
  /\ forall k, backend s' !! k = backend s !! k
               \/ (is_prefix "debuginfo/" k = true /\ backend s !! k = None).

(** The checks an ingestion passes before anything is written: it is
    not skipped, every reference is valid, the magic is there, the
    declared hash is the hash of the bytes and the NAR can be read *)
Record ingestChecked (store : Store) (hl : HashLib) (lib : CacheLib) (cfg : Config)
    (info : ValidPathInfo) (nar : string) (repair : bool) (s s2 : State)
    (narAccessor : NarAccessor) : Prop := {
  ic_notSkipped : BinaryCacheStore.alreadyValid info repair s = (Ok false, s);
  ic_references :
    forM_ (references info) (BinaryCacheStore.checkReference store lib info) s = (Ok tt, s2);
  ic_magic : is_prefix (narMagic cfg) nar = true;
  ic_narHash : narHash info = None \/ narHash info = Some (hashString hl htSHA256 nar);
  ic_accessor : makeNarAccessor lib nar = Ok narAccessor
}.

(** [exampleConfig] with a compression method the library of the
    examples does not have *)
Definition xzConfig : Config := {|
  cfg_compression := "xz";
  parallelCompression := false;
  writeNARListing := true;
  writeDebugInfo := false;
  secretKey := None;
  narMagic := exampleMagic
|}.

(** A cache that holds one debug-info link *)
Definition stateWithLink : State :=
  {| backend := {[ "debuginfo/0123456789abcdef0123456789abcdef01234567.debug" :=
                     ("{archive:../nar/old.nar,member:lib/debug/x.debug}",
                      "application/json") ]};
     pathInfoCache := ∅; diskCache := None; stats := emptyStats |}.

(** [pathP] under another name: the same hash part *)
Definition pathP' : StorePath := mkStorePath "aaaaaaaaaaaaaaaaaaaaaaaaaaaaaaaa-goodbye".

(** *** Examples for the remaining operations *)

(** The lines of a text: the pieces between newlines that are not empty *)
Fixpoint linesOf (cur s : string) : Strings :=
  match s with
  | EmptyString => if String.eqb cur "" then [] else [cur]
  | String c s' =>
      if Ascii.eqb c LF
      then (if String.eqb cur "" then [] else [cur]) ++ linesOf "" s'
      else linesOf (cur +:+ str1 c) s'
  end.

Fixpoint dropSpaces (s : string) : string :=
  match s with
  | String " " s' => dropSpaces s'
  | _ => s
  end.

Fixpoint endsWith (suffix s : string) : bool :=
  String.eqb suffix s
  || match s with
     | EmptyString => false
     | String _ s' => endsWith suffix s'
     end.

(** The utilities of the examples, for texts without tabs and carriage
    returns and without blanks at the end of a line; the file system
    holds the one file [/tmp/hello.txt] *)
Definition exampleUtil : Util := {|
  tokenizeString s _ := linesOf "" s;
  trim := dropSpaces;
  hasSuffix s suffix := endsWith suffix s;
  baseNameOf s :=
    match strip_prefix (nixStoreDir +:+ "/") s with Some b => b | None => s end;
  readLocalFile f :=
    if String.eqb f "/tmp/hello.txt" then Ok "hello"
    else Raise (Error ("opening file '" +:+ f +:+ "'"));
  stoi s := Raise (Error ("stoi: '" +:+ s +:+ "'"));
  fmtInt := printZ
|}.

(** The store functions of the examples: a text goes to the path made
    from the hash of its contents and references *)
Definition exampleStoreLib : StoreLib := {|
  computeStorePathForText name s references :=
    nixMakeStorePath
      (joinWith ":" ("text" :: map (fun p => nixStoreDir +:+ "/" +:+ baseName p) references))
      (hashString nixHash htSHA256 s) name;
  dumpString s := exampleMagic +:+ "(type regular contents " +:+ s +:+ ")";
  dumpPath f _ := Raise (Error ("opening file '" +:+ f +:+ "'"));
  getUri := "file:///tmp/cache"
|}.

(** A cache made for another store directory *)
Definition stateOtherStore : State :=
  {| backend := {[ "nix-cache-info" := ("StoreDir: /gnu/store" +:+ str1 LF,
                                        "text/x-nix-cache-info") ]};
     pathInfoCache := ∅; diskCache := None; stats := emptyStats |}.

(** * Theorems *)

(** ** Ordered containers *)

Lemma strlt_irrefl s : ~ String_as_OT.lt s s.
Proof. apply (StrictOrder_Irreflexive (R:=String_as_OT.lt)). Qed.

Lemma strlt_asym s t : String_as_OT.lt s t -> String_as_OT.lt t s -> False.
Proof. intros H1 H2. apply (strlt_irrefl s). by transitivity t. Qed.

Lemma strcmp_ok : CmpOk strcmp.
Proof.
  split.
  - intros x y. unfold strcmp.
    destruct (String_as_OT.compare_spec x y) as [H|H|H]; split;
      try congruence; intros ->; exfalso; eapply strlt_irrefl; eauto.
  - intros x y. unfold strcmp.
    destruct (String_as_OT.compare_spec x y) as [H|H|H],
             (String_as_OT.compare_spec y x) as [H'|H'|H'];
      split; try congruence; intros _; exfalso;
      unfold String_as_OT.eq in *; subst;
      solve [ eapply strlt_irrefl; eauto | eapply strlt_asym; eauto ].
  - intros x y z. unfold strcmp. apply (StrictOrder_Transitive (R:=String_as_OT.lt)).
Qed.
#[global] Existing Instance strcmp_ok.

Lemma pathcmp_ok : CmpOk pathcmp.
Proof.
  split; unfold pathcmp.
  - intros [x] [y]; simpl. rewrite cmp_eq. split; congruence.
  - intros x y. apply cmp_gt.
  - intros x y z. apply cmp_trans.
Qed.
#[global] Existing Instance pathcmp_ok.

Section OrderedFacts.
Context {K : Type} (cmp : K -> K -> comparison) `{!CmpOk cmp}.

Lemma cmp_refl x : cmp x x = Eq.
Proof. by apply cmp_eq. Qed.

Lemma cmp_lt_gt x y : cmp x y = Lt -> cmp y x = Gt.
Proof. intros. by apply cmp_gt. Qed.

Lemma set_insert_last l x :
  Forall (fun y => cmp y x = Lt) l -> set_insert cmp x l = l ++ [x].
Proof.
  induction 1 as [|y l Hy _ IH]; simpl; [done|].
  by rewrite (cmp_lt_gt _ _ Hy), IH.
Qed.

Lemma increasing_app l1 l2 :
  increasing cmp (l1 ++ l2) <->
  increasing cmp l1 /\ increasing cmp l2
  /\ Forall (fun a => Forall (fun b => cmp a b = Lt) l2) l1.
Proof.
  induction l1 as [|a l1 IH]; simpl.
  - intuition.
  - rewrite Forall_app, IH, Forall_cons. intuition.
Qed.

Lemma Forall_lt_flip (l : list K) x :
  Forall (fun a => Forall (fun b => cmp a b = Lt) [x]) l ->
  Forall (fun y => cmp y x = Lt) l.
Proof. intros H. eapply Forall_impl; [exact H|]. intros a Ha. by inversion Ha. Qed.

Lemma fold_set_insert_increasing l2 : forall l1,
  increasing cmp (l1 ++ l2) ->
  fold_left (fun acc x => set_insert cmp x acc) l2 l1 = l1 ++ l2.
Proof.
  induction l2 as [|x l2 IH]; intros l1 H; simpl.
  - by rewrite app_nil_r.
  - rewrite set_insert_last.
    + rewrite IH; rewrite <- app_assoc; [done|exact H].
    + change (x :: l2) with ([x] ++ l2) in H. rewrite app_assoc in H.
      apply increasing_app in H as (H & _ & _).
      apply increasing_app in H as (_ & _ & H). by apply Forall_lt_flip.
Qed.

Lemma set_insert_all_increasing l :
  increasing cmp l -> set_insert_all cmp l [] = l.
Proof. intros. by apply (fold_set_insert_increasing l []). Qed.

Lemma In_set_insert x y l :
  In y (set_insert cmp x l) <-> y = x \/ In y l.
Proof.
  induction l as [|z l IH]; simpl; [intuition|].
  destruct (cmp x z) eqn:E; simpl.
  - apply cmp_eq in E as ->. intuition.
  - intuition.
  - rewrite IH. intuition.
Qed.

Lemma increasing_set_insert x l :
  increasing cmp l -> increasing cmp (set_insert cmp x l).
Proof.
  induction l as [|z l IH]; simpl; [intuition|].
  intros [Hz Hl]. destruct (cmp x z) eqn:E; simpl.
  - done.
  - repeat split; try done. constructor; [done|].
    eapply Forall_impl; [exact Hz|]. intros a Ha; simpl in Ha. eapply cmp_trans; eauto.
  - split; [|by apply IH].
    apply List.Forall_forall. intros a Ha. apply In_set_insert in Ha as [->|Ha].
    + by apply cmp_gt.
    + rewrite List.Forall_forall in Hz. by apply Hz.
Qed.

Lemma In_set_insert_all xs : forall l y,
  In y (set_insert_all cmp xs l) <-> In y xs \/ In y l.
Proof.
  unfold set_insert_all.
  induction xs as [|x xs IH]; intros l y; simpl; [intuition|].
  rewrite IH, In_set_insert. intuition.
Qed.

Lemma increasing_set_insert_all xs : forall l,
  increasing cmp l -> increasing cmp (set_insert_all cmp xs l).
Proof.
  unfold set_insert_all.
  induction xs as [|x xs IH]; intros l Hl; simpl; [done|].
  by apply IH, increasing_set_insert.
Qed.

Lemma increasing_lt_irrefl x : cmp x x <> Lt.
Proof. by rewrite cmp_refl. Qed.

(** Two strictly increasing lists with the same elements are equal *)
Lemma increasing_unique l1 : forall l2,
  increasing cmp l1 -> increasing cmp l2 ->
  (forall x, In x l1 <-> In x l2) -> l1 = l2.
Proof.
  induction l1 as [|a l1 IH]; intros [|b l2] H1 H2 Hin.
  - done.
  - exfalso. by apply (Hin b); left.
  - exfalso. by apply (Hin a); left.
  - destruct H1 as [Ha H1], H2 as [Hb H2].
    rewrite List.Forall_forall in Ha, Hb.
    assert (a = b) as ->.
    { destruct (proj1 (Hin a) (or_introl eq_refl)) as [->|Hab]; [done|].
      destruct (proj2 (Hin b) (or_introl eq_refl)) as [->|Hba]; [done|].
      exfalso. apply (increasing_lt_irrefl a).
      eapply cmp_trans; [apply Ha, Hba | apply Hb, Hab]. }
    f_equal. apply IH; [done..|].
    intros x. split; intros Hx.
    + destruct (proj1 (Hin x) (or_intror Hx)) as [<-|]; [|done].
      exfalso. by apply (increasing_lt_irrefl b), Ha.
    + destruct (proj2 (Hin x) (or_intror Hx)) as [<-|]; [|done].
      exfalso. by apply (increasing_lt_irrefl b), Hb.
Qed.

Lemma increasingb_spec l : increasingb cmp l = true <-> increasing cmp l.
Proof.
  induction l as [|x l IH]; simpl; [intuition|].
  rewrite andb_true_iff, IH, forallb_forall, List.Forall_forall.
  split; intros [H ?]; split; try done; intros y Hy; specialize (H y Hy);
    by destruct (cmp x y).
Qed.

Context {V : Type}.
Implicit Types m : list (K * V).

Lemma map_insert_or_assign_last m k v :
  Forall (fun y => cmp y k = Lt) (map fst m) ->
  map_insert_or_assign cmp k v m = m ++ [(k, v)].
Proof.
  induction m as [|[k' v'] m IH]; simpl; [done|].
  intros H; inversion H; subst. by rewrite (cmp_lt_gt k' k), IH.
Qed.

Lemma map_emplace_last m k v :
  Forall (fun y => cmp y k = Lt) (map fst m) ->
  map_emplace cmp k v m = m ++ [(k, v)].
Proof.
  induction m as [|[k' v'] m IH]; simpl; [done|].
  intros H; inversion H; subst. by rewrite (cmp_lt_gt k' k), IH.
Qed.

Lemma increasing_keys_last m1 k v m2 :
  increasing cmp (map fst (m1 ++ (k, v) :: m2)) ->
  Forall (fun y => cmp y k = Lt) (map fst m1).
Proof.
  rewrite map_app; simpl. change (k :: map fst m2) with ([k] ++ map fst m2).
  rewrite app_assoc. intros H.
  apply increasing_app in H as (H & _ & _).
  apply increasing_app in H as (_ & _ & H). by apply Forall_lt_flip.
Qed.

Lemma fold_insert_or_assign_increasing m2 : forall m1,
  increasing cmp (map fst (m1 ++ m2)) ->
  fold_left (fun acc kv => map_insert_or_assign cmp (fst kv) (snd kv) acc) m2 m1 = m1 ++ m2.
Proof.
  induction m2 as [|[k v] m2 IH]; intros m1 H; simpl.
  - by rewrite app_nil_r.
  - rewrite map_insert_or_assign_last by (by eapply increasing_keys_last).
    rewrite IH; rewrite <- app_assoc; [done|exact H].
Qed.

Lemma fold_emplace_increasing m2 : forall m1,
  increasing cmp (map fst (m1 ++ m2)) ->
  fold_left (fun acc kv => map_emplace cmp (fst kv) (snd kv) acc) m2 m1 = m1 ++ m2.
Proof.
  induction m2 as [|[k v] m2 IH]; intros m1 H; simpl.
  - by rewrite app_nil_r.
  - rewrite map_emplace_last by (by eapply increasing_keys_last).
    rewrite IH; rewrite <- app_assoc; [done|exact H].
Qed.
End OrderedFacts.

(** ** Reading strings and lists *)

Lemma sapp_cons c (a b : string) : String c a +:+ b = String c (a +:+ b).
Proof. reflexivity. Qed.

Lemma sapp_nil_l (b : string) : "" +:+ b = b.
Proof. reflexivity. Qed.

Lemma sapp_assoc (a b c : string) : (a +:+ b) +:+ c = a +:+ b +:+ c.
Proof. induction a as [|x a IH]; [done|]. by rewrite !sapp_cons, IH. Qed.

Lemma sapp_nil_r (a : string) : a +:+ "" = a.
Proof. induction a as [|x a IH]; [done|]. by rewrite sapp_cons, IH. Qed.

Lemma slength_app (a b : string) :
  String.length (a +:+ b) = String.length a + String.length b.
Proof. induction a as [|x a IH]; [done|]. rewrite sapp_cons. simpl. by rewrite IH. Qed.

Lemma strip_prefix_app s rest : strip_prefix s (s +:+ rest) = Some rest.
Proof. induction s as [|c s IH]; [done|]. rewrite sapp_cons. simpl. by rewrite Ascii.eqb_refl. Qed.

Lemma expect_app s rest : expect s (s +:+ rest) = Ok rest.
Proof. unfold expect. by rewrite strip_prefix_app. Qed.


Lemma parseStringBody_plain s rest :
  plain s = true ->
  parseStringBody (s +:+ String dquote rest) = Ok (s, rest).
Proof.
  induction s as [|c s IH]; rewrite ?sapp_cons, ?sapp_nil_l; simpl.
  - done.
  - unfold plain; simpl. rewrite andb_true_iff. fold (plain s).
    unfold plainChar at 1. rewrite andb_true_iff, !negb_true_iff.
    intros [[-> ->] Hs]. by rewrite (IH Hs).
Qed.

Lemma parseStringBody_escape s rest :
  parseStringBody (escape s +:+ String dquote rest) = Ok (s, rest).
Proof.
  induction s as [|c s IH]; simpl.
  - done.
  - destruct (Ascii.eqb c dquote) eqn:E1; simpl.
    { apply Ascii.eqb_eq in E1 as ->. rewrite ?sapp_cons. simpl. by rewrite ?sapp_cons, IH. }
    destruct (Ascii.eqb c backslash) eqn:E2; simpl.
    { apply Ascii.eqb_eq in E2 as ->. rewrite ?sapp_cons. simpl. by rewrite ?sapp_cons, IH. }
    destruct (Ascii.eqb c LF) eqn:E3.
    { apply Ascii.eqb_eq in E3 as ->. rewrite ?sapp_cons. simpl. by rewrite ?sapp_cons, IH. }
    destruct (Ascii.eqb c CR) eqn:E4.
    { apply Ascii.eqb_eq in E4 as ->. rewrite ?sapp_cons. simpl. by rewrite ?sapp_cons, IH. }
    destruct (Ascii.eqb c TAB) eqn:E5.
    { apply Ascii.eqb_eq in E5 as ->. rewrite ?sapp_cons. simpl. by rewrite ?sapp_cons, IH. }
    rewrite ?sapp_cons. simpl. by rewrite ?E1, ?E2, ?sapp_cons, IH.
Qed.

Lemma parseString_unquoted s rest :
  plain s = true ->
  parseString (printUnquotedString s +:+ rest) = Ok (s, rest).
Proof.
  intros Hs. unfold parseString, printUnquotedString.
  rewrite !sapp_assoc, expect_app. cbn [bind].
  by apply parseStringBody_plain.
Qed.

Lemma parseString_quoted s rest :
  parseString (printString s +:+ rest) = Ok (s, rest).
Proof.
  unfold parseString, printString.
  rewrite !sapp_assoc, expect_app. cbn [bind].
  by apply parseStringBody_escape.
Qed.

Lemma parsePath_unquoted s rest :
  plain s = true -> is_prefix "/" s = true ->
  parsePath (printUnquotedString s +:+ rest) = Ok (s, rest).
Proof.
  intros Hs Hp. unfold parsePath. rewrite parseString_unquoted by done. cbn [bind].
  unfold is_prefix in Hp. destruct s as [|c s]; simpl in Hp; [done|].
  by destruct c as [[] [] [] [] [] [] [] []].
Qed.

(** *** Lists *)


Lemma endOfList_element s rest :
  starts_element s -> endOfList (s +:+ rest) = (false, s +:+ rest).
Proof.
  intros (c & s' & -> & H1 & H2). rewrite sapp_cons. simpl.
  destruct c as [[] [] [] [] [] [] [] []]; try done.
Qed.

Lemma starts_element_length s : starts_element s -> 0 < String.length s.
Proof. intros (c & s' & -> & _). simpl. lia. Qed.

Section Loop.
Context {A B : Type}.
Context (body : B -> string -> result (B * string)).
Context (pr : A -> string) (ins : B -> A -> B).

Local Abbreviation parses := (parses body pr ins).

Lemma loop_rest l : forall fuel acc rest,
  length l < fuel ->
  Forall parses l ->
  whileNotEndOfList_fuel fuel body acc (printSeparated pr false l +:+ String "]" rest)
  = Ok (fold_left ins l acc, rest).
Proof.
  induction l as [|x l IH]; intros fuel acc rest Hf Hl;
    (destruct fuel as [|fuel]; [simpl in Hf; lia|]).
  - done.
  - inversion Hl as [|? ? Hx Hl']; subst. simpl in Hf.
    cbn [printSeparated whileNotEndOfList_fuel].
    rewrite !sapp_assoc, sapp_cons, sapp_nil_l. cbn [endOfList].
    rewrite Hx. cbn [bind fold_left]. apply IH; [lia|done].
Qed.

Lemma loop_first l : forall fuel acc rest,
  length l < fuel ->
  Forall parses l ->
  Forall (fun x => starts_element (pr x)) l ->
  whileNotEndOfList_fuel fuel body acc (printSeparated pr true l +:+ String "]" rest)
  = Ok (fold_left ins l acc, rest).
Proof.
  intros fuel acc rest Hf Hl Hs.
  destruct l as [|x l]; (destruct fuel as [|fuel]; [simpl in Hf; lia|]).
  - done.
  - inversion Hl as [|? ? Hx Hl']; inversion Hs as [|? ? Hsx _]; subst. simpl in Hf.
    cbn [printSeparated whileNotEndOfList_fuel].
    rewrite !sapp_assoc, sapp_nil_l.
    rewrite endOfList_element by done.
    rewrite Hx. cbn [bind fold_left]. apply loop_rest; [lia|done].
Qed.

Lemma printSeparated_length l first :
  Forall (fun x => starts_element (pr x)) l ->
  length l <= String.length (printSeparated pr first l).
Proof.
  intros H. revert first. induction H as [|x l Hx Hl IH]; intros first; simpl; [lia|].
  rewrite !slength_app. specialize (IH false).
  apply starts_element_length in Hx. lia.
Qed.

Lemma whileNotEndOfList_printed l acc rest :
  Forall parses l ->
  Forall (fun x => starts_element (pr x)) l ->
  whileNotEndOfList body acc (printSeparated pr true l +:+ String "]" rest)
  = Ok (fold_left ins l acc, rest).
Proof.
  intros Hl Hs. unfold whileNotEndOfList. apply loop_first; [|done..].
  rewrite slength_app. pose proof (printSeparated_length l true Hs). lia.
Qed.
End Loop.

(** ** Reading the parts of a derivation *)

Lemma result_is_true {A : Type} `{EqDecision A} (r : result A) (a : A) :
  result_is r a = true <-> r = Ok a.
Proof.
  destruct r; simpl; [|done]. rewrite bool_decide_eq_true. split; congruence.
Qed.

(** [norm] brings a text to the form the reading lemmas are stated in;
    [eat] runs the [expect] at the head of the goal on a literal *)
Ltac norm := rewrite ?sapp_assoc, ?sapp_cons, ?sapp_nil_l.
Lemma expect_strip s str rest : strip_prefix s str = Some rest -> expect s str = Ok rest.
Proof. unfold expect. by intros ->. Qed.

Ltac eat :=
  match goal with
  | |- context [bind (expect ?s ?str) _] =>
      let r := eval cbn [strip_prefix Ascii.eqb Bool.eqb andb] in (strip_prefix s str) in
      match r with
      | Some ?rest => rewrite (expect_strip s str rest eq_refl); cbn [bind]
      end
  end.


Lemma starts_quote s rest : starts_element (String dquote s +:+ rest).
Proof. rewrite sapp_cons. eexists _, _. split; [done|]. by split. Qed.

Lemma printUnquotedString_starts s : starts_element (printUnquotedString s).
Proof. unfold printUnquotedString, str1. apply starts_quote. Qed.

Lemma printString_starts s : starts_element (printString s).
Proof. unfold printString, str1. apply starts_quote. Qed.

Lemma starts_paren rest : starts_element (String "(" rest).
Proof. eexists _, _. split; [done|]. by split. Qed.

Section RoundTrip.
Context (st : Store) (hl : HashLib).

Lemma parseStrings_printed (l : StringSet) rest :
  forallb plain l = true -> increasing strcmp l ->
  parseStrings (printSeparated printUnquotedString true l +:+ String "]" rest) false
  = Ok (l, rest).
Proof.
  intros Hp Hi. unfold parseStrings.
  rewrite (whileNotEndOfList_printed _ printUnquotedString
             (fun res s => set_insert strcmp s res)).
  - f_equal. f_equal. by apply (set_insert_all_increasing strcmp).
  - rewrite List.forallb_forall in Hp. apply List.Forall_forall. intros x Hx acc r.
    by rewrite parseString_unquoted by auto.
  - apply List.Forall_forall. intros x _. apply printUnquotedString_starts.
Qed.

Lemma parsePaths_printed (l : StringSet) rest :
  forallb (fun s => plain s && is_prefix "/" s) l = true -> increasing strcmp l ->
  parseStrings (printSeparated printUnquotedString true l +:+ String "]" rest) true
  = Ok (l, rest).
Proof.
  intros Hp Hi. unfold parseStrings.
  rewrite (whileNotEndOfList_printed _ printUnquotedString
             (fun res s => set_insert strcmp s res)).
  - f_equal. f_equal. by apply (set_insert_all_increasing strcmp).
  - rewrite List.forallb_forall in Hp. apply List.Forall_forall. intros x Hx acc r.
    specialize (Hp x Hx). apply andb_true_iff in Hp as [? ?].
    by rewrite parsePath_unquoted.
  - apply List.Forall_forall. intros x _. apply printUnquotedString_starts.
Qed.

Lemma printMethodAlgo_facts h :
  plain (printMethodAlgo h) = true
  /\ String.eqb (printMethodAlgo h) "" = false
  /\ (let hashAlgo := printMethodAlgo h in
      (if String.eqb (String.substring 0 2 hashAlgo) "r:"
       then (Recursive, String.substring 2 (String.length hashAlgo - 2) hashAlgo)
       else (Flat, hashAlgo))
      = (foh_method h, printHashType (hashType (foh_hash h))))
  /\ parseHashType (printHashType (hashType (foh_hash h))) = Ok (hashType (foh_hash h)).
Proof. destruct h as [[] [[] ?]]; repeat split; reflexivity. Qed.

Lemma pathRoundTrips_spec p :
  pathRoundTrips st p = true ->
  plain (printStorePath st p) = true
  /\ is_prefix "/" (printStorePath st p) = true
  /\ parseStorePath st (printStorePath st p) = Ok p.
Proof.
  unfold pathRoundTrips. rewrite !andb_true_iff, result_is_true. tauto.
Qed.

Lemma parseDerivationOutput_printed drvName (i : string * DerivationOutput) rest :
  outputRoundTrips st hl drvName i = true ->
  parseDerivationOutput st hl
    (String ","
       (printUnquotedString (printStorePath st (DerivationOutput_path st (snd i) drvName))
        +:+ match snd i with
            | DerivationOutputFixed hash =>
                String "," (printUnquotedString (printMethodAlgo hash)
                +:+ String "," (printUnquotedString (to_base16 hl (foh_hash hash))
                +:+ String ")" rest))
            | DerivationOutputIntensional _ =>
                String "," (printUnquotedString ""
                +:+ String "," (printUnquotedString ""
                +:+ String ")" rest))
            end))
  = Ok (snd i, rest).
Proof.
  unfold outputRoundTrips. rewrite !andb_true_iff. intros [[_ Hp] Ho].
  apply pathRoundTrips_spec in Hp as (Hp1 & Hp2 & Hp3).
  unfold parseDerivationOutput. eat.
  rewrite parsePath_unquoted by done. cbn [bind]. rewrite Hp3. cbn [bind].
  destruct (snd i) as [p|h].
  - eat. rewrite parseString_unquoted by done. cbn [bind]. eat.
    rewrite parseString_unquoted by done. cbn [bind]. eat. done.
  - destruct (printMethodAlgo_facts h) as (F1 & F2 & F3 & F4).
    unfold hashRoundTrips in Ho. rewrite andb_true_iff, result_is_true in Ho.
    destruct Ho as [Hh1 Hh2].
    eat. rewrite parseString_unquoted by done. cbn [bind]. eat.
    rewrite parseString_unquoted by done. cbn [bind]. eat.
    rewrite F2. cbn [negb]. cbv zeta in F3. rewrite F3, F4. cbn [bind].
    rewrite Hh2. cbn [bind]. by destruct h.
Qed.
End RoundTrip.

(** ** Reading a whole derivation *)

Lemma fold_left_snoc {A : Type} (l : list A) : forall acc,
  fold_left (fun acc a => acc ++ [a]) l acc = acc ++ l.
Proof.
  induction l as [|x l IH]; intros acc; simpl; [by rewrite app_nil_r|].
  by rewrite IH, <- app_assoc.
Qed.

Lemma foldM_ok {A S : Type} (f : S -> A -> result S) (g : S -> A -> S) (l : list A) :
  forall s, (forall x s, In x l -> f s x = Ok (g s x)) ->
  foldM f l s = Ok (fold_left g l s).
Proof.
  induction l as [|x l IH]; intros s H; simpl; [done|].
  rewrite H by (by left). cbn [bind]. apply IH. intros; apply H; by right.
Qed.

Lemma fold_insert_map {A K : Type} (cmp : K -> K -> comparison) (g : A -> K) (l : list A) :
  forall acc,
  fold_left (fun res i => set_insert cmp (g i) res) l acc
  = set_insert_all cmp (map g l) acc.
Proof. unfold set_insert_all. induction l as [|x l IH]; intros acc; simpl; [done|apply IH]. Qed.

Section RoundTrip.
Context (st : Store) (hl : HashLib).

Lemma output_parses drvName (i : string * DerivationOutput) acc rest :
  outputRoundTrips st hl drvName i = true ->
  (let* str := expect "(" (printOutput st hl drvName false i +:+ rest) in
   let* (id, str) := parseString str in
   let* (output, str) := parseDerivationOutput st hl str in
   Ok (map_emplace strcmp id output acc, str))
  = Ok (map_emplace strcmp (fst i) (snd i) acc, rest).
Proof.
  intros H. pose proof (parseDerivationOutput_printed st hl drvName i rest H) as P.
  unfold outputRoundTrips in H. rewrite !andb_true_iff in H. destruct H as [[Hid _] _].
  unfold printOutput. destruct i as [id o]; cbn [fst snd] in *.
  destruct o; norm; eat; rewrite parseString_unquoted by done; cbn [bind];
    rewrite P; done.
Qed.

Lemma input_parses (i : StorePath * StringSet) acc rest :
  inputRoundTrips st i = true -> increasing strcmp (snd i) ->
  (let* str := expect "(" (printInput (printStorePath st (fst i), snd i) +:+ rest) in
   let* (drvPath, str) := parsePath str in
   let* str := expect ",[" str in
   let* p := parseStorePath st drvPath in
   let* (ids, str) := parseStrings str false in
   let* str := expect ")" str in
   Ok (map_insert_or_assign pathcmp p ids acc, str))
  = Ok (map_insert_or_assign pathcmp (fst i) (snd i) acc, rest).
Proof.
  unfold inputRoundTrips. rewrite andb_true_iff. intros [Hp Hids] Hinc.
  apply pathRoundTrips_spec in Hp as (Hp1 & Hp2 & Hp3).
  unfold printInput, printUnquotedStrings. cbn [fst snd]. norm. eat.
  rewrite parsePath_unquoted by done. cbn [bind]. eat.
  rewrite Hp3. cbn [bind].
  rewrite parseStrings_printed by done. cbn [bind]. eat. done.
Qed.

Lemma envPair_parses outs (i : string * string) acc rest :
  (let* str := expect "(" (printEnvPair outs false i +:+ rest) in
   let* (name, str) := parseString str in
   let* str := expect "," str in
   let* (value, str) := parseString str in
   let* str := expect ")" str in
   Ok (map_insert_or_assign strcmp name value acc, str))
  = Ok (map_insert_or_assign strcmp (fst i) (snd i) acc, rest).
Proof.
  unfold printEnvPair. cbn [andb]. norm. eat.
  rewrite parseString_quoted. cbn [bind]. eat.
  rewrite parseString_quoted. cbn [bind]. eat. done.
Qed.

Lemma printStorePathSet_spec (srcs : StorePathSet) :
  increasing strcmp (printStorePathSet st srcs)
  /\ forall s, In s (printStorePathSet st srcs) <-> exists p, In p srcs /\ s = printStorePath st p.
Proof.
  unfold printStorePathSet. split.
  - by apply (increasing_set_insert_all strcmp).
  - intros s. rewrite (In_set_insert_all strcmp), in_map_iff. simpl.
    split; [intros [(p & <- & ?)|[]]; eauto|intros (p & ? & ->); eauto].
Qed.

Lemma parseStorePathSet_printed (srcs : StorePathSet) :
  forallb (pathRoundTrips st) srcs = true -> increasing pathcmp srcs ->
  parseStorePathSet st (printStorePathSet st srcs) = Ok srcs.
Proof.
  intros Hp Hinc. rewrite List.forallb_forall in Hp.
  destruct (printStorePathSet_spec srcs) as [Hi Hin].
  set (g := fun s => match parseStorePath st s with Ok p => p | Raise _ => mkStorePath "" end).
  unfold parseStorePathSet.
  rewrite (foldM_ok _ (fun res i => set_insert pathcmp (g i) res)).
  - f_equal. rewrite fold_insert_map.
    apply (increasing_unique pathcmp); [|done|].
    + by apply (increasing_set_insert_all pathcmp).
    + intros x. rewrite (In_set_insert_all pathcmp), in_map_iff. simpl.
      split.
      * intros [(s & <- & Hs)|[]]. apply Hin in Hs as (p & Hp' & ->).
        unfold g. destruct (pathRoundTrips_spec st p (Hp p Hp')) as (_ & _ & ->).
        done.
      * intros Hx. left. exists (printStorePath st x). split.
        -- unfold g. destruct (pathRoundTrips_spec st x (Hp x Hx)) as (_ & _ & ->).
           done.
        -- apply Hin. eauto.
  - intros s res Hs. apply Hin in Hs as (p & Hp' & ->).
    unfold g. apply Hp, pathRoundTrips_spec in Hp' as (_ & _ & ->). done.
Qed.

Lemma printedPaths_plain (srcs : StorePathSet) :
  forallb (pathRoundTrips st) srcs = true ->
  forallb (fun s => plain s && is_prefix "/" s) (printStorePathSet st srcs) = true.
Proof.
  intros Hp. rewrite List.forallb_forall in Hp. apply List.forallb_forall.
  intros s Hs. apply printStorePathSet_spec in Hs as (p & Hp' & ->).
  apply Hp, pathRoundTrips_spec in Hp' as (-> & -> & _). done.
Qed.

(** A text whose outputs are written by any printer that the output
    loop reads back is parsed to the derivation *)
Lemma parseDerivation_text (pr : string * DerivationOutput -> string) (d : Derivation) :
  wfDerivation d = true ->
  printableDerivation st hl d = true ->
  (forall i acc rest, In i (outputs d) ->
     (let* str := expect "(" (pr i +:+ rest) in
      let* (id, str) := parseString str in
      let* (output, str) := parseDerivationOutput st hl str in
      Ok (map_emplace strcmp id output acc, str))
     = Ok (map_emplace strcmp (fst i) (snd i) acc, rest)) ->
  (forall i, In i (outputs d) -> starts_element (pr i)) ->
  parseDerivation st hl (derivationText st hl pr d) (name d) = Ok d.
Proof.
  unfold wfDerivation, printableDerivation. rewrite !andb_true_iff.
  rewrite !increasingb_spec by apply _.
  intros [[[[W1 W2] W3] W4] W5] [[[P1 P2] P3] P4] Hpr Hst.
  rewrite List.forallb_forall in P1, P2, W3.
  unfold derivationText, parseDerivation. unfold printUnquotedStrings, printStrings.
  norm. eat.
  (* outputs *)
  rewrite (whileNotEndOfList_printed _ pr
             (fun outs i => map_emplace strcmp (fst i) (snd i) outs)); cycle 1.
  { apply List.Forall_forall. intros i Hi acc rest. by apply Hpr. }
  { apply List.Forall_forall. intros i Hi. by apply Hst. }
  cbn [bind]. rewrite (fold_emplace_increasing strcmp _ []) by done. cbn [app].
  eat.
  (* input derivations *)
  rewrite (whileNotEndOfList_printed _
             (fun i => printInput (printStorePath st (fst i), snd i))
             (fun ins i => map_insert_or_assign pathcmp (fst i) (snd i) ins)); cycle 1.
  { apply List.Forall_forall. intros i Hi acc rest. apply input_parses; [by apply P2|].
    apply (increasingb_spec strcmp). apply W3, in_map_iff. eauto. }
  { apply List.Forall_forall. intros i _. unfold printInput. norm. apply starts_paren. }
  cbn [bind]. rewrite (fold_insert_or_assign_increasing pathcmp _ []) by done. cbn [app].
  eat.
  (* input sources *)
  rewrite parsePaths_printed;
    [|by apply printedPaths_plain|apply printStorePathSet_spec].
  cbn [bind]. rewrite parseStorePathSet_printed by done. cbn [bind].
  eat. rewrite parseString_unquoted by done. cbn [bind].
  eat. rewrite parseString_quoted. cbn [bind].
  eat.
  (* arguments *)
  rewrite (whileNotEndOfList_printed _ printString (fun args a => args ++ [a])); cycle 1.
  { apply List.Forall_forall. intros a _ acc rest. by rewrite parseString_quoted. }
  { apply List.Forall_forall. intros a _. apply printString_starts. }
  cbn [bind]. rewrite fold_left_snoc. cbn [app].
  eat.
  (* environment *)
  rewrite (whileNotEndOfList_printed _ (printEnvPair (outputs d) false)
             (fun env i => map_insert_or_assign strcmp (fst i) (snd i) env)); cycle 1.
  { apply List.Forall_forall. intros i _ acc rest. apply envPair_parses. }
  { apply List.Forall_forall. intros i _. unfold printEnvPair. norm. apply starts_paren. }
  cbn [bind]. rewrite (fold_insert_or_assign_increasing strcmp _ []) by done. cbn [app].
  eat. by destruct d.
Qed.

Lemma unparse_derivationText (d : Derivation) :
  unparse st hl d false None = derivationText st hl (printOutput st hl (name d) false) d.
Proof. reflexivity. Qed.

Lemma printableDerivation_output d i :
  printableDerivation st hl d = true -> In i (outputs d) ->
  outputRoundTrips st hl (name d) i = true.
Proof.
  unfold printableDerivation. rewrite !andb_true_iff. intros [[[P1 _] _] _].
  rewrite List.forallb_forall in P1. apply P1.
Qed.
End RoundTrip.

(** ** The derivation codec: round trip and fixed outputs *)

Lemma printSeparated_ext {A : Type} (pr pr' : A -> string) (l : list A) :
  (forall x, In x l -> pr x = pr' x) ->
  forall first, printSeparated pr first l = printSeparated pr' first l.
Proof.
  induction l as [|x l IH]; intros H first; simpl; [done|].
  rewrite H by (by left). rewrite IH; [done|]. intros; apply H; by right.
Qed.

Section MapFind.
Context {K V : Type} (cmp : K -> K -> comparison) `{!CmpOk cmp}.

Lemma map_find_In (m : list (K * V)) k v :
  increasing cmp (map fst m) -> In (k, v) m -> map_find cmp k m = Some v.
Proof.
  induction m as [|[k' v'] m IH]; simpl; [done|].
  intros [Hk Hm] [[= -> ->]|Hin].
  - by rewrite (cmp_refl cmp).
  - rewrite List.Forall_forall in Hk.
    assert (cmp k' k = Lt) as Hlt by (apply Hk, in_map_iff; by exists (k, v)).
    rewrite (cmp_lt_gt cmp _ _ Hlt). by apply IH.
Qed.
End MapFind.

Section FixedOutputs.
Context (st : Store) (hl : HashLib).

Lemma declared_output_parses drvName declared (i : string * DerivationOutput) acc rest :
  outputRoundTrips st hl drvName i = true ->
  (isFixed (snd i) = true -> declarable st (declared (fst i)) = true) ->
  (let* str := expect "(" (declareOutput st hl drvName declared i +:+ rest) in
   let* (id, str) := parseString str in
   let* (output, str) := parseDerivationOutput st hl str in
   Ok (map_emplace strcmp id output acc, str))
  = Ok (map_emplace strcmp (fst i) (snd i) acc, rest).
Proof.
  intros H Hd. unfold declareOutput. destruct i as [id [p|h]]; cbn [fst snd] in *.
  { by apply (output_parses st hl drvName (id, DerivationOutputIntensional p)). }
  specialize (Hd eq_refl). unfold declarable in Hd. rewrite !andb_true_iff in Hd.
  destruct Hd as [[D1 D2] D3].
  destruct (parseStorePath st (declared id)) as [sp|] eqn:D4; [|done].
  unfold outputRoundTrips in H. rewrite !andb_true_iff in H. cbn [fst snd] in H.
  destruct H as [[Hid _] Hh]. unfold hashRoundTrips in Hh.
  rewrite andb_true_iff, result_is_true in Hh. destruct Hh as [Hh1 Hh2].
  destruct (printMethodAlgo_facts h) as (F1 & F2 & F3 & F4).
  norm. eat. rewrite parseString_unquoted by done. cbn [bind].
  unfold parseDerivationOutput. eat.
  rewrite parsePath_unquoted by done. cbn [bind]. rewrite D4. cbn [bind].
  eat. rewrite parseString_unquoted by done. cbn [bind]. eat.
  rewrite parseString_unquoted by done. cbn [bind]. eat.
  rewrite F2. cbn [negb]. cbv zeta in F3. rewrite F3, F4. cbn [bind].
  rewrite Hh2. cbn [bind]. by destruct h.
Qed.

Lemma declareOutput_starts drvName declared i :
  starts_element (declareOutput st hl drvName declared i).
Proof.
  unfold declareOutput, printOutput. destruct (snd i); norm; apply starts_paren.
Qed.

Lemma wfDerivation_outputs d :
  wfDerivation d = true -> increasing strcmp (map fst (outputs d)).
Proof.
  unfold wfDerivation. rewrite !andb_true_iff. intros [[[[W _] _] _] _].
  by apply (increasingb_spec strcmp).
Qed.

Lemma isFixedOutput_spec d :
  isFixedOutput d = true ->
  exists foh, outputs d = [("out", DerivationOutputFixed foh)].
Proof.
  unfold isFixedOutput. destruct (outputs d) as [|[id o] [|? ?]]; try done.
  simpl. rewrite andb_true_iff, String.eqb_eq. intros [-> Ho].
  destruct o; [done|]. eauto.
Qed.
End FixedOutputs.

(** C1 (as amended).  For every derivation whose maps and sets are in
    key order (the invariant of the C++ containers) and whose fields
    written without escaping -- output names, printed store paths,
    printed hashes, requested output names, platform -- hold neither a
    quote nor a backslash and are read back by the store and the hash
    constructor, parsing [unparse d] (no masking, no substituted inputs)
    under the name of [d] yields [d]. *)
Theorem derivation_round_trip (st : Store) (hl : HashLib) (d : Derivation) :
  wfDerivation d = true ->
  printableDerivation st hl d = true ->
  parseDerivation st hl (unparse st hl d false None) (name d) = Ok d.
Proof.
  intros Hw Hp. rewrite unparse_derivationText. apply parseDerivation_text; try done.
  - intros i acc rest Hi. by apply output_parses, printableDerivation_output.
  - intros i _. unfold printOutput. norm. apply starts_paren.
Qed.

Lemma derivation_round_trip_witness :
  wfDerivation drvS1 = true
  /\ printableDerivation (nixStore []) nixHash drvS1 = true
  /\ parseDerivation (nixStore []) nixHash
       (unparse (nixStore []) nixHash drvS1 false None) (name drvS1) = Ok drvS1.
Proof.
  split; [vm_compute; reflexivity|].
  split; [vm_compute; reflexivity|].
  apply (derivation_round_trip (nixStore []) nixHash drvS1); vm_compute; reflexivity.
Defined.

(** C1 as stated fails: a platform holding a backslash is written as it
    stands, the reader takes the backslash for an escape, and the parsed
    derivation has another platform. *)
Lemma derivation_round_trip_counterexample :
  wfDerivation drvBackslash = true
  /\ parseDerivation (nixStore []) nixHash
       (unparse (nixStore []) nixHash drvBackslash false None) (name drvBackslash)
     = Ok {| outputs := []; inputSrcs := []; platform := "ab"; builder := "/bin/sh";
             args := []; env := []; name := "x"; inputDrvs := [] |}
  /\ parseDerivation (nixStore []) nixHash
       (unparse (nixStore []) nixHash drvBackslash false None) (name drvBackslash)
     <> Ok drvBackslash.
Proof.
  split; [reflexivity|]. split; [vm_compute; reflexivity|].
  vm_compute. discriminate.
Qed.

(** C10.  The output path declared in the text of a fixed output is
    read and dropped: whatever acceptable path text [declared] puts
    there, the text parses to the same derivation [d]; the fixed outputs
    of [d] hold a method and a hash only, and [unparse] and
    [hashDerivationModulo] use the path recomputed by
    [makeFixedOutputPath] from method, hash and derivation name.
    [findOutput] recomputes that path as well, but into a temporary of
    its [return] statement: what the caller gets is a reference to the
    destroyed temporary, and not the path. *)
Theorem fixed_output_path_recomputed (st : Store) (hl : HashLib) (d : Derivation)
    (declared : string -> string) :
  wfDerivation d = true ->
  printableDerivation st hl d = true ->
  (forall id foh, In (id, DerivationOutputFixed foh) (outputs d) ->
     declarable st (declared id) = true) ->
  parseDerivation st hl
    (derivationText st hl (declareOutput st hl (name d) declared) d) (name d) = Ok d
  /\ unparse st hl d false None
     = derivationText st hl (declareOutput st hl (name d) (recomputedPath st d)) d
  /\ (forall id foh, In (id, DerivationOutputFixed foh) (outputs d) ->
        findOutput st d id
        = Ok (Dangling (makeFixedOutputPath st (foh_method foh) (foh_hash foh) (name d))))
  /\ (isFixedOutput d = true ->
      exists foh, outputs d = [("out", DerivationOutputFixed foh)]
        /\ forall fuel drvHashes maskOutputs,
             hashDerivationModulo st hl fuel drvHashes d maskOutputs
             = Ok (hashString hl htSHA256
                     ("fixed:out:" +:+ printMethodAlgo foh +:+ ":"
                      +:+ to_base16 hl (foh_hash foh) +:+ ":"
                      +:+ printStorePath st
                            (makeFixedOutputPath st (foh_method foh) (foh_hash foh)
                               (name d))),
                   drvHashes)).
Proof.
  intros Hw Hp Hd. pose proof (wfDerivation_outputs d Hw) as Hinc.
  repeat split.
  - apply parseDerivation_text; try done.
    + intros [id o] acc rest Hi. apply declared_output_parses.
      * by apply printableDerivation_output.
      * destruct o; [done|]. intros _. by eapply Hd.
    + intros i _. apply declareOutput_starts.
  - rewrite unparse_derivationText. unfold derivationText.
    rewrite (printSeparated_ext (printOutput st hl (name d) false)
               (declareOutput st hl (name d) (recomputedPath st d)) (outputs d)); [done|].
    intros [id o] Hi.
    unfold declareOutput, printOutput, recomputedPath. cbn [fst snd].
    destruct o as [p|foh]; [done|].
    rewrite (map_find_In strcmp _ _ _ Hinc Hi). cbn [DerivationOutput_path].
    by norm.
  - intros id foh Hi. unfold findOutput.
    by rewrite (map_find_In strcmp _ _ _ Hinc Hi).
  - intros Hf. destruct (isFixedOutput_spec d Hf) as [foh Ho]. exists foh.
    split; [done|]. intros fuel memo mask.
    destruct fuel; simpl; rewrite Hf, Ho; done.
Qed.

Lemma fixed_output_path_recomputed_witness :
  wfDerivation drvS1 = true
  /\ printableDerivation (nixStore []) nixHash drvS1 = true
  /\ declarable (nixStore []) bogusPath = true
  /\ parseDerivation (nixStore []) nixHash
       (derivationText (nixStore []) nixHash
          (declareOutput (nixStore []) nixHash (name drvS1) (fun _ => bogusPath)) drvS1)
       (name drvS1) = Ok drvS1
  /\ findOutput (nixStore []) drvS1 "out"
     = Ok (Dangling (makeFixedOutputPath (nixStore []) Flat
                       (hashString nixHash htSHA256 "hi") "hi")).
Proof.
  split; [vm_compute; reflexivity|].
  split; [vm_compute; reflexivity|].
  split; [vm_compute; reflexivity|].
  destruct (fixed_output_path_recomputed (nixStore []) nixHash drvS1 (fun _ => bogusPath))
    as (Hparse & _ & Hfind & _);
    [vm_compute; reflexivity | vm_compute; reflexivity | intros; vm_compute; reflexivity|].
  split; [exact Hparse|].
  apply (Hfind "out" (mkFixedOutputHash Flat (hashString nixHash htSHA256 "hi"))).
  left. reflexivity.
Defined.

(** ** Hashing modulo: the code computes the reference *)

Lemma bind_Ok {A B : Type} (m : result A) (k : A -> result B) (b : B) :
  bind m k = Ok b -> exists a, m = Ok a /\ k a = Ok b.
Proof. destruct m; simpl; [eauto|done]. Qed.

Section Modulo.
Context (st : Store) (hl : HashLib).

Lemma spec_fixedOutput_true d :
  isFixedOutput d = true ->
  exists foh, outputs d = [("out", DerivationOutputFixed foh)]
              /\ spec_fixedOutput d = Some foh.
Proof.
  intros H. destruct (isFixedOutput_spec d H) as [foh Ho]. exists foh.
  split; [done|]. unfold spec_fixedOutput. by rewrite Ho.
Qed.

Lemma spec_fixedOutput_false d :
  isFixedOutput d = false -> spec_fixedOutput d = None.
Proof.
  unfold isFixedOutput, spec_fixedOutput.
  destruct (outputs d) as [|[id [p|foh]] [|? ?]]; simpl; try done.
  rewrite andb_true_r. by intros ->.
Qed.

(** More fuel does not change a result *)
Lemma spec_inputs2_mono (m1 m2 : Derivation -> result Hash) d r :
  (forall d h, m1 d = Ok h -> m2 d = Ok h) ->
  spec_inputs2 st hl m1 d = Ok r -> spec_inputs2 st hl m2 d = Ok r.
Proof.
  intros Hm. unfold spec_inputs2. generalize (@nil (string * StringSet)).
  induction (inputDrvs d) as [|i l IH]; intros acc; simpl; [done|].
  intros H. apply bind_Ok in H as (acc' & H1 & H2).
  apply bind_Ok in H1 as (d' & Hd & H1). apply bind_Ok in H1 as (h & Hh & H1).
  rewrite Hd. cbn [bind]. rewrite (Hm _ _ Hh). cbn [bind].
  injection H1 as <-. by apply IH.
Qed.

Lemma ref_mono fuel : forall fuel' d mask h,
  fuel <= fuel' ->
  ref_hashDerivationModulo st hl fuel d mask = Ok h ->
  ref_hashDerivationModulo st hl fuel' d mask = Ok h.
Proof.
  induction fuel as [|fuel IH]; intros fuel' d mask h Hle H.
  - destruct fuel'; simpl in *; destruct (spec_fixedOutput d); done.
  - destruct fuel' as [|fuel']; [lia|]. simpl in *.
    destruct (spec_fixedOutput d); [done|].
    apply bind_Ok in H as (r & Hr & H).
    erewrite (spec_inputs2_mono _ (fun d => ref_hashDerivationModulo st hl fuel' d false));
      [done| |exact Hr].
    intros d' h' Hd'. apply (IH fuel'); [lia|done].
Qed.

Lemma spec_hashOfPath_fun f1 f2 p h1 h2 :
  spec_hashOfPath st hl f1 p = Ok h1 -> spec_hashOfPath st hl f2 p = Ok h2 -> h1 = h2.
Proof.
  unfold spec_hashOfPath, spec_hashDerivationModulo.
  destruct (readDerivation st hl p) as [d|]; [|done]. cbn [bind]. intros H1 H2.
  apply (ref_mono _ (f1 `max` f2)) in H1; [|lia].
  apply (ref_mono _ (f1 `max` f2)) in H2; [|lia]. congruence.
Qed.

Lemma drvHashes_ok_insert memo p h fuel :
  drvHashes_ok st hl memo -> spec_hashOfPath st hl fuel p = Ok h ->
  drvHashes_ok st hl (<[p := h]> memo).
Proof.
  intros Hm Hp q hq. rewrite lookup_insert. case_decide as E.
  - intros [= <-]. subst. eauto.
  - apply Hm.
Qed.

(** An input whose key is not yet there goes where
    [insert_or_assign] puts it *)
Lemma spec_addInput_fresh k ids (inputs2 : list (string * StringSet)) :
  ~ In k (map fst inputs2) ->
  spec_addInput k ids inputs2 = map_insert_or_assign strcmp k ids inputs2.
Proof.
  induction inputs2 as [|[k' ids'] m IH]; simpl; [done|]. intros Hk.
  destruct (strcmp k k') eqn:E.
  - exfalso. apply Hk. left. symmetry. by apply (cmp_eq (cmp := strcmp)).
  - done.
  - rewrite IH; [done|]. intros Hin. apply Hk. by right.
Qed.

Lemma keys_spec_addInput k0 ids (inputs2 : list (string * StringSet)) k :
  In k (map fst (spec_addInput k0 ids inputs2)) -> k = k0 \/ In k (map fst inputs2).
Proof.
  induction inputs2 as [|[k' ids'] m IH]; simpl.
  - intros [<-|[]]. by left.
  - destruct (strcmp k0 k'); [destruct (idscmp ids ids')|..]; simpl;
      try (intros [<-|[<-|H]]; [by left|right; by left|right; by right]);
      (intros [<-|H]; [right; by left|]; destruct (IH H); [by left|right; by right]).
Qed.

Lemma distinct_cons x (l : list string) :
  distinct (x :: l) = true -> ~ In x l /\ distinct l = true.
Proof.
  simpl. intros [Hx Hl]%andb_prop. split; [|done]. intros Hin.
  apply negb_true_iff in Hx.
  assert (existsb (String.eqb x) l = true) as E; [|congruence].
  apply existsb_exists. exists x. split; [done|apply String.eqb_refl].
Qed.

Lemma keyOf_hash fuel p d h :
  readDerivation st hl p = Ok d ->
  ref_hashDerivationModulo st hl fuel d false = Ok h ->
  keyOf st hl fuel p = to_base16 hl h.
Proof.
  intros Hd Hh. unfold keyOf, inputKey, spec_hashOfPath, spec_hashDerivationModulo.
  by rewrite Hd; cbn [bind]; rewrite Hh.
Qed.

(** The code computes the reference whenever the reference is
    defined and no two inputs of a derivation come under one key,
    whatever consistent memo table it starts from *)
Lemma hashDerivationModulo_ref fuel : forall memo d mask h,
  readable_valid st hl ->
  drvHashes_ok st hl memo ->
  distinctInputs st hl fuel d = true ->
  ref_hashDerivationModulo st hl fuel d mask = Ok h ->
  exists memo',
    hashDerivationModulo st hl fuel memo d mask = Ok (h, memo')
    /\ drvHashes_ok st hl memo'.
Proof.
  induction fuel as [|fuel IH]; intros memo d mask h Hv Hm Hdi H.
  - simpl in *. destruct (isFixedOutput d) eqn:Hf.
    + destruct (spec_fixedOutput_true d Hf) as (foh & Ho & Hs).
      rewrite Hs in H. injection H as <-. rewrite Ho. simpl. eauto.
    + by rewrite (spec_fixedOutput_false d Hf) in H.
  - simpl in *. destruct (isFixedOutput d) eqn:Hf.
    + destruct (spec_fixedOutput_true d Hf) as (foh & Ho & Hs).
      rewrite Hs in H. injection H as <-. rewrite Ho. simpl. eauto.
    + rewrite (spec_fixedOutput_false d Hf) in H, Hdi.
      apply andb_prop in Hdi as [Hk Hsub].
      apply bind_Ok in H as (r & Hr & H). injection H as <-.
      enough (exists memo',
        foldM
          (fun '(inputs2, drvHashes) (i : StorePath * StringSet) =>
             let* (h, drvHashes) :=
               match drvHashes !! fst i with
               | Some h => Ok (h, drvHashes)
               | None =>
                   if negb (isValidPath st (fst i))
                   then Raise (AssertionFailed "store.isValidPath(i.first)")
                   else
                     let* d := readDerivation st hl (fst i) in
                     let* (h, drvHashes) :=
                       hashDerivationModulo st hl fuel drvHashes d false in
                     Ok (h, <[fst i := h]> drvHashes)
               end in
             Ok (map_insert_or_assign strcmp (to_base16 hl h) (snd i) inputs2,
                 drvHashes))
          (inputDrvs d) ([], memo) = Ok (r, memo') /\ drvHashes_ok st hl memo')
        as (memo' & -> & Hm'); [by exists memo'|].
      assert (forall i, In i (inputDrvs d) ->
                ~ In (keyOf st hl fuel (fst i)) (map fst (@nil (string * StringSet))))
        as Hacc by (intros i _ []).
      revert Hr Hm Hk Hsub Hacc. unfold spec_inputs2.
      generalize (@nil (string * StringSet)). revert memo.
      induction (inputDrvs d) as [|i l IHl]; intros memo acc Hr Hm Hk Hsub Hacc;
        simpl in *.
      { injection Hr as <-. eauto. }
      apply bind_Ok in Hr as (acc' & H1 & Hr).
      apply bind_Ok in H1 as (d' & Hd & H1). apply bind_Ok in H1 as (h & Hh & H1).
      injection H1 as <-.
      apply andb_prop in Hsub as [Hsub1 Hsub]. rewrite Hd in Hsub1.
      pose proof (keyOf_hash fuel (fst i) d' h Hd Hh) as Hkey.
      apply distinct_cons in Hk as [Hfresh Hk]. rewrite Hkey in Hfresh.
      rewrite spec_addInput_fresh in Hr
        by (rewrite <- Hkey; apply Hacc; by left).
      assert (forall j, In j l ->
                ~ In (keyOf st hl fuel (fst j))
                     (map fst (map_insert_or_assign strcmp (to_base16 hl h) (snd i) acc)))
        as Hacc'.
      { intros j Hj Hin.
        rewrite <- spec_addInput_fresh in Hin
          by (rewrite <- Hkey; apply Hacc; by left).
        apply keys_spec_addInput in Hin as [E|Hin].
        - apply Hfresh. rewrite <- E. apply in_map_iff. by exists j.
        - apply (Hacc j); [by right|done]. }
      destruct (memo !! fst i) as [h0|] eqn:Hl.
      * cbn [bind]. destruct (Hm _ _ Hl) as [f0 Hf0].
        assert (h0 = h) as ->.
        { eapply (spec_hashOfPath_fun f0 fuel); [done|].
          unfold spec_hashOfPath. by rewrite Hd. }
        by apply IHl.
      * rewrite (Hv _ _ Hd). cbn [negb]. rewrite Hd. cbn [bind].
        destruct (IH memo d' false h Hv Hm Hsub1 Hh) as (memo1 & -> & Hm1). cbn [bind].
        apply IHl; [done| |done..]. apply (drvHashes_ok_insert _ _ _ fuel); [done|].
        unfold spec_hashOfPath. by rewrite Hd.
Qed.
End Modulo.

(** ** Maps built by insert_or_assign *)

Section MapFacts.
Context {K V : Type} (cmp : K -> K -> comparison) `{!CmpOk cmp}.
Implicit Types m : list (K * V).

Lemma keys_insert_or_assign m k v :
  map fst (map_insert_or_assign cmp k v m) = set_insert cmp k (map fst m).
Proof.
  induction m as [|[k' v'] m IH]; simpl; [done|].
  destruct (cmp k k'); simpl; [done|done|by rewrite IH].
Qed.

Lemma increasing_insert_or_assign m k v :
  increasing cmp (map fst m) -> increasing cmp (map fst (map_insert_or_assign cmp k v m)).
Proof. rewrite keys_insert_or_assign. by apply increasing_set_insert. Qed.

Lemma increasing_head_ne k' (ks : list K) k :
  Forall (fun y => cmp k' y = Lt) ks -> In k ks -> k <> k'.
Proof.
  rewrite List.Forall_forall. intros H Hin ->.
  by apply (increasing_lt_irrefl cmp k'), H.
Qed.

Lemma In_insert_or_assign m k0 v0 k v :
  increasing cmp (map fst m) ->
  In (k, v) (map_insert_or_assign cmp k0 v0 m)
  <-> (k = k0 /\ v = v0) \/ (k <> k0 /\ In (k, v) m).
Proof.
  induction m as [|[k' v'] m IH]; simpl.
  - intros _. split; [intros [[= <- <-]|[]]; by left|intros [[-> ->]|[_ []]]; by left].
  - intros [Hk Hm]. destruct (cmp k0 k') eqn:E; simpl.
    + apply cmp_eq in E as ->. split.
      * intros [[= <- <-]|Hin]; [by left|]. right. split; [|by right].
        eapply increasing_head_ne; [exact Hk|]. apply in_map_iff. by exists (k, v).
      * intros [[-> ->]|[Hne [[= <- <-]|Hin]]]; [by left|done|by right].
    + split.
      * intros [[= <- <-]|[[= <- <-]|Hin]]; [by left| |].
        -- right. split; [|by left]. intros ->. by apply (increasing_lt_irrefl cmp k0).
        -- right. split; [|by right]. intros ->.
           rewrite List.Forall_forall in Hk.
           apply (increasing_lt_irrefl cmp k0). eapply cmp_trans; [exact E|].
           apply Hk, in_map_iff. by exists (k0, v).
      * intros [[-> ->]|[Hne Hin]]; [by left|by right].
    + rewrite (IH Hm). split.
      * intros [[= <- <-]|[?|[? ?]]]; [|by left|].
        -- right. split; [|by left]. intros ->. apply cmp_gt in E.
           by apply (increasing_lt_irrefl cmp k0).
        -- right. split; [done|by right].
      * intros [?|[Hne [[= <- <-]|Hin]]]; [right; by left|by left|].
        right. right. done.
Qed.
End MapFacts.

(** ** Hashing modulo: masking and substitution of inputs *)

Lemma nixStore_readable_valid files : readable_valid (nixStore files) nixHash.
Proof.
  intros p d. unfold readDerivation. simpl.
  destruct (assoc _ files); [done|]. simpl. done.
Qed.

Lemma drvHashes_ok_empty st hl : drvHashes_ok st hl ∅.
Proof. intros p h. by rewrite lookup_empty. Qed.

(** C2 (as amended).  Let the memo table hold, at each of its keys, the
    modulo-hash of the derivation stored there; let every derivation
    that can be read be at a valid path; and let no derivation, among
    [drv] and those it depends on, have two input derivations with the
    same modulo-hash.  Then [hashDerivationModulo] returns the reference
    value whenever the reference is defined: SHA-256 of the [fixed:out:]
    text for a fixed-output derivation, and otherwise SHA-256 of
    [unparse drv maskOutputs inputs2] with the masking flag the caller
    passed, where [inputs2] has the entry of each input under the hex
    form of its modulo-hash, itself computed without masking.  For
    [maskOutputs = false] this is the definition of the specification. *)
Theorem hashDerivationModulo_reference (st : Store) (hl : HashLib) (fuel : nat)
    (drvHashes : DrvHashes) (drv : Derivation) (maskOutputs : bool) (h : Hash) :
  readable_valid st hl ->
  drvHashes_ok st hl drvHashes ->
  distinctInputs st hl fuel drv = true ->
  ref_hashDerivationModulo st hl fuel drv maskOutputs = Ok h ->
  (exists drvHashes',
     hashDerivationModulo st hl fuel drvHashes drv maskOutputs = Ok (h, drvHashes')
     /\ drvHashes_ok st hl drvHashes')
  /\ (maskOutputs = false -> spec_hashDerivationModulo st hl fuel drv = Ok h).
Proof.
  intros Hv Hm Hd Hr. split.
  - by apply hashDerivationModulo_ref.
  - by intros ->.
Qed.

Lemma hashDerivationModulo_reference_witness :
  let h :=
    hashString nixHash htSHA256
      (unparse exampleStore nixHash drvC true
         (Some [("0bea67e3bed7d1522f0af30e8fed7662a0910862c3c27517f6821519717c2aa1",
                 ["dev"; "out"])])) in
  readable_valid exampleStore nixHash
  /\ drvHashes_ok exampleStore nixHash ∅
  /\ distinctInputs exampleStore nixHash 2 drvC = true
  /\ ref_hashDerivationModulo exampleStore nixHash 2 drvC true = Ok h
  /\ (exists drvHashes',
        hashDerivationModulo exampleStore nixHash 2 ∅ drvC true = Ok (h, drvHashes')
        /\ drvHashes_ok exampleStore nixHash drvHashes')
  /\ to_base16 nixHash h
     = "b73083bf80d72d004fa6e0d65c7c9035b4f0ade47727cef430085224f1cf6b71".
Proof.
  intros h.
  split; [apply nixStore_readable_valid|].
  split; [apply drvHashes_ok_empty|].
  split; [vm_compute; reflexivity|].
  split; [vm_compute; reflexivity|].
  split; [|vm_compute; reflexivity].
  apply (hashDerivationModulo_reference exampleStore nixHash 2 ∅ drvC true h).
  - apply nixStore_readable_valid.
  - apply drvHashes_ok_empty.
  - vm_compute; reflexivity.
  - vm_compute; reflexivity.
Defined.

(** C2 as stated fails for [maskOutputs = true]: the code hashes the
    text with the output paths blanked, the specification the text
    without masking.  It fails as well where an input derivation can be
    read but is not a valid path: the reference has a value, and the
    code stops at its assertion. *)
Lemma hashDerivationModulo_reference_counterexample :
  hexOf (resultHash (hashDerivationModulo (nixStore []) nixHash 1 ∅ drvHello true))
  = Ok "b2632a82adfc4c8519036723ec3e64841c4994a7f5a07a917912d842c9e4065e"
  /\ hexOf (spec_hashDerivationModulo (nixStore []) nixHash 1 drvHello)
     = Ok "8c036a4536d904315bde4c4bc56f096218a53ae8440568d511652f902cfdd605"
  /\ resultHash (hashDerivationModulo (nixStore []) nixHash 1 ∅ drvHello true)
     <> spec_hashDerivationModulo (nixStore []) nixHash 1 drvHello
  /\ hexOf (spec_hashDerivationModulo unregisteredStore nixHash 2 drvC)
     = Ok "e6e86dc5560e287a03a4228c7e0e9fb0b45c0246e1ddb8bfe37f355496cb945e"
  /\ hashDerivationModulo unregisteredStore nixHash 2 ∅ drvC false
     = Raise (AssertionFailed "store.isValidPath(i.first)").
Proof.
  split; [vm_compute; reflexivity|]. split; [vm_compute; reflexivity|].
  split; [vm_compute; discriminate|].
  split; vm_compute; reflexivity.
Qed.

(** C3.  The code at the input where the claim fails.  The three builds
    of the library at [pathB1], [pathB2] and [pathB3] have the same
    modulo-hash.  [drvA] takes [out] from the first and [dev] from the
    second; [drvA'] is [drvA] with the first replaced by the third.
    The reference gives the two the same hash.  In the code the two
    inputs come under one key of [inputs2], and the entry of the input
    that is first in path order is overwritten by that of the second:
    [drvA] is hashed as if [pathB2] were its only input, [drvA'] as if
    [pathB3] were, and the two hashes differ. *)
Theorem hashDerivationModulo_equal_keys :
  readDerivation exampleStore nixHash pathB1 = Ok (drvLib pathF1)
  /\ readDerivation exampleStore nixHash pathB2 = Ok (drvLib pathF2)
  /\ readDerivation exampleStore nixHash pathB3 = Ok (drvLib pathF2)
  /\ hexOf (resultHash (hashDerivationModulo exampleStore nixHash 1 ∅ (drvLib pathF1) false))
     = Ok "0bea67e3bed7d1522f0af30e8fed7662a0910862c3c27517f6821519717c2aa1"
  /\ hexOf (resultHash (hashDerivationModulo exampleStore nixHash 1 ∅ (drvLib pathF2) false))
     = Ok "0bea67e3bed7d1522f0af30e8fed7662a0910862c3c27517f6821519717c2aa1"
  /\ wfDerivation drvA = true /\ wfDerivation drvA' = true
  /\ drvA' = with_inputDrvs [(pathB2, ["dev"]); (pathB3, ["out"])] drvA
  /\ is_Ok (spec_hashDerivationModulo exampleStore nixHash 2 drvA) = true
  /\ spec_hashDerivationModulo exampleStore nixHash 2 drvA
     = spec_hashDerivationModulo exampleStore nixHash 2 drvA'
  /\ hexOf (resultHash (hashDerivationModulo exampleStore nixHash 2 ∅ drvA false))
     = Ok "73ff72e3f2990245f59b12c7a79bfd0bed43106f5bf06e23024076b4e3ad5ebc"
  /\ hexOf (resultHash (hashDerivationModulo exampleStore nixHash 2 ∅ drvA' false))
     = Ok "0913d42332f05f2ba4c8947634fe819a4a81cf6cbd39c7418f2b2f7116dc5fdf"
  /\ resultHash (hashDerivationModulo exampleStore nixHash 2 ∅ drvA false)
     <> resultHash (hashDerivationModulo exampleStore nixHash 2 ∅ drvA' false)
  /\ resultHash (hashDerivationModulo exampleStore nixHash 2 ∅ drvA false)
     = resultHash (hashDerivationModulo exampleStore nixHash 2 ∅
                     (drvApp [(pathB2, ["dev"])]) false)
  /\ resultHash (hashDerivationModulo exampleStore nixHash 2 ∅ drvA' false)
     = resultHash (hashDerivationModulo exampleStore nixHash 2 ∅
                     (drvApp [(pathB3, ["out"])]) false).
Proof.
  repeat split; try (vm_compute; reflexivity).
  vm_compute. discriminate.
Qed.

(** ** Strings and lists of strings *)

Lemma escape_no_control s :
  string_forall (fun c => negb (Ascii.eqb c LF) && negb (Ascii.eqb c CR)
                          && negb (Ascii.eqb c TAB)) (escape s) = true.
Proof.
  induction s as [|c s IH]; [done|]. cbn [escape].
  destruct (Ascii.eqb c dquote) eqn:E1.
  { apply Ascii.eqb_eq in E1 as ->. cbn [orb string_forall]. by rewrite IH. }
  destruct (Ascii.eqb c backslash) eqn:E2.
  { apply Ascii.eqb_eq in E2 as ->. cbn [orb string_forall]. by rewrite IH. }
  cbn [orb].
  destruct (Ascii.eqb c LF) eqn:E3; [cbn [string_forall]; by rewrite IH|].
  destruct (Ascii.eqb c CR) eqn:E4; [cbn [string_forall]; by rewrite IH|].
  destruct (Ascii.eqb c TAB) eqn:E5; [cbn [string_forall]; by rewrite IH|].
  cbn [string_forall]. by rewrite E3, E4, E5, IH.
Qed.

Lemma string_forall_app P a b :
  string_forall P (a +:+ b) = string_forall P a && string_forall P b.
Proof.
  induction a as [|c a IH]; [done|]. rewrite sapp_cons. cbn [string_forall].
  by rewrite IH, andb_assoc.
Qed.

(** X1.  What [printString] writes, [parseString] reads back, whatever
    the string holds and whatever follows it in the stream; and the
    written form holds no raw newline, carriage return or tab. *)
Theorem printString_round_trip (s rest : string) :
  parseString (printString s +:+ rest) = Ok (s, rest)
  /\ string_forall (fun c => negb (Ascii.eqb c LF) && negb (Ascii.eqb c CR)
                             && negb (Ascii.eqb c TAB)) (printString s) = true.
Proof.
  split.
  - unfold parseString, printString.
    rewrite !sapp_assoc, expect_app. cbn [bind]. apply parseStringBody_escape.
  - unfold printString. rewrite !string_forall_app, escape_no_control. done.
Qed.







(** X3.  [parseStrings], called as in [parseDerivation] after the
    opening bracket, reads a list written in any order and with
    repetitions into a set: the result is strictly increasing and holds
    exactly the strings of the list. *)
Theorem parseStrings_sorts (l : list string) (rest : string) :
  forallb plain l = true ->
  exists res,
    (let* str := expect "[" (printUnquotedStrings l +:+ rest) in
     parseStrings str false) = Ok (res, rest)
    /\ increasing strcmp res
    /\ forall s, In s res <-> In s l.
Proof.
  intros Hp. exists (set_insert_all strcmp l []). split; [|split].
  - unfold parseStrings, printUnquotedStrings. norm. eat.
    rewrite (whileNotEndOfList_printed _ printUnquotedString
               (fun res s => set_insert strcmp s res)).
    + done.
    + rewrite List.forallb_forall in Hp. apply List.Forall_forall. intros x Hx acc r.
      by rewrite parseString_unquoted by auto.
    + apply List.Forall_forall. intros x _. apply printUnquotedString_starts.
  - by apply (increasing_set_insert_all strcmp).
  - intros s. rewrite (In_set_insert_all strcmp). simpl. tauto.
Qed.

Lemma parseStrings_sorts_witness :
  forallb plain ["out"; "dev"; "out"] = true
  /\ exists res,
       (let* str := expect "[" (printUnquotedStrings ["out"; "dev"; "out"] +:+ ")") in
        parseStrings str false) = Ok (res, ")")
       /\ increasing strcmp res
       /\ forall s, In s res <-> In s ["out"; "dev"; "out"].
Proof.
  split; [reflexivity|].
  apply (parseStrings_sorts ["out"; "dev"; "out"] ")"). reflexivity.
Defined.

(** ** Lookup in the ordered containers *)

Section Lookup.
Context {K V : Type} (cmp : K -> K -> comparison) `{!CmpOk cmp}.
Implicit Types m : list (K * V).

Lemma keys_emplace m k v :
  map fst (map_emplace cmp k v m) = set_insert cmp k (map fst m).
Proof.
  induction m as [|[k' v'] m IH]; simpl; [done|].
  destruct (cmp k k'); simpl; [done|done|by rewrite IH].
Qed.

Lemma increasing_emplace m k v :
  increasing cmp (map fst m) -> increasing cmp (map fst (map_emplace cmp k v m)).
Proof. rewrite keys_emplace. by apply increasing_set_insert. Qed.

Lemma map_find_below m k :
  Forall (fun y => cmp k y = Lt) (map fst m) -> map_find cmp k m = None.
Proof.
  induction m as [|[k' v'] m IH]; simpl; [done|].
  intros H; inversion H as [|? ? Hk Hm]; subst. rewrite Hk. by apply IH.
Qed.

Lemma map_find_Some m k v : map_find cmp k m = Some v -> In (k, v) m.
Proof.
  induction m as [|[k' v'] m IH]; simpl; [done|].
  destruct (cmp k k') eqn:E; [|by right; apply IH..].
  apply cmp_eq in E as ->. intros [= ->]. by left.
Qed.

Lemma map_find_None m k : map_find cmp k m = None <-> ~ In k (map fst m).
Proof.
  induction m as [|[k' v'] m IH]; simpl; [tauto|].
  destruct (cmp k k') eqn:E.
  - apply cmp_eq in E as ->. split; [done|]. intros H; exfalso; apply H; by left.
  - rewrite IH. split; [|tauto]. intros H [->|?]; [|tauto].
    by rewrite (cmp_refl cmp) in E.
  - rewrite IH. split; [|tauto]. intros H [->|?]; [|tauto].
    by rewrite (cmp_refl cmp) in E.
Qed.

Lemma Forall_lt_trans (ks : list K) a b :
  cmp a b = Lt -> Forall (fun y => cmp b y = Lt) ks -> Forall (fun y => cmp a y = Lt) ks.
Proof.
  intros Hab H. eapply Forall_impl; [exact H|]. intros y Hy. simpl in *.
  by apply (cmp_trans a b y).
Qed.

Lemma map_find_emplace m k k' v' :
  increasing cmp (map fst m) ->
  map_find cmp k (map_emplace cmp k' v' m)
  = match map_find cmp k m with
    | Some v => Some v
    | None => match cmp k k' with Eq => Some v' | _ => None end
    end.
Proof.
  induction m as [|[k2 v2] m IH]; simpl; [done|].
  intros [Hk Hm]. destruct (cmp k' k2) eqn:E; simpl.
  - apply cmp_eq in E as ->. destruct (cmp k k2) eqn:E2; [done|..].
    + destruct (map_find cmp k m); done.
    + destruct (map_find cmp k m); done.
  - destruct (cmp k k') eqn:E1.
    + apply cmp_eq in E1 as ->. rewrite E.
      rewrite map_find_below; [done|]. by apply (Forall_lt_trans _ k' k2).
    + destruct (cmp k k2); [done|..]; by destruct (map_find cmp k m).
    + destruct (cmp k k2); [done|..]; by destruct (map_find cmp k m).
  - destruct (cmp k k2); [done|..]; by apply IH.
Qed.

Lemma map_find_insert_or_assign m k k' v' :
  increasing cmp (map fst m) ->
  map_find cmp k (map_insert_or_assign cmp k' v' m)
  = match cmp k k' with Eq => Some v' | _ => map_find cmp k m end.
Proof.
  induction m as [|[k2 v2] m IH]; simpl; [done|].
  intros [Hk Hm]. destruct (cmp k' k2) eqn:E; simpl.
  - apply cmp_eq in E as ->. by destruct (cmp k k2).
  - by destruct (cmp k k') eqn:E1.
  - destruct (cmp k k2) eqn:E2.
    + apply cmp_eq in E2 as ->. apply cmp_gt in E.
      destruct (cmp k2 k') eqn:E3; try done.
    + rewrite IH by done. done.
    + rewrite IH by done. done.
Qed.

Lemma firstBinding_app (l1 l2 : list (K * V)) k :
  firstBinding cmp k (l1 ++ l2)
  = match firstBinding cmp k l1 with
    | Some v => Some v
    | None => firstBinding cmp k l2
    end.
Proof.
  induction l1 as [|[k' v'] l1 IH]; simpl; [done|]. by destruct (cmp k k').
Qed.

Lemma lastBinding_cons (l : list (K * V)) k k' v' :
  lastBinding cmp k ((k', v') :: l)
  = match lastBinding cmp k l with
    | Some v => Some v
    | None => match cmp k k' with Eq => Some v' | _ => None end
    end.
Proof.
  unfold lastBinding. simpl. rewrite firstBinding_app. simpl.
  by destruct (cmp k k').
Qed.

Lemma fold_emplace_increasing_keys (l : list (K * V)) : forall acc,
  increasing cmp (map fst acc) ->
  increasing cmp
    (map fst (fold_left (fun acc kv => map_emplace cmp (fst kv) (snd kv) acc) l acc)).
Proof.
  induction l as [|[k v] l IH]; intros acc H; simpl; [done|].
  by apply IH, increasing_emplace.
Qed.

Lemma fold_insert_increasing_keys {A : Type} (f : A -> K * V) (l : list A) : forall acc,
  increasing cmp (map fst acc) ->
  increasing cmp
    (map fst (fold_left (fun acc a => map_insert_or_assign cmp (fst (f a)) (snd (f a)) acc)
                        l acc)).
Proof.
  induction l as [|a l IH]; intros acc H; simpl; [done|].
  by apply IH, increasing_insert_or_assign.
Qed.

Lemma map_find_fold_emplace (l : list (K * V)) k : forall acc,
  increasing cmp (map fst acc) ->
  map_find cmp k (fold_left (fun acc kv => map_emplace cmp (fst kv) (snd kv) acc) l acc)
  = match map_find cmp k acc with
    | Some v => Some v
    | None => firstBinding cmp k l
    end.
Proof.
  induction l as [|[k' v'] l IH]; intros acc H; simpl.
  - by destruct (map_find cmp k acc).
  - rewrite IH by (by apply increasing_emplace).
    rewrite map_find_emplace by done.
    destruct (map_find cmp k acc); [done|]. by destruct (cmp k k').
Qed.

Lemma map_find_fold_insert {A : Type} (f : A -> K * V) (l : list A) k : forall acc,
  increasing cmp (map fst acc) ->
  map_find cmp k
    (fold_left (fun acc a => map_insert_or_assign cmp (fst (f a)) (snd (f a)) acc) l acc)
  = match lastBinding cmp k (map f l) with
    | Some v => Some v
    | None => map_find cmp k acc
    end.
Proof.
  induction l as [|a l IH]; intros acc H; simpl; [done|].
  rewrite IH by (by apply increasing_insert_or_assign).
  destruct (f a) as [k' v'] eqn:Ef. rewrite lastBinding_cons. cbn [fst snd].
  destruct (lastBinding cmp k (map f l)); [done|].
  rewrite map_find_insert_or_assign by done. by destruct (cmp k k').
Qed.

Lemma In_fold_insert_value {A : Type} (f : A -> K * V) (l : list A) : forall acc kv,
  increasing cmp (map fst acc) ->
  In kv (fold_left (fun acc a => map_insert_or_assign cmp (fst (f a)) (snd (f a)) acc) l acc)
  -> In kv acc \/ In kv (map f l).
Proof.
  induction l as [|a l IH]; intros acc kv H; simpl; [tauto|].
  intros Hin. apply IH in Hin; [|by apply increasing_insert_or_assign].
  destruct Hin as [Hin|Hin]; [|tauto]. destruct kv as [k v].
  apply In_insert_or_assign in Hin; [|done..].
  destruct Hin as [[-> ->]|[_ Hin]]; [|tauto].
  right. left. by destruct (f a).
Qed.
End Lookup.

(** ** Texts with entries in any order *)

Section Normalise.
Context (st : Store) (hl : HashLib).

Lemma parseStrings_any (l : list string) rest :
  forallb plain l = true ->
  parseStrings (printSeparated printUnquotedString true l +:+ String "]" rest) false
  = Ok (set_insert_all strcmp l [], rest).
Proof.
  intros Hp. unfold parseStrings.
  rewrite (whileNotEndOfList_printed _ printUnquotedString
             (fun res s => set_insert strcmp s res)).
  - done.
  - rewrite List.forallb_forall in Hp. apply List.Forall_forall. intros x Hx acc r.
    by rewrite parseString_unquoted by auto.
  - apply List.Forall_forall. intros x _. apply printUnquotedString_starts.
Qed.

Lemma input_parses_any (i : StorePath * StringSet) acc rest :
  inputRoundTrips st i = true ->
  (let* str := expect "(" (printInput (printStorePath st (fst i), snd i) +:+ rest) in
   let* (drvPath, str) := parsePath str in
   let* str := expect ",[" str in
   let* p := parseStorePath st drvPath in
   let* (ids, str) := parseStrings str false in
   let* str := expect ")" str in
   Ok (map_insert_or_assign pathcmp p ids acc, str))
  = Ok (map_insert_or_assign pathcmp (fst i) (set_insert_all strcmp (snd i) []) acc, rest).
Proof.
  unfold inputRoundTrips. rewrite andb_true_iff. intros [Hp Hids].
  apply pathRoundTrips_spec in Hp as (Hp1 & Hp2 & Hp3).
  unfold printInput, printUnquotedStrings. cbn [fst snd]. norm. eat.
  rewrite parsePath_unquoted by done. cbn [bind]. eat.
  rewrite Hp3. cbn [bind].
  rewrite parseStrings_any by done. cbn [bind]. eat. done.
Qed.

Lemma parseStorePathSet_any (srcs : StorePathSet) :
  forallb (pathRoundTrips st) srcs = true ->
  parseStorePathSet st (printStorePathSet st srcs) = Ok (set_insert_all pathcmp srcs []).
Proof.
  intros Hp. rewrite List.forallb_forall in Hp.
  destruct (printStorePathSet_spec st srcs) as [Hi Hin].
  set (g := fun s => match parseStorePath st s with Ok p => p | Raise _ => mkStorePath "" end).
  unfold parseStorePathSet.
  rewrite (foldM_ok _ (fun res i => set_insert pathcmp (g i) res)).
  - f_equal. rewrite fold_insert_map.
    apply (increasing_unique pathcmp).
    + by apply (increasing_set_insert_all pathcmp).
    + by apply (increasing_set_insert_all pathcmp).
    + intros x. rewrite !(In_set_insert_all pathcmp), in_map_iff. simpl.
      split.
      * intros [(s & <- & Hs)|[]]. apply Hin in Hs as (p & Hp' & ->).
        unfold g. destruct (pathRoundTrips_spec st p (Hp p Hp')) as (_ & _ & ->).
        by left.
      * intros [Hx|[]]. left. exists (printStorePath st x). split.
        -- unfold g. destruct (pathRoundTrips_spec st x (Hp x Hx)) as (_ & _ & ->).
           done.
        -- apply Hin. eauto.
  - intros s res Hs. apply Hin in Hs as (p & Hp' & ->).
    unfold g. apply Hp, pathRoundTrips_spec in Hp' as (_ & _ & ->). done.
Qed.

(** The text of any list of entries is read into the containers that
    the insertions of the reader build *)
Lemma parseDerivation_unparse_any (d : Derivation) :
  printableDerivation st hl d = true ->
  parseDerivation st hl (unparse st hl d false None) (name d) = Ok (normalise d).
Proof.
  intros Hpr. pose proof Hpr as Hpr'. revert Hpr.
  unfold printableDerivation. rewrite !andb_true_iff.
  intros [[[P1 P2] P3] P4].
  rewrite List.forallb_forall in P1, P2.
  unfold unparse, parseDerivation. unfold printUnquotedStrings, printStrings.
  norm. eat.
  (* outputs *)
  rewrite (whileNotEndOfList_printed _ (printOutput st hl (name d) false)
             (fun outs i => map_emplace strcmp (fst i) (snd i) outs)); cycle 1.
  { apply List.Forall_forall. intros i Hi acc rest. by apply output_parses, P1. }
  { apply List.Forall_forall. intros i Hi. unfold printOutput. norm. apply starts_paren. }
  cbn [bind]. eat.
  (* input derivations *)
  rewrite (whileNotEndOfList_printed _
             (fun i => printInput (printStorePath st (fst i), snd i))
             (fun ins i => map_insert_or_assign pathcmp (fst i)
                             (set_insert_all strcmp (snd i) []) ins)); cycle 1.
  { apply List.Forall_forall. intros i Hi acc rest. apply input_parses_any. by apply P2. }
  { apply List.Forall_forall. intros i _. unfold printInput. norm. apply starts_paren. }
  cbn [bind]. eat.
  (* input sources *)
  rewrite parsePaths_printed;
    [|by apply printedPaths_plain|apply printStorePathSet_spec].
  cbn [bind]. rewrite parseStorePathSet_any by done. cbn [bind].
  eat. rewrite parseString_unquoted by done. cbn [bind].
  eat. rewrite parseString_quoted. cbn [bind].
  eat.
  (* arguments *)
  rewrite (whileNotEndOfList_printed _ printString (fun args a => args ++ [a])); cycle 1.
  { apply List.Forall_forall. intros a _ acc rest. by rewrite parseString_quoted. }
  { apply List.Forall_forall. intros a _. apply printString_starts. }
  cbn [bind]. rewrite fold_left_snoc. cbn [app].
  eat.
  (* environment *)
  rewrite (whileNotEndOfList_printed _ (printEnvPair (outputs d) false)
             (fun env i => map_insert_or_assign strcmp (fst i) (snd i) env)); cycle 1.
  { apply List.Forall_forall. intros i _ acc rest. apply envPair_parses. }
  { apply List.Forall_forall. intros i _. unfold printEnvPair. norm. apply starts_paren. }
  cbn [bind]. eat. done.
Qed.

Lemma normalise_wf (d : Derivation) : wfDerivation (normalise d) = true.
Proof.
  unfold wfDerivation, normalise. cbn [outputs inputDrvs inputSrcs env].
  rewrite !andb_true_iff. repeat split.
  - apply (increasingb_spec strcmp). by apply (fold_emplace_increasing_keys strcmp).
  - apply (increasingb_spec pathcmp).
    by apply (fold_insert_increasing_keys pathcmp
                (fun i : StorePath * StringSet => (fst i, set_insert_all strcmp (snd i) []))).
  - apply List.forallb_forall. intros ids Hids. apply in_map_iff in Hids as ([p ids'] & <- & Hin).
    apply (In_fold_insert_value pathcmp
             (fun i : StorePath * StringSet => (fst i, set_insert_all strcmp (snd i) [])))
      in Hin; [|done].
    destruct Hin as [[]|Hin]. apply in_map_iff in Hin as (i & [= <- <-] & _).
    apply (increasingb_spec strcmp). by apply (increasing_set_insert_all strcmp).
  - apply (increasingb_spec pathcmp). by apply (increasing_set_insert_all pathcmp).
  - apply (increasingb_spec strcmp).
    by apply (fold_insert_increasing_keys strcmp (fun i : string * string => i)).
Qed.
End Normalise.

(** X4.  [parseDerivation] accepts a text whose lists are in any order
    and repeat keys, and reads it into a derivation whose containers
    are in order.  Of two output entries with the same name the first is
    kept ([emplace]); of two environment entries or input derivations
    with the same key the last is kept ([insert_or_assign], [operator[]]);
    the requested outputs and the input sources become sets. *)
Theorem parseDerivation_normalises (st : Store) (hl : HashLib) (d : Derivation) :
  printableDerivation st hl d = true ->
  exists d',
    parseDerivation st hl (unparse st hl d false None) (name d) = Ok d'
    /\ wfDerivation d' = true
    /\ (forall id, map_find strcmp id (outputs d') = firstBinding strcmp id (outputs d))
    /\ (forall k, map_find strcmp k (env d') = lastBinding strcmp k (env d))
    /\ (forall p, map_find pathcmp p (inputDrvs d')
                  = (fun ids => set_insert_all strcmp ids [])
                      <$> lastBinding pathcmp p (inputDrvs d))
    /\ (forall p, In p (inputSrcs d') <-> In p (inputSrcs d))
    /\ platform d' = platform d /\ builder d' = builder d /\ args d' = args d
    /\ name d' = name d.
Proof.
  intros Hp. exists (normalise d). split; [by apply parseDerivation_unparse_any|].
  split; [apply normalise_wf|].
  unfold normalise. cbn [outputs env inputDrvs inputSrcs platform builder args name].
  split; [|split; [|split; [|split]]].
  - intros id. by rewrite (map_find_fold_emplace strcmp).
  - intros k.
    rewrite (map_find_fold_insert strcmp (fun i : string * string => i)) by done.
    rewrite map_id. by destruct (lastBinding strcmp k (env d)).
  - intros p.
    rewrite (map_find_fold_insert pathcmp
               (fun i : StorePath * StringSet => (fst i, set_insert_all strcmp (snd i) [])))
      by done.
    cbn [map_find]. unfold lastBinding. rewrite <- map_rev.
    induction (rev (inputDrvs d)) as [|[q ids] l IH]; simpl; [done|].
    destruct (pathcmp p q); [done|exact IH..].
  - intros p. rewrite (In_set_insert_all pathcmp). simpl. tauto.
  - done.
Qed.

Lemma parseDerivation_normalises_witness :
  printableDerivation (nixStore []) nixHash drvRepeats = true
  /\ exists d',
       parseDerivation (nixStore []) nixHash
         (unparse (nixStore []) nixHash drvRepeats false None) (name drvRepeats) = Ok d'
       /\ wfDerivation d' = true
       /\ (forall id, map_find strcmp id (outputs d')
                      = firstBinding strcmp id (outputs drvRepeats))
       /\ (forall k, map_find strcmp k (env d') = lastBinding strcmp k (env drvRepeats))
       /\ (forall p, map_find pathcmp p (inputDrvs d')
                     = (fun ids => set_insert_all strcmp ids [])
                         <$> lastBinding pathcmp p (inputDrvs drvRepeats))
       /\ (forall p, In p (inputSrcs d') <-> In p (inputSrcs drvRepeats))
       /\ platform d' = platform drvRepeats /\ builder d' = builder drvRepeats
       /\ args d' = args drvRepeats /\ name d' = name drvRepeats.
Proof.
  split; [vm_compute; reflexivity|].
  apply (parseDerivation_normalises (nixStore []) nixHash drvRepeats).
  vm_compute; reflexivity.
Defined.

(** ** Outputs and masking *)

(** X5.  In a derivation whose output names are in order, the names
    [outputNames] gives are the keys of the outputs.  [findOutput]
    fails with "derivation has no output" for every other name; for
    one of these names it computes the path of the output into a
    temporary and returns a reference to it, which dangles once the
    function has returned: no call gives a reference to a live path.
    [outputPaths] holds exactly the paths [findOutput] computes. *)
Theorem findOutput_outputPaths (st : Store) (d : Derivation) :
  wfDerivation d = true ->
  outputNames d = map fst (outputs d)
  /\ (forall id, In id (outputNames d) <-> exists p, findOutput st d id = Ok (Dangling p))
  /\ (forall id p, findOutput st d id <> Ok (Live p))
  /\ (forall id, ~ In id (outputNames d) ->
        findOutput st d id = Raise (Error ("derivation has no output '" +:+ id +:+ "'")))
  /\ (forall p, In p (outputPaths st d)
                <-> exists id, findOutput st d id = Ok (Dangling p)).
Proof.
  intros Hw. apply wfDerivation_outputs in Hw.
  assert (outputNames d = map fst (outputs d)) as Hn.
  { unfold outputNames. rewrite fold_insert_map.
    by apply (set_insert_all_increasing strcmp). }
  split; [done|]. rewrite Hn. unfold findOutput. split; [|split; [|split]].
  - intros id. split.
    + intros Hin. destruct (map_find strcmp id (outputs d)) as [o|] eqn:E; [eauto|].
      by apply (map_find_None strcmp) in E.
    + intros [p Hp]. destruct (map_find strcmp id (outputs d)) as [o|] eqn:E; [|done].
      apply (map_find_Some strcmp) in E. apply in_map_iff. by exists (id, o).
  - intros id p. by destruct (map_find strcmp id (outputs d)).
  - intros id Hid. apply (map_find_None strcmp) in Hid. by rewrite Hid.
  - intros p. unfold outputPaths. rewrite fold_insert_map.
    rewrite (In_set_insert_all pathcmp), in_map_iff. simpl. split.
    + intros [([id o] & <- & Hin)|[]]. exists id.
      by rewrite (map_find_In strcmp _ _ _ Hw Hin).
    + intros [id Hp]. left.
      destruct (map_find strcmp id (outputs d)) as [o|] eqn:E; [|done].
      apply (map_find_Some strcmp) in E. injection Hp as <-. by exists (id, o).
Qed.

Lemma findOutput_outputPaths_witness :
  wfDerivation (drvLib pathF1) = true
  /\ outputNames (drvLib pathF1) = ["dev"; "out"]
  /\ (forall id, In id (outputNames (drvLib pathF1))
                 <-> exists p, findOutput (nixStore []) (drvLib pathF1) id = Ok (Dangling p))
  /\ findOutput (nixStore []) (drvLib pathF1) "out"
     = Ok (Dangling (mkStorePath "66666666666666666666666666666666-lib"))
  /\ findOutput (nixStore []) (drvLib pathF1) "doc"
     = Raise (Error "derivation has no output 'doc'").
Proof.
  split; [vm_compute; reflexivity|].
  destruct (findOutput_outputPaths (nixStore []) (drvLib pathF1)) as (H1 & H2 & _).
  - vm_compute; reflexivity.
  - split; [exact H1|]. split; [exact H2|]. split; reflexivity.
Defined.

(** *** Masked outputs *)

Lemma printSeparated_Forall2 {A B : Type} (pr : A -> string) (pr' : B -> string) l l' :
  Forall2 (fun x y => pr x = pr' y) l l' ->
  forall first, printSeparated pr first l = printSeparated pr' first l'.
Proof.
  induction 1 as [|x y l l' Hxy _ IH]; intros first; simpl; [done|].
  by rewrite Hxy, IH.
Qed.

Lemma map_count_same_keys (outs outs' : DerivationOutputs) k :
  Forall2 sameOutputModuloPath outs outs' ->
  map_count strcmp k outs = map_count strcmp k outs'.
Proof.
  unfold map_count. induction 1 as [|[id o] [id' o'] l l' [Hid _] _ IH]; simpl; [done|].
  simpl in Hid. subst id'. by destruct (strcmp k id).
Qed.

Lemma isFixedOutput_same d d' :
  Forall2 sameOutputModuloPath (outputs d) (outputs d') ->
  isFixedOutput d = isFixedOutput d'.
Proof.
  unfold isFixedOutput. intros H. rewrite (Forall2_length _ _ _ H).
  destruct H as [|[id o] [id' o'] l l' [Hid Ho] _]; [done|].
  simpl in *. subst id'. by destruct o, o'.
Qed.

Section Masked.
Context (st : Store) (hl : HashLib).

Lemma unparse_masked d d' actualInputs :
  sameModuloOutputs d d' ->
  unparse st hl d true actualInputs = unparse st hl d' true actualInputs.
Proof.
  intros [Ho He Hs Hp Hb Ha Hi]. unfold unparse.
  rewrite Hs, Hp, Hb, Ha, Hi.
  rewrite (printSeparated_Forall2 (printOutput st hl (name d) true)
             (printOutput st hl (name d') true) (outputs d) (outputs d')).
  2:{ eapply Forall2_impl; [exact Ho|]. intros [id o] [id' o'] [Hid Hk].
      simpl in *. subst id'. unfold printOutput. cbn [fst snd].
      destruct o, o'; try done. by subst. }
  rewrite (printSeparated_Forall2 (printEnvPair (outputs d) true)
             (printEnvPair (outputs d') true) (env d) (env d')).
  2:{ eapply Forall2_impl; [exact He|]. intros [k v] [k' v'] [Hk Hv].
      simpl in *. subst k'. unfold printEnvPair. cbn [fst snd andb].
      rewrite <- (map_count_same_keys _ _ k Ho).
      destruct (map_count strcmp k (outputs d)) eqn:E; cbn [Nat.eqb negb]; [|done].
      by rewrite Hv. }
  done.
Qed.
End Masked.

(** X6.  With [maskOutputs] set, the text [unparse] writes and the hash
    [hashDerivationModulo] returns for a derivation that is not
    fixed-output do not depend on the paths of its outputs, on the
    values of the environment variables named like an output, or on its
    name: two derivations that differ in these only get the same hash. *)
Theorem hashDerivationModulo_masked (st : Store) (hl : HashLib) (fuel : nat)
    (drvHashes : DrvHashes) (d d' : Derivation) :
  sameModuloOutputs d d' ->
  isFixedOutput d = false ->
  (forall actualInputs,
     unparse st hl d true actualInputs = unparse st hl d' true actualInputs)
  /\ hashDerivationModulo st hl fuel drvHashes d true
     = hashDerivationModulo st hl fuel drvHashes d' true.
Proof.
  intros Hs Hf. split; [intros ai; by apply unparse_masked|].
  pose proof (isFixedOutput_same d d' (smo_outputs _ _ Hs)) as Hf'. rewrite Hf in Hf'.
  destruct fuel as [|fuel]; simpl; rewrite Hf, <- Hf'; [done|].
  rewrite <- (smo_inputDrvs _ _ Hs).
  destruct (foldM _ (inputDrvs d) ([], drvHashes)) as [[inputs2 memo]|e]; [|done].
  cbn [bind]. by rewrite (unparse_masked st hl d d' _ Hs).
Qed.

Lemma drvHello_sameModuloOutputs : sameModuloOutputs drvHello drvHello'.
Proof.
  split; try reflexivity.
  - constructor; [|constructor]. by split.
  - constructor; [|constructor]. split; [done|]. by intros [=].
Qed.

Lemma hashDerivationModulo_masked_witness :
  sameModuloOutputs drvHello drvHello'
  /\ isFixedOutput drvHello = false
  /\ hashDerivationModulo (nixStore []) nixHash 1 ∅ drvHello true
     = hashDerivationModulo (nixStore []) nixHash 1 ∅ drvHello' true.
Proof.
  split; [exact drvHello_sameModuloOutputs|]. split; [reflexivity|].
  apply (hashDerivationModulo_masked (nixStore []) nixHash 1 ∅ drvHello drvHello'
           drvHello_sameModuloOutputs eq_refl).
Defined.

(** ** The memo table of hashing modulo *)

Section Memo.
Context (st : Store) (hl : HashLib).

Lemma hashDerivationModulo_fixed fuel memo d mask :
  isFixedOutput d = true ->
  exists foh,
    outputs d = [("out", DerivationOutputFixed foh)]
    /\ hashDerivationModulo st hl fuel memo d mask
       = Ok (hashString hl htSHA256
               ("fixed:out:" +:+ printMethodAlgo foh +:+ ":"
                +:+ to_base16 hl (foh_hash foh) +:+ ":"
                +:+ printStorePath st
                      (makeFixedOutputPath st (foh_method foh) (foh_hash foh) (name d))),
             memo).
Proof.
  intros Hf. destruct (isFixedOutput_spec d Hf) as [foh Ho]. exists foh.
  split; [done|]. destruct fuel; simpl; rewrite Hf, Ho; done.
Qed.

Lemma hashDerivationModulo_step fuel memo d mask :
  isFixedOutput d = false ->
  hashDerivationModulo st hl (S fuel) memo d mask
  = let* (inputs2, drvHashes) :=
      foldM (inputStep st hl (fun m d' => hashDerivationModulo st hl fuel m d' false))
            (inputDrvs d) ([], memo) in
    Ok (hashString hl htSHA256 (unparse st hl d mask (Some inputs2)), drvHashes).
Proof. intros Hf. simpl. by rewrite Hf. Qed.

Section Step.
Context (rec : DrvHashes -> Derivation -> result (Hash * DrvHashes)).
Context (Hrec : forall m d h m', rec m d = Ok (h, m') -> m ⊆ m').

Lemma inputStep_grows acc m i acc' m' :
  inputStep st hl rec (acc, m) i = Ok (acc', m') ->
  m ⊆ m'
  /\ exists h, m' !! fst i = Some h
               /\ acc' = map_insert_or_assign strcmp (to_base16 hl h) (snd i) acc.
Proof.
  unfold inputStep. destruct (m !! fst i) as [h|] eqn:E; cbn [bind].
  - intros [= <- <-]. eauto.
  - destruct (isValidPath st (fst i)); cbn [negb]; [|done].
    destruct (readDerivation st hl (fst i)) as [d|]; cbn [bind]; [|done].
    destruct (rec m d) as [[h m1]|] eqn:Er; cbn [bind]; [|done].
    intros [= <- <-]. apply Hrec in Er. split.
    + by apply insert_subseteq_r.
    + exists h. by rewrite lookup_insert_eq.
Qed.

Lemma foldM_inputStep_grows l : forall acc m r m',
  foldM (inputStep st hl rec) l (acc, m) = Ok (r, m') ->
  m ⊆ m' /\ forall i, In i l -> is_Some (m' !! fst i).
Proof.
  induction l as [|i l IH]; intros acc m r m'; cbn [foldM].
  - intros [= <- <-]. split; [done|]. by intros ? [].
  - intros H. apply bind_Ok in H as ([acc1 m1] & H1 & H).
    apply inputStep_grows in H1 as (Hm & h & Hh & _).
    apply IH in H as (Hm' & Hl). split; [by transitivity m1|].
    intros j [<-|Hj]; [|by apply Hl].
    exists h. by apply (lookup_weaken m1).
Qed.

(** A run of the loop can be played again from any larger table:
    every input is then found in the table *)
Lemma foldM_inputStep_replay st' rec' l : forall acc m r m' M,
  foldM (inputStep st hl rec) l (acc, m) = Ok (r, m') ->
  m' ⊆ M ->
  foldM (inputStep st' hl rec') l (acc, M) = Ok (r, M).
Proof.
  induction l as [|i l IH]; intros acc m r m' M; cbn [foldM].
  - by intros [= <- <-] _.
  - intros H HM. apply bind_Ok in H as ([acc1 m1] & H1 & H).
    apply inputStep_grows in H1 as (Hm & h & Hh & ->).
    pose proof (foldM_inputStep_grows _ _ _ _ _ H) as [Hm1 _].
    assert (M !! fst i = Some h) as HMi.
    { apply (lookup_weaken m1); [done|]. by transitivity m'. }
    unfold inputStep at 1. rewrite HMi. cbn [bind]. by eapply IH.
Qed.
End Step.

Lemma hashDerivationModulo_grows fuel : forall memo d mask h memo',
  hashDerivationModulo st hl fuel memo d mask = Ok (h, memo') -> memo ⊆ memo'.
Proof.
  induction fuel as [|fuel IH]; intros memo d mask h memo' H;
    destruct (isFixedOutput d) eqn:Hf.
  - destruct (hashDerivationModulo_fixed 0 memo d mask Hf) as (foh & _ & E).
    rewrite E in H. by injection H as <- <-.
  - simpl in H. by rewrite Hf in H.
  - destruct (hashDerivationModulo_fixed (S fuel) memo d mask Hf) as (foh & _ & E).
    rewrite E in H. by injection H as <- <-.
  - rewrite hashDerivationModulo_step in H by done.
    apply bind_Ok in H as ([inputs2 m1] & H1 & H). injection H as <- <-.
    eapply foldM_inputStep_grows in H1 as [Hm _]; [done|].
    intros m d' h' m'. apply IH.
Qed.
End Memo.

(** X7.  [hashDerivationModulo] only adds to the memo table
    [drvHashes]: every entry the table held before the call is still
    there with its hash.  After a call on a derivation that is not
    fixed-output every input derivation has an entry; a call on a
    fixed-output derivation leaves the table as it is. *)
Theorem hashDerivationModulo_memo_grows (st : Store) (hl : HashLib) (fuel : nat)
    (drvHashes drvHashes' : DrvHashes) (drv : Derivation) (maskOutputs : bool) (h : Hash) :
  hashDerivationModulo st hl fuel drvHashes drv maskOutputs = Ok (h, drvHashes') ->
  drvHashes ⊆ drvHashes'
  /\ (isFixedOutput drv = true -> drvHashes' = drvHashes)
  /\ (isFixedOutput drv = false ->
      forall i, In i (inputDrvs drv) -> is_Some (drvHashes' !! fst i)).
Proof.
  intros H. split; [by eapply hashDerivationModulo_grows|]. split.
  - intros Hf. destruct (hashDerivationModulo_fixed st hl fuel drvHashes drv maskOutputs Hf)
      as (foh & _ & E).
    rewrite E in H. by injection H as <- <-.
  - intros Hf. destruct fuel as [|fuel]; [simpl in H; by rewrite Hf in H|].
    rewrite hashDerivationModulo_step in H by done.
    apply bind_Ok in H as ([inputs2 m1] & H1 & H). injection H as <- <-.
    eapply foldM_inputStep_grows in H1 as [_ Hl]; [done|].
    intros m d' h' m'. apply hashDerivationModulo_grows.
Qed.

Lemma hashDerivationModulo_memo_grows_witness :
  exists h m,
    hashDerivationModulo exampleStore nixHash 2 ∅ drvC false = Ok (h, m)
    /\ ∅ ⊆ m
    /\ (isFixedOutput drvC = false -> forall i, In i (inputDrvs drvC) -> is_Some (m !! fst i)).
Proof.
  destruct (hashDerivationModulo exampleStore nixHash 2 ∅ drvC false)
    as [[h m]|e] eqn:E; [|vm_compute in E; discriminate].
  exists h, m. split; [reflexivity|].
  destruct (hashDerivationModulo_memo_grows exampleStore nixHash 2 ∅ m drvC false h E)
    as (H1 & _ & H3).
  split; [exact H1|exact H3].
Defined.

(** X8.  Once [hashDerivationModulo] has returned, the call can be
    repeated from the table it left, or from any larger one, without
    the store being consulted: no input is checked for validity or read,
    one level of recursion is enough, the table stays as it is and the
    hash is the same. *)
Theorem hashDerivationModulo_memoised (st st' : Store) (hl : HashLib) (fuel : nat)
    (drvHashes drvHashes' later : DrvHashes) (drv : Derivation) (maskOutputs : bool)
    (h : Hash) :
  hashDerivationModulo st hl fuel drvHashes drv maskOutputs = Ok (h, drvHashes') ->
  printStorePath st' = printStorePath st ->
  makeFixedOutputPath st' = makeFixedOutputPath st ->
  drvHashes' ⊆ later ->
  hashDerivationModulo st' hl 1 later drv maskOutputs = Ok (h, later).
Proof.
  intros H Hp Hm Hl. destruct (isFixedOutput drv) eqn:Hf.
  - destruct (hashDerivationModulo_fixed st hl fuel drvHashes drv maskOutputs Hf)
      as (foh & Ho & E).
    destruct (hashDerivationModulo_fixed st' hl 1 later drv maskOutputs Hf)
      as (foh' & Ho' & E').
    rewrite Ho in Ho'. injection Ho' as <-.
    rewrite E in H. injection H as <- <-. by rewrite E', Hp, Hm.
  - destruct fuel as [|fuel]; [simpl in H; by rewrite Hf in H|].
    rewrite hashDerivationModulo_step in H by done.
    rewrite hashDerivationModulo_step by done.
    apply bind_Ok in H as ([inputs2 m1] & H1 & H). injection H as <- <-.
    erewrite foldM_inputStep_replay; [| |exact H1|exact Hl].
    + cbn [bind]. do 2 f_equal. f_equal. unfold unparse, printOutput, printStorePathSet,
        DerivationOutput_path. by rewrite Hp, Hm.
    + intros m d' h' m'. apply hashDerivationModulo_grows.
Qed.

Lemma hashDerivationModulo_memoised_witness :
  exists h m,
    hashDerivationModulo exampleStore nixHash 2 ∅ drvC false = Ok (h, m)
    /\ hashDerivationModulo (nixStore []) nixHash 1 m drvC false = Ok (h, m).
Proof.
  destruct (hashDerivationModulo exampleStore nixHash 2 ∅ drvC false)
    as [[h m]|e] eqn:E; [|vm_compute in E; discriminate].
  exists h, m. split; [reflexivity|].
  apply (hashDerivationModulo_memoised exampleStore (nixStore []) nixHash 2 ∅ m m drvC
           false h E eq_refl eq_refl).
  reflexivity.
Defined.

(** ** The binary form of a derivation *)

(** *** The frame of the examples meets the laws *)

Lemma splitAt_app a rest n :
  String.length a = n -> splitAt n (a +:+ rest) = Some (a, rest).
Proof.
  revert n. induction a as [|c a IH]; intros n <-; simpl; [done|].
  by rewrite (IH _ eq_refl).
Qed.

Lemma le_bytes_length k : forall n, String.length (le_bytes k n) = k.
Proof. induction k as [|k IH]; intros n; simpl; [done|]. by rewrite IH. Qed.

Lemma le_number_le_bytes k : forall n,
  le_number (le_bytes k n) = (n mod 256 ^ N.of_nat k)%N.
Proof.
  induction k as [|k IH]; intros n.
  - simpl. by rewrite N.mod_1_r.
  - cbn [le_bytes le_number]. rewrite IH.
    rewrite N_ascii_embedding by (apply N.mod_lt; lia).
    rewrite Nat2N.inj_succ, N.pow_succ_r'. by rewrite N.Div0.mod_mul_r.
Qed.

Lemma nixReadNum_written n rest :
  (n <? 2 ^ 64)%N = true -> nixReadNum (nixWriteNum n +:+ rest) = Ok (n, rest).
Proof.
  intros Hn. apply N.ltb_lt in Hn. unfold nixReadNum, nixWriteNum.
  rewrite (splitAt_app _ _ 8) by apply le_bytes_length.
  rewrite le_number_le_bytes. by rewrite N.mod_small.
Qed.

Lemma zeros_length n : String.length (zeros n) = n.
Proof. induction n as [|n IH]; simpl; [done|]. by rewrite IH. Qed.

Lemma zeros_zero n : string_forall (Ascii.eqb zero) (zeros n) = true.
Proof. induction n as [|n IH]; simpl; [done|]. exact IH. Qed.

Lemma nixReadString_written s rest :
  short s = true -> nixReadString (nixWriteString s +:+ rest) = Ok (s, rest).
Proof.
  intros Hs. unfold nixReadString, nixWriteString. rewrite !sapp_assoc.
  rewrite nixReadNum_written by exact Hs. cbn [bind]. rewrite Nat2N.id.
  rewrite (splitAt_app s) by done.
  rewrite (splitAt_app (zeros _)) by apply zeros_length.
  by rewrite zeros_zero.
Qed.

Lemma times_written {A B : Type} (body : B -> string -> result (B * string))
    (w : A -> string) (ins : B -> A -> B) (l : list A) :
  Forall (parses body w ins) l ->
  forall acc rest,
    times (length l) body acc (Wire.writeAll w l +:+ rest) = Ok (fold_left ins l acc, rest).
Proof.
  induction 1 as [|x l Hx _ IH]; intros acc rest; simpl; [done|].
  rewrite sapp_assoc, Hx. cbn [bind]. apply IH.
Qed.

Lemma nixReadStrings_written l rest :
  fits (length l) = true -> forallb short l = true ->
  nixReadStrings (nixWriteNum (N.of_nat (length l)) +:+ Wire.writeAll nixWriteString l +:+ rest)
  = Ok (l, rest).
Proof.
  intros Hl Hs. unfold nixReadStrings.
  rewrite nixReadNum_written by exact Hl. cbn [bind]. rewrite Nat2N.id.
  rewrite (times_written _ nixWriteString (fun ss s => ss ++ [s])).
  - by rewrite fold_left_snoc.
  - rewrite List.forallb_forall in Hs. apply List.Forall_forall. intros s Hin acc r.
    by rewrite nixReadString_written by auto.
Qed.

Lemma writeAll_map {A B : Type} (f : A -> B) (w : B -> string) (l : list A) :
  Wire.writeAll (fun x => w (f x)) l = Wire.writeAll w (map f l).
Proof. induction l as [|x l IH]; simpl; [done|]. by rewrite IH. Qed.

Lemma pathReadsBack_spec st p :
  pathReadsBack st p = true ->
  short (printStorePath st p) = true
  /\ parseStorePath st (printStorePath st p) = Ok p.
Proof. unfold pathReadsBack. by rewrite andb_true_iff, result_is_true. Qed.

Lemma nixWire_ok : SerialiserOk nixWire.
Proof.
  split; simpl.
  - apply nixReadNum_written.
  - apply nixReadString_written.
  - intros l rest Hl Hs. rewrite sapp_assoc. by apply nixReadStrings_written.
  - intros st ps rest Hl Hp Hi. apply (increasingb_spec pathcmp) in Hi.
    rewrite List.forallb_forall in Hp.
    rewrite sapp_assoc, (writeAll_map (printStorePath st) nixWriteString).
    rewrite <- (length_map (printStorePath st)).
    rewrite nixReadStrings_written; cycle 1.
    { by rewrite length_map. }
    { apply List.forallb_forall. intros s Hin. apply in_map_iff in Hin as (p & <- & Hin).
      by apply Hp, pathReadsBack_spec in Hin as [? _]. }
    cbn [bind]. unfold parseStorePathSet.
    rewrite (foldM_ok _ (fun res s =>
               set_insert pathcmp
                 (match parseStorePath st s with Ok p => p | Raise _ => mkStorePath "" end)
                 res)).
    + cbn [bind]. do 2 f_equal. rewrite fold_insert_map, map_map.
      rewrite (map_ext_in _ (fun p => p)), map_id.
      * by apply (set_insert_all_increasing pathcmp).
      * intros p Hin. by apply Hp, pathReadsBack_spec in Hin as [_ ->].
    + intros s res Hin. apply in_map_iff in Hin as (p & <- & Hin).
      by apply Hp, pathReadsBack_spec in Hin as [_ ->].
Qed.

(** *** Reading what [writeDerivation] wrote *)

Section WireCodec.
Context (st : Store) (hl : HashLib) (ser : Serialiser) (Hser : SerialiserOk ser).

Lemma short_empty : short "" = true.
Proof. reflexivity. Qed.

Lemma printMethodAlgo_short h : short (printMethodAlgo h) = true.
Proof. by destruct h as [[] [[] ?]]. Qed.

Lemma readOutput_written drvName (i : string * DerivationOutput) :
  wireOutputOk st hl drvName i = true ->
  parses
    (fun (outs : DerivationOutputs) src =>
       let* (name, src) := readString ser src in
       let* (output, src) := Wire.readDerivationOutput st hl ser src in
       Ok (map_emplace strcmp name output outs, src))
    (Wire.writeOutput st hl ser drvName)
    (fun outs i => map_emplace strcmp (fst i) (snd i) outs) i.
Proof.
  unfold wireOutputOk. rewrite !andb_true_iff. intros [[Hid Hp] Ho] acc rest.
  apply pathReadsBack_spec in Hp as [Hp1 Hp2].
  unfold Wire.writeOutput, Wire.readDerivationOutput. rewrite !sapp_assoc.
  rewrite (string_ok _ Hser) by done. cbn [bind].
  rewrite (string_ok _ Hser) by done. cbn [bind]. rewrite Hp2. cbn [bind].
  destruct i as [id [p|h]]; cbn [fst snd] in *.
  - rewrite !sapp_assoc. rewrite (string_ok _ Hser) by apply short_empty. cbn [bind].
    rewrite (string_ok _ Hser) by apply short_empty. cbn [bind]. done.
  - apply andb_true_iff in Ho as [Hh1 Hh2]. apply result_is_true in Hh2.
    destruct (printMethodAlgo_facts h) as (F1 & F2 & F3 & F4).
    rewrite !sapp_assoc.
    rewrite (string_ok _ Hser) by apply printMethodAlgo_short. cbn [bind].
    rewrite (string_ok _ Hser) by done. cbn [bind].
    rewrite F2. cbn [negb]. cbv zeta in F3. rewrite F3, F4. cbn [bind].
    rewrite Hh2. cbn [bind]. by destruct h.
Qed.

Lemma readEnvPair_written (i : string * string) :
  short (fst i) && short (snd i) = true ->
  parses
    (fun (env : StringPairs) src =>
       let* (key, src) := readString ser src in
       let* (value, src) := readString ser src in
       Ok (map_insert_or_assign strcmp key value env, src))
    (Wire.writeEnvPair ser)
    (fun env i => map_insert_or_assign strcmp (fst i) (snd i) env) i.
Proof.
  rewrite andb_true_iff. intros [Hk Hv] acc rest.
  unfold Wire.writeEnvPair. rewrite !sapp_assoc.
  rewrite (string_ok _ Hser) by done. cbn [bind].
  rewrite (string_ok _ Hser) by done. cbn [bind]. done.
Qed.

(** What [readDerivation] makes of the object [drv] when the source
    holds what [writeDerivation] wrote for [d] *)
Lemma readDerivation_written (d drv : Derivation) (nm rest : string) :
  wireable st hl d = true ->
  increasingb pathcmp (inputSrcs d) = true ->
  Wire.readDerivation st hl ser (Wire.writeDerivation st hl ser d +:+ rest) drv nm
  = Ok ({| outputs :=
             fold_left (fun outs i => map_emplace strcmp (fst i) (snd i) outs)
                       (outputs d) [];
           inputSrcs := inputSrcs d;
           platform := platform d;
           builder := builder d;
           args := args d;
           env :=
             fold_left (fun env i => map_insert_or_assign strcmp (fst i) (snd i) env)
                       (env d) (env drv);
           name := nm;
           inputDrvs := inputDrvs drv |}, rest).
Proof.
  unfold wireable. rewrite !andb_true_iff.
  intros [[[[[[[[[W1 W2] W3] W4] W5] W6] W7] W8] W9] W10] Hinc.
  rewrite List.forallb_forall in W2, W10.
  unfold Wire.writeDerivation, Wire.readDerivation. rewrite !sapp_assoc.
  rewrite (num_ok _ Hser) by exact W1. cbn [bind]. rewrite Nat2N.id.
  rewrite (times_written _ (Wire.writeOutput st hl ser (name d))
             (fun outs i => map_emplace strcmp (fst i) (snd i) outs)); cycle 1.
  { apply List.Forall_forall. intros i Hi. by apply readOutput_written, W2. }
  cbn [bind].
  rewrite (storePaths_ok _ Hser) by done. cbn [bind].
  rewrite (string_ok _ Hser) by done. cbn [bind].
  rewrite (string_ok _ Hser) by done. cbn [bind].
  rewrite (strings_ok _ Hser) by done. cbn [bind].
  rewrite (num_ok _ Hser) by exact W9. cbn [bind]. rewrite Nat2N.id.
  rewrite (times_written _ (Wire.writeEnvPair ser)
             (fun env i => map_insert_or_assign strcmp (fst i) (snd i) env)); cycle 1.
  { apply List.Forall_forall. intros i Hi. by apply readEnvPair_written, W10. }
  cbn [bind]. done.
Qed.
End WireCodec.

(** X9.  The binary form round-trips, except for the input derivations,
    which [writeDerivation] does not write: what it appends to a sink
    for a derivation is read by [readDerivation] into a fresh object as
    the same derivation without input derivations, and the source is
    left where the derivation ends.  The output paths of fixed outputs
    are written but not kept by the reader. *)
Theorem wire_round_trip (st : Store) (hl : HashLib) (ser : Serialiser) (d : Derivation)
    (rest : string) :
  SerialiserOk ser ->
  wfDerivation d = true ->
  wireable st hl d = true ->
  Wire.readDerivation st hl ser (Wire.writeDerivation st hl ser d +:+ rest)
    emptyDerivation (name d)
  = Ok (with_inputDrvs [] d, rest).
Proof.
  intros Hser Hw Hwire. revert Hw. unfold wfDerivation. rewrite !andb_true_iff.
  intros [[[[W1 _] _] W4] W5].
  apply (increasingb_spec strcmp) in W1, W5.
  rewrite (readDerivation_written st hl ser Hser) by done.
  rewrite (fold_emplace_increasing strcmp _ []) by done.
  cbn [env emptyDerivation inputDrvs].
  rewrite (fold_insert_or_assign_increasing strcmp _ []) by done. done.
Qed.

Lemma wire_round_trip_witness :
  SerialiserOk nixWire
  /\ wfDerivation (drvLib pathF1) = true
  /\ wireable (nixStore []) nixHash (drvLib pathF1) = true
  /\ Wire.readDerivation (nixStore []) nixHash nixWire
       (Wire.writeDerivation (nixStore []) nixHash nixWire (drvLib pathF1) +:+ "next")
       emptyDerivation (name (drvLib pathF1))
     = Ok (with_inputDrvs [] (drvLib pathF1), "next").
Proof.
  split; [exact nixWire_ok|]. split; [vm_compute; reflexivity|].
  split; [vm_compute; reflexivity|].
  apply (wire_round_trip (nixStore []) nixHash nixWire (drvLib pathF1) "next" nixWire_ok).
  - vm_compute; reflexivity.
  - vm_compute; reflexivity.
Defined.

(** X10.  [readDerivation] clears the outputs of the object it fills
    but not its environment, and does not touch its input derivations:
    read into an object that was used before, the result has the
    outputs, sources, platform, builder and arguments of the stream, the
    input derivations the object had, and for every variable the value
    of the stream when the stream binds it and the value the object had
    otherwise. *)
Theorem wire_read_into_used (st : Store) (hl : HashLib) (ser : Serialiser)
    (d drv : Derivation) (nm rest : string) :
  SerialiserOk ser ->
  wfDerivation d = true ->
  wfDerivation drv = true ->
  wireable st hl d = true ->
  exists r,
    Wire.readDerivation st hl ser (Wire.writeDerivation st hl ser d +:+ rest) drv nm
    = Ok (r, rest)
    /\ outputs r = outputs d /\ inputSrcs r = inputSrcs d
    /\ platform r = platform d /\ builder r = builder d /\ args r = args d
    /\ name r = nm
    /\ inputDrvs r = inputDrvs drv
    /\ forall k, map_find strcmp k (env r)
                 = match map_find strcmp k (env d) with
                   | Some v => Some v
                   | None => map_find strcmp k (env drv)
                   end.
Proof.
  intros Hser Hw Hw' Hwire. revert Hw Hw'. unfold wfDerivation. rewrite !andb_true_iff.
  intros [[[[W1 _] _] W4] W5] [_ W5'].
  apply (increasingb_spec strcmp) in W1, W5, W5'.
  eexists. split; [by apply (readDerivation_written st hl ser Hser)|].
  cbn [outputs inputSrcs platform builder args name inputDrvs env].
  rewrite (fold_emplace_increasing strcmp _ []) by done.
  repeat (split; [done|]).
  intros k.
  rewrite (map_find_fold_insert strcmp (fun i : string * string => i)) by done.
  rewrite map_id.
  assert (lastBinding strcmp k (env d) = map_find strcmp k (env d)) as ->; [|done].
  rewrite <- (fold_insert_or_assign_increasing strcmp (env d) []) at 2 by done.
  rewrite (map_find_fold_insert strcmp (fun i : string * string => i)) by done.
  rewrite map_id. by destruct (lastBinding strcmp k (env d)).
Qed.

Lemma wire_read_into_used_witness :
  exists r,
    Wire.readDerivation (nixStore []) nixHash nixWire
      (Wire.writeDerivation (nixStore []) nixHash nixWire (drvLib pathF1) +:+ "next")
      usedDerivation "lib.drv"
    = Ok (r, "next")
    /\ outputs r = outputs (drvLib pathF1)
    /\ inputDrvs r = inputDrvs usedDerivation
    /\ map_find strcmp "shell" (env r) = Some "/bin/bash".
Proof.
  destruct (wire_read_into_used (nixStore []) nixHash nixWire (drvLib pathF1)
              usedDerivation "lib.drv" "next" nixWire_ok)
    as (r & Hr & Ho & _ & _ & _ & _ & _ & Hi & He).
  - vm_compute; reflexivity.
  - vm_compute; reflexivity.
  - vm_compute; reflexivity.
  - exists r. split; [exact Hr|]. split; [exact Ho|]. split; [exact Hi|].
    rewrite He. reflexivity.
Defined.

(** ** Derivations: failures and edge cases *)

(** X26.  [Store::readDerivation] lets no [FormatError] out: every
    format error of the reader, or of the reading of the file, comes
    out as an [Error] that names the path.  A file that does not start
    with [Derive(\[] is such an error. *)
Theorem readDerivation_format_error (st : Store) (hl : HashLib) (p : StorePath) :
  (forall msg, readDerivation st hl p <> Raise (FormatError msg))
  /\ (forall text,
        readFile st (printStorePath st p) = Ok text ->
        is_prefix "Derive([" text = false ->
        readDerivation st hl p
        = Raise (Error ("error parsing derivation '" +:+ printStorePath st p
                        +:+ "': expected string 'Derive(['"))).
Proof.
  split.
  - intros msg. unfold readDerivation.
    destruct (bind _ _) as [d|e]; [done|]. by destruct e.
  - intros text Hr Hp. unfold readDerivation. rewrite Hr. cbn [bind].
    unfold parseDerivation, expect. unfold is_prefix in Hp.
    destruct (strip_prefix "Derive([" text); [done|]. done.
Qed.

Lemma readDerivation_format_error_witness :
  let st := nixStore [("/nix/store/33333333333333333333333333333333-lib.drv", "derive()")] in
  readDerivation st nixHash pathB1
  = Raise (Error ("error parsing derivation '" +:+ printStorePath st pathB1
                  +:+ "': expected string 'Derive(['")).
Proof.
  intros st.
  destruct (readDerivation_format_error st nixHash pathB1) as [_ H].
  apply (H "derive()"); reflexivity.
Defined.

(** X27.  The masked text is not a derivation text: what [unparse]
    writes with [maskOutputs] for a derivation with an output is
    refused by [parseDerivation], because the path of the first output
    is written as the empty string and [parsePath] wants a slash. *)
Theorem masked_text_refused (st : Store) (hl : HashLib) (d : Derivation)
    (actualInputs : option (list (string * StringSet))) (nm : string)
    (i : string * DerivationOutput) (rest : DerivationOutputs) :
  outputs d = i :: rest ->
  plain (fst i) = true ->
  parseDerivation st hl (unparse st hl d true actualInputs) nm
  = Raise (FormatError "bad path '' in derivation").
Proof.
  intros Ho Hp. unfold unparse, parseDerivation. rewrite Ho.
  cbn [printSeparated]. unfold printOutput. norm. eat.
  unfold whileNotEndOfList. cbn [String.length whileNotEndOfList_fuel endOfList].
  eat. rewrite parseString_unquoted by done. cbn [bind].
  unfold parseDerivationOutput. eat.
  unfold parsePath. rewrite parseString_unquoted by done. cbn [bind]. done.
Qed.

Lemma masked_text_refused_witness :
  parseDerivation (nixStore []) nixHash (unparse (nixStore []) nixHash drvHello true None)
    "hello"
  = Raise (FormatError "bad path '' in derivation").
Proof.
  apply (masked_text_refused (nixStore []) nixHash drvHello None "hello"
           ("out", DerivationOutputIntensional
                     (mkStorePath "9999999999999999999999999999999a-hello")) []).
  - reflexivity.
  - reflexivity.
Defined.

(** X28.  An input derivation that has no entry in [drvHashes] must be
    a valid path: when the inputs before it have entries and it has
    none and is not valid, [hashDerivationModulo] fails on the
    assertion, whatever the table holds for the inputs after it.  An
    input with an entry is not checked. *)
Theorem hashDerivationModulo_invalid_input (st : Store) (hl : HashLib) (fuel : nat)
    (drvHashes : DrvHashes) (drv : Derivation) (maskOutputs : bool)
    (before after : DerivationInputs) (p : StorePath) (ids : StringSet) :
  isFixedOutput drv = false ->
  inputDrvs drv = before ++ (p, ids) :: after ->
  (forall i, In i before -> is_Some (drvHashes !! fst i)) ->
  drvHashes !! p = None ->
  isValidPath st p = false ->
  hashDerivationModulo st hl (S fuel) drvHashes drv maskOutputs
  = Raise (AssertionFailed "store.isValidPath(i.first)").
Proof.
  intros Hf Hi Hb Hp Hv. rewrite hashDerivationModulo_step by done. rewrite Hi.
  clear Hi.
  assert (forall acc,
    foldM (inputStep st hl (fun m d' => hashDerivationModulo st hl fuel m d' false))
          (before ++ (p, ids) :: after) (acc, drvHashes)
    = Raise (AssertionFailed "store.isValidPath(i.first)")) as E; [|by rewrite E].
  induction before as [|i before IH]; intros acc.
  - cbn [app foldM]. unfold inputStep. cbn [fst]. by rewrite Hp, Hv.
  - cbn [app foldM]. destruct (Hb i (or_introl eq_refl)) as [h Hh].
    unfold inputStep at 1. rewrite Hh. cbn [bind]. apply IH.
    intros j Hj. apply Hb. by right.
Qed.

Lemma hashDerivationModulo_invalid_input_witness :
  hashDerivationModulo (nixStore []) nixHash 1 ∅ drvC false
  = Raise (AssertionFailed "store.isValidPath(i.first)").
Proof.
  apply (hashDerivationModulo_invalid_input (nixStore []) nixHash 0 ∅ drvC false
           [] [] pathB1 ["dev"; "out"]).
  - reflexivity.
  - reflexivity.
  - intros i [].
  - reflexivity.
  - reflexivity.
Defined.

(** ** The binary cache store *)

Import BinaryCacheStore.

Lemma mbindM_ok {A B : Type} (m : M A) (k : A -> M B) s a s' :
  m s = (Ok a, s') -> mbindM m k s = k a s'.
Proof. unfold mbindM. by intros ->. Qed.

Lemma mbindM_raise {A B : Type} (m : M A) (k : A -> M B) s e s' :
  m s = (Raise e, s') -> mbindM m k s = (Raise e, s').
Proof. unfold mbindM. by intros ->. Qed.

Lemma mbindM_inv {A B : Type} (m : M A) (k : A -> M B) s b s' :
  mbindM m k s = (Ok b, s') ->
  exists a s1, m s = (Ok a, s1) /\ k a s1 = (Ok b, s').
Proof. unfold mbindM. destruct (m s) as [[a|e] s1]; [eauto|done]. Qed.

Lemma keeps_backend_bind {A B : Type} (m : M A) (k : A -> M B) :
  keeps_backend m -> (forall a, keeps_backend (k a)) -> keeps_backend (mbindM m k).
Proof.
  intros Hm Hk s. unfold mbindM. specialize (Hm s).
  destruct (m s) as [[a|e] s1]; simpl in *; [|done]. by rewrite Hk.
Qed.

Lemma keeps_backend_catch {A : Type} (m : M A) (h : Exn -> option (M A)) :
  keeps_backend m -> (forall e k, h e = Some k -> keeps_backend k) ->
  keeps_backend (try_catch m h).
Proof.
  intros Hm Hh s. unfold try_catch. specialize (Hm s).
  destruct (m s) as [[a|e] s1]; simpl in *; [done|].
  destruct (h e) as [k|] eqn:E; [|done]. by rewrite (Hh e k E).
Qed.

Lemma keeps_backend_forM_ {A : Type} (l : list A) (f : A -> M unit) :
  (forall x, keeps_backend (f x)) -> keeps_backend (forM_ l f).
Proof.
  intros Hf. induction l as [|x l IH]; simpl; [done|].
  apply keeps_backend_bind; [apply Hf|done].
Qed.

Lemma forM__app {A : Type} (l1 l2 : list A) (f : A -> M unit) s :
  forM_ (l1 ++ l2) f s = mbindM (forM_ l1 f) (fun _ => forM_ l2 f) s.
Proof.
  revert s. induction l1 as [|x l1 IH]; intros s; simpl.
  - done.
  - unfold mbindM. destruct (f x s) as [[[]|e] s1]; [|done]. by rewrite IH.
Qed.

Section CacheFacts.
Context (store : Store) (hl : HashLib) (lib : CacheLib) (cfg : Config).

Lemma isValidPath_keeps_state p : keeps_state (isValidPath p).
Proof.
  intros s. unfold isValidPath, cacheLookup, isValidPathUncached, fileExists,
    mbindM, gets, ret. simpl. repeat case_match; done.
Qed.

Lemma alreadyValid_keeps_state info repair : keeps_state (alreadyValid info repair).
Proof.
  unfold alreadyValid. destruct repair; simpl; [done|apply isValidPath_keeps_state].
Qed.

Lemma queryPathInfo_keeps_backend p : keeps_backend (queryPathInfo store lib p).
Proof.
  intros s. unfold queryPathInfo, cacheLookup, queryPathInfoUncached, getFile,
    getFile_sink, invalidPath, try_catch, mbindM, gets, ret, throw, modify, lift.
  simpl. repeat (case_match; simpl in *; simplify_eq); done.
Qed.

Lemma checkReference_keeps_backend info r :
  keeps_backend (checkReference store lib info r).
Proof.
  unfold checkReference. apply keeps_backend_catch.
  - case_match; [|done]. apply keeps_backend_bind; [|done].
    apply queryPathInfo_keeps_backend.
  - intros e k. destruct e; try done. by intros [= <-].
Qed.

Lemma references_keep_backend info l :
  keeps_backend (forM_ l (checkReference store lib info)).
Proof. apply keeps_backend_forM_, checkReference_keeps_backend. Qed.

Lemma checkReference_invalid info r s msg s' :
  r <> path info ->
  queryPathInfo store lib r s = (Raise (InvalidPath msg), s') ->
  checkReference store lib info r s = (Raise (invalidReference store info r), s').
Proof.
  intros Hne Hq. unfold checkReference, try_catch.
  rewrite bool_decide_eq_false_2 by done. cbn [negb].
  by rewrite (mbindM_raise _ _ _ _ _ Hq).
Qed.
End CacheFacts.

Section IngestFacts.
Context (store : Store) (hl : HashLib) (lib : CacheLib) (cfg : Config).

Lemma isValidPath_cached p ni s :
  pathInfoCache s !! hashPart p = Some (Some ni) ->
  isValidPath p s = (Ok true, s).
Proof.
  intros H. unfold isValidPath, cacheLookup, mbindM, gets. by rewrite H.
Qed.

Lemma writeNarInfo_cached ni s s' :
  writeNarInfo lib ni s = (Ok tt, s') ->
  pathInfoCache s' !! hashPart (path (vpi ni)) = Some (Some ni).
Proof.
  unfold writeNarInfo, upsertFile, mbindM, modify, gets, ret. simpl.
  destruct (diskCache s); intros [= <-]; simpl; apply lookup_insert_eq.
Qed.

Lemma writeNarInfo_written ni s :
  fst (writeNarInfo lib ni s) = Ok tt
  /\ backend (snd (writeNarInfo lib ni s))
     = <[narInfoFileFor (path (vpi ni))
         := (NarInfo_to_string lib ni, "text/x-nix-narinfo")]> (backend s)
  /\ pathInfoCache (snd (writeNarInfo lib ni s)) !! hashPart (path (vpi ni))
     = Some (Some ni).
Proof.
  unfold writeNarInfo, upsertFile, mbindM, modify, gets, ret. simpl.
  destruct (diskCache s); simpl; repeat split; apply lookup_insert_eq.
Qed.

(** A call that returns normally was skipped, or has left the record
    of the path in the first tier of the cache *)
Lemma addToStore_returned info nar repair checkSigs duration s s1 :
  addToStore store hl lib cfg info nar repair checkSigs duration s = (Ok tt, s1) ->
  (alreadyValid info repair s = (Ok true, s) /\ s1 = s)
  \/ exists ni, pathInfoCache s1 !! hashPart (path info) = Some (Some ni).
Proof.
  intros H. unfold addToStore in H.
  apply mbindM_inv in H as (skip & s0 & Hskip & H).
  pose proof (alreadyValid_keeps_state info repair s) as E.
  rewrite Hskip in E. simpl in E. subst s0.
  destruct skip.
  { left. by injection H as <-. }
  right. cbv zeta in H.
  apply mbindM_inv in H as ([] & s2 & _ & H).
  apply mbindM_inv in H as ([] & s3 & _ & H).
  apply mbindM_inv in H as ([] & s4 & _ & H).
  apply mbindM_inv in H as (acc & s5 & _ & H).
  apply mbindM_inv in H as ([] & s6 & _ & H).
  apply mbindM_inv in H as (nc & s7 & _ & H).
  apply mbindM_inv in H as ([] & s8 & _ & H).
  apply mbindM_inv in H as (present & s9 & _ & H).
  apply mbindM_inv in H as ([] & s10 & _ & H).
  apply mbindM_inv in H as ([] & s11 & _ & H).
  apply mbindM_inv in H as ([] & s12 & _ & H).
  apply mbindM_inv in H as ([] & s13 & _ & H).
  apply mbindM_inv in H as ([] & sW & HW & H).
  apply writeNarInfo_cached in HW.
  unfold modify in H. injection H as <-. cbn [pathInfoCache set_stats].
  eexists. erewrite <- HW. f_equal. by destruct (secretKey cfg).
Qed.
End IngestFacts.

(** ** The binary cache store: ingestion *)

Import BinaryCacheStore.

(** C5.  A call that reaches the hash check -- it is not skipped as
    already valid, every reference passes, the NAR starts with the magic
    -- with [info.narHash] set to something else than the SHA-256 of the
    drained bytes fails with "refusing to copy corrupted path", and the
    backend is as it was before the call. *)
Theorem addToStore_corrupt_refused (store : Store) (hl : HashLib) (lib : CacheLib)
    (cfg : Config) (info : ValidPathInfo) (nar : string) (repair checkSigs : bool)
    (duration : Z) (s s1 s2 : State) (h : Hash) :
  alreadyValid info repair s = (Ok false, s1) ->
  forM_ (references info) (checkReference store lib info) s1 = (Ok tt, s2) ->
  is_prefix (narMagic cfg) nar = true ->
  narHash info = Some h ->
  h <> hashString hl htSHA256 nar ->
  addToStore store hl lib cfg info nar repair checkSigs duration s
  = (Raise (corruptedPath store info), s2)
  /\ backend s2 = backend s.
Proof.
  intros Hskip Hrefs Hmagic Hh Hne. split.
  - unfold addToStore. rewrite (mbindM_ok _ _ _ _ _ Hskip).
    rewrite (mbindM_ok _ _ _ _ _ Hrefs). rewrite Hmagic.
    unfold mbindM at 1. cbn [ret]. rewrite Hh.
    unfold mbindM at 1. cbn [set_vpi with_nar NarInfo_of vpi narHash].
    rewrite bool_decide_eq_false_2 by congruence. done.
  - pose proof (alreadyValid_keeps_state info repair s) as E1.
    rewrite Hskip in E1. simpl in E1. subst s1.
    pose proof (references_keep_backend store lib info (references info) s) as E2.
    by rewrite Hrefs in E2.
Qed.

Lemma addToStore_corrupt_refused_witness :
  let info := infoOf pathP [] (Some (mkHash htSHA256 "not the hash")) in
  addToStore (nixStore []) nixHash (exampleLib []) exampleConfig info exampleNar
    false true 5 emptyState
  = (Raise (corruptedPath (nixStore []) info), emptyState)
  /\ backend emptyState = backend emptyState.
Proof.
  intros info.
  apply (addToStore_corrupt_refused (nixStore []) nixHash (exampleLib []) exampleConfig
           info exampleNar false true 5 emptyState emptyState emptyState
           (mkHash htSHA256 "not the hash")).
  - reflexivity.
  - reflexivity.
  - vm_compute; reflexivity.
  - reflexivity.
  - vm_compute. discriminate.
Defined.

(** C4 (as amended).  In a call that is not skipped as already valid
    (repair, or [info.path] not valid), let [ref] be the first reference
    in iteration order whose check does not pass, with [ref] other than
    [info.path] and [queryPathInfo ref] raising [InvalidPath].  Then the
    call fails with the [Error] that names [ref], and the backend is as
    it was before the call. *)
Theorem addToStore_invalid_reference (store : Store) (hl : HashLib) (lib : CacheLib)
    (cfg : Config) (info : ValidPathInfo) (nar : string) (repair checkSigs : bool)
    (duration : Z) (s s1 s2 s3 : State) (before after : StorePathSet)
    (ref : StorePath) (msg : string) :
  alreadyValid info repair s = (Ok false, s1) ->
  references info = before ++ ref :: after ->
  forM_ before (checkReference store lib info) s1 = (Ok tt, s2) ->
  ref <> path info ->
  queryPathInfo store lib ref s2 = (Raise (InvalidPath msg), s3) ->
  addToStore store hl lib cfg info nar repair checkSigs duration s
  = (Raise (invalidReference store info ref), s3)
  /\ backend s3 = backend s.
Proof.
  intros Hskip Hl Hbefore Hne Hq.
  pose proof (checkReference_invalid store lib info ref s2 msg s3 Hne Hq) as Hc.
  assert (forM_ (references info) (checkReference store lib info) s1
          = (Raise (invalidReference store info ref), s3)) as Hrefs.
  { rewrite Hl, forM__app, (mbindM_ok _ _ _ _ _ Hbefore). simpl.
    by rewrite (mbindM_raise _ _ _ _ _ Hc). }
  split.
  - unfold addToStore. rewrite (mbindM_ok _ _ _ _ _ Hskip).
    by rewrite (mbindM_raise _ _ _ _ _ Hrefs).
  - pose proof (alreadyValid_keeps_state info repair s) as E1.
    rewrite Hskip in E1. simpl in E1. subst s1.
    pose proof (references_keep_backend store lib info (references info) s) as E2.
    by rewrite Hrefs in E2.
Qed.

Lemma addToStore_invalid_reference_witness :
  let info := infoOf pathP [pathR] None in
  queryPathInfo (nixStore []) (exampleLib []) pathR emptyState
  = (Raise (InvalidPath "path '/nix/store/bbbbbbbbbbbbbbbbbbbbbbbbbbbbbbbb-libc' is not valid"),
     set_pathInfoCache <[hashPart pathR := None]> emptyState)
  /\ addToStore (nixStore []) nixHash (exampleLib []) exampleConfig info exampleNar
       false true 5 emptyState
     = (Raise (invalidReference (nixStore []) info pathR),
        set_pathInfoCache <[hashPart pathR := None]> emptyState)
  /\ backend (set_pathInfoCache <[hashPart pathR := None]> emptyState)
     = backend emptyState.
Proof.
  intros info. split; [reflexivity|].
  apply (addToStore_invalid_reference (nixStore []) nixHash (exampleLib []) exampleConfig
           info exampleNar false true 5 emptyState emptyState emptyState
           (set_pathInfoCache <[hashPart pathR := None]> emptyState)
           [] [] pathR
           "path '/nix/store/bbbbbbbbbbbbbbbbbbbbbbbbbbbbbbbb-libc' is not valid").
  - reflexivity.
  - reflexivity.
  - reflexivity.
  - discriminate.
  - reflexivity.
Defined.

(** C4 as stated fails when the path is already valid and [repair] is
    off: the call returns before it looks at the references.  Here the
    cache holds a record for [pathP] and none for its reference [pathR]. *)
Lemma addToStore_invalid_reference_counterexample :
  fst (queryPathInfo (nixStore []) (exampleLib []) pathR stateWithP)
  = Raise (InvalidPath "path '/nix/store/bbbbbbbbbbbbbbbbbbbbbbbbbbbbbbbb-libc' is not valid")
  /\ pathR <> pathP
  /\ addToStore (nixStore []) nixHash (exampleLib []) exampleConfig
       (infoOf pathP [pathR] None) exampleNar false true 5 stateWithP
     = (Ok tt, stateWithP).
Proof.
  split; [vm_compute; reflexivity|]. split; [discriminate|]. vm_compute; reflexivity.
Qed.

(** C7 (as amended).  In a call whose NAR bytes do not begin with the
    magic no backend write occurs.  The call returns normally only when
    it is skipped because the path is already valid and [repair] is off,
    in which case the bytes are not looked at and the state is as
    before; a call that is not skipped and whose references pass fails
    on the assertion on the magic. *)
Theorem addToStore_without_magic (store : Store) (hl : HashLib) (lib : CacheLib)
    (cfg : Config) (info : ValidPathInfo) (nar : string) (repair checkSigs : bool)
    (duration : Z) (s : State) :
  is_prefix (narMagic cfg) nar = false ->
  let r := addToStore store hl lib cfg info nar repair checkSigs duration s in
  backend (snd r) = backend s
  /\ (fst r = Ok tt -> alreadyValid info repair s = (Ok true, s) /\ snd r = s)
  /\ (forall s1 s2,
        alreadyValid info repair s = (Ok false, s1) ->
        forM_ (references info) (checkReference store lib info) s1 = (Ok tt, s2) ->
        r = (Raise magicAssertion, s2)).
Proof.
  intros Hmagic r. subst r. unfold addToStore.
  pose proof (alreadyValid_keeps_state info repair s) as E1.
  destruct (alreadyValid info repair s) as [[[]|e] s1] eqn:Hskip;
    simpl in E1; subst s1.
  - rewrite (mbindM_ok _ _ _ _ _ Hskip). simpl. split; [done|]. split; [done|].
    by intros ? ? [=].
  - rewrite (mbindM_ok _ _ _ _ _ Hskip).
    pose proof (references_keep_backend store lib info (references info) s) as E2.
    destruct (forM_ (references info) (checkReference store lib info) s)
      as [[[]|e] s2] eqn:Hrefs; simpl in E2.
    + rewrite (mbindM_ok _ _ _ _ _ Hrefs), Hmagic.
      rewrite (mbindM_raise (throw magicAssertion) _ s2 magicAssertion s2 eq_refl).
      simpl. split; [done|]. split; [done|]. intros ? ? ? ?; simplify_eq; congruence.
    + rewrite (mbindM_raise _ _ _ _ _ Hrefs). simpl.
      split; [done|]. split; [done|]. intros ? ? ? ?; simplify_eq; congruence.
  - rewrite (mbindM_raise _ _ _ _ _ Hskip). simpl. split; [done|]. split; [done|].
    by intros ? ? [=].
Qed.

Lemma addToStore_without_magic_witness :
  is_prefix (narMagic exampleConfig) "garbage" = false
  /\ let r := addToStore (nixStore []) nixHash (exampleLib []) exampleConfig
                (infoOf pathP [] None) "garbage" false true 5 emptyState in
     backend (snd r) = backend emptyState
     /\ r = (Raise magicAssertion, emptyState).
Proof.
  split; [reflexivity|].
  destruct (addToStore_without_magic (nixStore []) nixHash (exampleLib []) exampleConfig
              (infoOf pathP [] None) "garbage" false true 5 emptyState eq_refl)
    as (Hb & _ & Hr).
  split; [exact Hb|]. apply (Hr emptyState emptyState); reflexivity.
Defined.

(** C7 as stated fails when the path is already valid and [repair] is
    off: bytes without the magic are not rejected, the call returns
    normally. *)
Lemma addToStore_without_magic_counterexample :
  is_prefix (narMagic exampleConfig) "garbage" = false
  /\ addToStore (nixStore []) nixHash (exampleLib []) exampleConfig
       (infoOf pathP [] None) "garbage" false true 5 stateWithP
     = (Ok tt, stateWithP).
Proof. split; [reflexivity|]. vm_compute; reflexivity. Qed.

(** C6 (as amended).  When a call with [repair] off returns normally, a
    second call with the same [info] and content returns normally at
    the validity check and leaves the state -- backend, both cache
    tiers and every counter, [narWriteAverted] included -- exactly as
    the first call left it. *)
Theorem addToStore_idempotent (store : Store) (hl : HashLib) (lib : CacheLib)
    (cfg : Config) (info : ValidPathInfo) (nar : string) (checkSigs checkSigs' : bool)
    (duration duration' : Z) (s s1 : State) :
  addToStore store hl lib cfg info nar false checkSigs duration s = (Ok tt, s1) ->
  addToStore store hl lib cfg info nar false checkSigs' duration' s1 = (Ok tt, s1).
Proof.
  intros H. apply addToStore_returned in H as [[Hv ->]|[ni Hni]].
  - unfold addToStore. by rewrite (mbindM_ok _ _ _ _ _ Hv).
  - unfold addToStore.
    assert (alreadyValid info false s1 = (Ok true, s1)) as Hv.
    { unfold alreadyValid. simpl. by eapply isValidPath_cached. }
    by rewrite (mbindM_ok _ _ _ _ _ Hv).
Qed.

Lemma addToStore_idempotent_witness :
  let r1 := addToStore (nixStore []) nixHash (exampleLib []) exampleConfig
              (infoOf pathP [] None) exampleNar false true 5 emptyState in
  fst r1 = Ok tt
  /\ addToStore (nixStore []) nixHash (exampleLib []) exampleConfig
       (infoOf pathP [] None) exampleNar false true 7 (snd r1)
     = (Ok tt, snd r1).
Proof.
  intros r1. split; [vm_compute; reflexivity|].
  apply (addToStore_idempotent (nixStore []) nixHash (exampleLib []) exampleConfig
           (infoOf pathP [] None) exampleNar true true 5 7 emptyState (snd r1)).
  vm_compute; reflexivity.
Defined.

(** C6 as stated fails in its second half: the second call returns at
    the validity check, before the blob write, and [narWriteAverted]
    stays as it was. *)
Lemma addToStore_idempotent_counterexample :
  let r1 := addToStore (nixStore []) nixHash (exampleLib []) exampleConfig
              (infoOf pathP [] None) exampleNar false true 5 emptyState in
  let r2 := addToStore (nixStore []) nixHash (exampleLib []) exampleConfig
              (infoOf pathP [] None) exampleNar false true 5 (snd r1) in
  fst r1 = Ok tt /\ fst r2 = Ok tt
  /\ narWriteAverted (stats (snd r1)) = 0%Z
  /\ narWriteAverted (stats (snd r2)) = 0%Z
  /\ narWriteAverted (stats (snd r2)) <> wrap64 (narWriteAverted (stats (snd r1)) + 1).
Proof.
  intros r1 r2. repeat split; try (vm_compute; reflexivity). vm_compute. discriminate.
Qed.

(** ** The binary cache store: export and signatures *)

Import BinaryCacheStore.

(** C8.  When [queryPathInfo] succeeds for a path, the decompression
    sink for the recorded method can be made, and the fetch of the blob
    at [info.url] raises [NoSuchBinaryCacheFile], [narFromPath] raises
    [SubstituteGone] (with the message of the fetch).  At the query
    layer the same exception of the fetch is the null result, not an
    error. *)
Theorem narFromPath_substitute_gone (store : Store) (lib : CacheLib) (p : StorePath)
    (s s1 s2 : State) (info : NarInfo) (msg : string) :
  queryPathInfo store lib p s = (Ok info, s1) ->
  decompressionKnown lib (compression info) = true ->
  getFile_sink (url info) s1 = (Raise (NoSuchBinaryCacheFile msg), s2) ->
  narFromPath store lib p s = (Raise (SubstituteGone msg), s2)
  /\ (forall q s0 s0' msg0,
        getFile_sink (narInfoFileFor q) s0 = (Raise (NoSuchBinaryCacheFile msg0), s0') ->
        queryPathInfoUncached lib q s0 = (Ok None, s0')).
Proof.
  intros Hq Hd Hf. split.
  - unfold narFromPath. rewrite (mbindM_ok _ _ _ _ _ Hq), Hd.
    rewrite (mbindM_ok (ret tt) _ s1 tt s1 eq_refl).
    apply mbindM_raise. unfold try_catch. by rewrite Hf.
  - intros q s0 s0' msg0 H. unfold queryPathInfoUncached, getFile.
    rewrite (mbindM_ok _ _ s0 None s0'); [done|]. unfold try_catch.
    by rewrite (mbindM_raise _ _ _ _ _ H).
Qed.

Lemma narFromPath_substitute_gone_witness :
  let msg := "file 'nar/08hvqiqllnkcmdqrd2wy63vk0zxlsdhnci5q8xq054dnsfzm36hd.nar' does not exist in binary cache" in
  let s1 := snd (queryPathInfo (nixStore []) (exampleLib [recordP]) pathP stateGone) in
  queryPathInfo (nixStore []) (exampleLib [recordP]) pathP stateGone = (Ok recordP, s1)
  /\ narFromPath (nixStore []) (exampleLib [recordP]) pathP stateGone
     = (Raise (SubstituteGone msg), s1).
Proof.
  intros msg s1. split; [vm_compute; reflexivity|].
  apply (narFromPath_substitute_gone (nixStore []) (exampleLib [recordP]) pathP
           stateGone s1 s1 recordP msg).
  - vm_compute; reflexivity.
  - reflexivity.
  - vm_compute; reflexivity.
Defined.

(** C9.  For a path whose record [queryPathInfo] returns (a record
    filed under the hash part of the path), [addSignatures] rewrites the
    [.narinfo] of the path with the record in which [sigs] holds exactly
    the previous signatures and the new ones and every other field is as
    it was; the first cache tier gets the same record, and no other file
    of the backend changes. *)
Theorem addSignatures_frame (store : Store) (lib : CacheLib) (p : StorePath)
    (newSigs : StringSet) (s s1 : State) (ni : NarInfo) :
  queryPathInfo store lib p s = (Ok ni, s1) ->
  hashPart (path (vpi ni)) = hashPart p ->
  exists ni' s2,
    addSignatures store lib p newSigs s = (Ok tt, s2)
    /\ backend s2
       = <[narInfoFileFor p := (NarInfo_to_string lib ni', "text/x-nix-narinfo")]> (backend s)
    /\ pathInfoCache s2 !! hashPart p = Some (Some ni')
    /\ (forall x, In x (sigs (vpi ni')) <-> In x (sigs (vpi ni)) \/ In x newSigs)
    /\ path (vpi ni') = path (vpi ni) /\ url ni' = url ni
    /\ compression ni' = compression ni /\ fileHash ni' = fileHash ni
    /\ fileSize ni' = fileSize ni /\ narHash (vpi ni') = narHash (vpi ni)
    /\ narSize (vpi ni') = narSize (vpi ni)
    /\ references (vpi ni') = references (vpi ni)
    /\ deriver (vpi ni') = deriver (vpi ni) /\ ca (vpi ni') = ca (vpi ni).
Proof.
  intros Hq Hp.
  pose proof (queryPathInfo_keeps_backend store lib p s) as Hb.
  rewrite Hq in Hb. simpl in Hb.
  set (ni' := set_vpi (fun i => with_sigs (set_insert_all strcmp newSigs (sigs i)) i) ni).
  destruct (writeNarInfo_written lib ni' s1) as (Hw1 & Hw2 & Hw3).
  exists ni', (snd (writeNarInfo lib ni' s1)).
  split.
  { unfold addSignatures. rewrite (mbindM_ok _ _ _ _ _ Hq). fold ni'.
    by destruct (writeNarInfo lib ni' s1) as [[[]|] ?]. }
  split. { rewrite Hw2, Hb. unfold narInfoFileFor. by rewrite <- Hp. }
  split. { by rewrite <- Hp. }
  split.
  { intros x. simpl. rewrite (In_set_insert_all strcmp). tauto. }
  by repeat split.
Qed.

Lemma addSignatures_frame_witness :
  let lib := exampleLib [recordP] in
  let s1 := snd (queryPathInfo (nixStore []) lib pathP stateGone) in
  queryPathInfo (nixStore []) lib pathP stateGone = (Ok recordP, s1)
  /\ hashPart (path (vpi recordP)) = hashPart pathP
  /\ exists ni' s2,
       addSignatures (nixStore []) lib pathP ["cache.example.org-1:c2ln"] stateGone
       = (Ok tt, s2)
       /\ backend s2
          = <[narInfoFileFor pathP := (NarInfo_to_string lib ni', "text/x-nix-narinfo")]>
              (backend stateGone)
       /\ pathInfoCache s2 !! hashPart pathP = Some (Some ni')
       /\ (forall x, In x (sigs (vpi ni'))
             <-> In x (sigs (vpi recordP)) \/ In x ["cache.example.org-1:c2ln"])
       /\ path (vpi ni') = path (vpi recordP) /\ url ni' = url recordP
       /\ compression ni' = compression recordP /\ fileHash ni' = fileHash recordP
       /\ fileSize ni' = fileSize recordP /\ narHash (vpi ni') = narHash (vpi recordP)
       /\ narSize (vpi ni') = narSize (vpi recordP)
       /\ references (vpi ni') = references (vpi recordP)
       /\ deriver (vpi ni') = deriver (vpi recordP) /\ ca (vpi ni') = ca (vpi recordP).
Proof.
  intros lib s1. split; [vm_compute; reflexivity|]. split; [reflexivity|].
  apply (addSignatures_frame (nixStore []) lib pathP ["cache.example.org-1:c2ln"]
           stateGone s1 recordP).
  - vm_compute; reflexivity.
  - reflexivity.
Defined.

(** ** The binary cache store: what an operation leaves alone *)

Import BinaryCacheStore.

(** *** Parts of the state an operation leaves alone *)

Lemma preserves_bind {A B X : Type} (f : State -> X) (m : M A) (k : A -> M B) :
  preserves f m -> (forall a, preserves f (k a)) -> preserves f (mbindM m k).
Proof.
  intros Hm Hk s. unfold mbindM. specialize (Hm s).
  destruct (m s) as [[a|e] s1]; simpl in *; [|done]. by rewrite Hk.
Qed.

Lemma preserves_catch {A X : Type} (f : State -> X) (m : M A) (h : Exn -> option (M A)) :
  preserves f m -> (forall e k, h e = Some k -> preserves f k) ->
  preserves f (try_catch m h).
Proof.
  intros Hm Hh s. unfold try_catch. specialize (Hm s).
  destruct (m s) as [[a|e] s1]; simpl in *; [done|].
  destruct (h e) as [k|] eqn:E; [|done]. by rewrite (Hh e k E).
Qed.

Lemma preserves_forM_ {A X : Type} (f : State -> X) (l : list A) (g : A -> M unit) :
  (forall x, preserves f (g x)) -> preserves f (forM_ l g).
Proof.
  intros Hg. induction l as [|x l IH]; simpl; [done|].
  apply preserves_bind; [apply Hg|done].
Qed.

Lemma counter_bump_ne c c' n st : c <> c' -> counter c (bump c' n st) = counter c st.
Proof. intros H. destruct c, c'; simpl; try done. Qed.

Lemma counter_bump_eq c n st : counter c (bump c n st) = wrap64 (counter c st + n).
Proof. by destruct c. Qed.

Section Frames.
Context (store : Store) (hl : HashLib) (lib : CacheLib) (cfg : Config).

Lemma queryPathInfo_counters p c :
  c <> cNarInfoRead -> preserves (fun s => counter c (stats s)) (queryPathInfo store lib p).
Proof.
  intros Hc s. unfold queryPathInfo, cacheLookup, queryPathInfoUncached, getFile,
    getFile_sink, invalidPath, try_catch, mbindM, gets, ret, throw, modify, lift.
  simpl. repeat (case_match; simpl in *; simplify_eq); try done;
    by apply counter_bump_ne.
Qed.

Lemma references_counters info l c :
  c <> cNarInfoRead ->
  preserves (fun s => counter c (stats s)) (forM_ l (checkReference store lib info)).
Proof.
  intros Hc. apply preserves_forM_. intros r. unfold checkReference.
  apply preserves_catch.
  - case_match; [|done]. apply preserves_bind; [|done].
    by apply queryPathInfo_counters.
  - intros e k. destruct e; try done. by intros [= <-].
Qed.

(** *** The debug-info links *)

Lemma addsLinks_refl s : addsLinks s s.
Proof. repeat split; auto. Qed.

Lemma addsLinks_trans s1 s2 s3 : addsLinks s1 s2 -> addsLinks s2 s3 -> addsLinks s1 s3.
Proof.
  intros (A1 & A2 & A3 & A4) (B1 & B2 & B3 & B4).
  split; [congruence|]. split; [congruence|]. split; [congruence|].
  intros k. destruct (A4 k) as [E|[? ?]]; [|by right].
  destruct (B4 k) as [E'|[? E']]; [left; congruence|right]. by rewrite <- E.
Qed.

Lemma doFile_adds member buildId target s :
  exists s', doFile lib member ("debuginfo/" +:+ buildId) target s = (Ok tt, s')
             /\ addsLinks s s'.
Proof.
  unfold doFile, fileExists, upsertFile, mbindM, gets, modify, ret.
  destruct (backend s !! ("debuginfo/" +:+ buildId)) as [v|] eqn:E.
  - eexists. split; [done|]. apply addsLinks_refl.
  - eexists. split; [done|]. repeat split; try done. intros k. cbn [backend set_backend].
    destruct (decide (k = "debuginfo/" +:+ buildId)) as [->|Hk].
    + right. split; [|done]. unfold is_prefix. by rewrite strip_prefix_app.
    + left. by rewrite lookup_insert_ne.
Qed.

Lemma debugInfoTasks_links acc url t :
  In t (debugInfoTasks lib acc url) ->
  exists member buildId target, t = doFile lib member ("debuginfo/" +:+ buildId) target.
Proof.
  unfold debugInfoTasks. rewrite in_flat_map. intros (s1 & _ & Ht).
  case_match; [done|]. apply in_flat_map in Ht as (s2 & _ & Ht).
  case_match; [done|]. destruct Ht as [<-|[]]. eauto.
Qed.

Lemma forM_links (tasks : list (M unit)) :
  (forall t, In t tasks ->
     exists member buildId target, t = doFile lib member ("debuginfo/" +:+ buildId) target) ->
  forall s, exists s', forM_ tasks (fun task => task) s = (Ok tt, s') /\ addsLinks s s'.
Proof.
  induction tasks as [|t tasks IH]; intros Ht s; simpl.
  - eexists. split; [done|]. apply addsLinks_refl.
  - destruct (Ht t (or_introl eq_refl)) as (m & b & tg & ->).
    destruct (doFile_adds m b tg s) as (s1 & E1 & A1).
    destruct (IH (fun t H => Ht t (or_intror H)) s1) as (s2 & E2 & A2).
    exists s2. split; [|by eapply addsLinks_trans].
    unfold mbindM. by rewrite E1.
Qed.

Lemma debugInfoStep_adds acc url s :
  exists s', debugInfoStep lib cfg acc url s = (Ok tt, s') /\ addsLinks s s'.
Proof.
  unfold debugInfoStep. destruct (writeDebugInfo cfg).
  - case_bool_decide.
    + apply forM_links. apply debugInfoTasks_links.
    + eexists. split; [done|]. apply addsLinks_refl.
  - eexists. split; [done|]. apply addsLinks_refl.
Qed.

(** *** The course of an ingestion *)

Lemma writeNarInfo_total ni s e s' : writeNarInfo lib ni s = (Raise e, s') -> False.
Proof.
  intros H. destruct (writeNarInfo_written lib ni s) as (E & _).
  by rewrite H in E.
Qed.

Lemma ingestChecked_state info nar repair s s2 acc :
  ingestChecked store hl lib cfg info nar repair s s2 acc ->
  backend s2 = backend s
  /\ forall c, c <> cNarInfoRead -> counter c (stats s2) = counter c (stats s).
Proof.
  intros [_ Hrefs _ _ _]. split.
  - pose proof (references_keep_backend store lib info (references info) s) as E.
    by rewrite Hrefs in E.
  - intros c Hc.
    pose proof (references_counters info (references info) c Hc s) as E.
    by rewrite Hrefs in E.
Qed.

Lemma addToStore_compress_fails info nar repair checkSigs duration s s2 acc e :
  ingestChecked store hl lib cfg info nar repair s s2 acc ->
  compress lib (cfg_compression cfg) nar (parallelCompression cfg) = Raise e ->
  addToStore store hl lib cfg info nar repair checkSigs duration s
  = (Raise e, snd (listingStep lib cfg info acc s2)).
Proof.
  intros [Hskip Hrefs Hmagic Hhash Hacc] Hc. unfold addToStore.
  rewrite (mbindM_ok _ _ _ _ _ Hskip). rewrite (mbindM_ok _ _ _ _ _ Hrefs).
  rewrite Hmagic. rewrite (mbindM_ok (ret tt) _ s2 tt s2 eq_refl).
  cbv zeta.
  rewrite (mbindM_ok _ _ s2 tt s2); cycle 1.
  { destruct Hhash as [->| ->]; [done|]. cbn [set_vpi with_nar NarInfo_of vpi narHash].
    by rewrite bool_decide_eq_true_2. }
  rewrite Hacc. rewrite (mbindM_ok (lift (Ok acc)) _ s2 acc s2 eq_refl).
  fold (listingKey info). fold (listingStep lib cfg info acc).
  destruct (listingStep lib cfg info acc s2) as [r s3] eqn:El.
  assert (r = Ok tt) as ->.
  { unfold listingStep in El. destruct (writeNARListing cfg); by injection El as <- _. }
  rewrite (mbindM_ok _ _ _ _ _ El). rewrite Hc. done.
Qed.

Lemma addToStore_completes info nar repair checkSigs duration s s2 acc c sD :
  ingestChecked store hl lib cfg info nar repair s s2 acc ->
  compress lib (cfg_compression cfg) nar (parallelCompression cfg) = Ok c ->
  debugInfoStep lib cfg acc (narUrl hl cfg c) (snd (listingStep lib cfg info acc s2))
  = (Ok tt, sD) ->
  addToStore store hl lib cfg info nar repair checkSigs duration s
  = (Ok tt, ingestFinal hl lib cfg info nar c repair duration sD).
Proof.
  intros [Hskip Hrefs Hmagic Hhash Hacc] Hc Hd. unfold addToStore.
  rewrite (mbindM_ok _ _ _ _ _ Hskip). rewrite (mbindM_ok _ _ _ _ _ Hrefs).
  rewrite Hmagic. rewrite (mbindM_ok (ret tt) _ s2 tt s2 eq_refl).
  cbv zeta.
  rewrite (mbindM_ok _ _ s2 tt s2); cycle 1.
  { destruct Hhash as [->| ->]; [done|]. cbn [set_vpi with_nar NarInfo_of vpi narHash].
    by rewrite bool_decide_eq_true_2. }
  rewrite Hacc. rewrite (mbindM_ok (lift (Ok acc)) _ s2 acc s2 eq_refl).
  fold (listingKey info). fold (listingStep lib cfg info acc).
  destruct (listingStep lib cfg info acc s2) as [r s3] eqn:El.
  assert (r = Ok tt) as ->.
  { unfold listingStep in El. destruct (writeNARListing cfg); by injection El as <- _. }
  rewrite (mbindM_ok _ _ _ _ _ El). rewrite Hc.
  rewrite (mbindM_ok (lift (Ok c)) _ s3 c s3 eq_refl).
  cbn [url]. fold (narUrl hl cfg c). fold (debugInfoStep lib cfg acc (narUrl hl cfg c)).
  cbn [snd] in Hd. rewrite (mbindM_ok _ _ _ _ _ Hd).
  set (ni := match secretKey cfg with Some key => _ | None => _ end).
  assert (ni = ingestRecord hl lib cfg info nar c) as Hni by reflexivity.
  clearbody ni. subst ni.
  unfold ingestFinal, narStep, countBytes, writesNar.
  unfold mbindM, fileExists, upsertFile, modify, gets, ret.
  destruct repair; cbn [orb negb].
  - destruct (writeNarInfo lib _ _) as [[[]|] ?] eqn:Ew; [done|].
    by destruct (writeNarInfo_total _ _ _ _ Ew).
  - destruct (backend sD !! narUrl hl cfg c); cbn [negb].
    + destruct (writeNarInfo lib _ _) as [[[]|] ?] eqn:Ew; [done|].
      by destruct (writeNarInfo_total _ _ _ _ Ew).
    + destruct (writeNarInfo lib _ _) as [[[]|] ?] eqn:Ew; [done|].
      by destruct (writeNarInfo_total _ _ _ _ Ew).
Qed.
End Frames.

(** ** The binary cache store: the course of an ingestion *)

Import BinaryCacheStore.

(** *** The keys of one ingestion are pairwise distinct *)

Lemma lastChar_app a b : b <> "" -> lastChar (a +:+ b) = lastChar b.
Proof.
  intros Hb. induction a as [|c a IH]; [done|]. rewrite sapp_cons. cbn [lastChar].
  rewrite IH. destruct (a +:+ b) eqn:E; [|done].
  destruct a; [by simpl in E|done].
Qed.

Lemma compressionExt_cases compression :
  compressionExt compression = ".xz" \/ compressionExt compression = ".bz2"
  \/ compressionExt compression = ".br" \/ compressionExt compression = "".
Proof. unfold compressionExt. repeat case_match; auto. Qed.

Lemma narUrl_lastChar hl cfg c :
  lastChar (narUrl hl cfg c) = Some "z"%char \/ lastChar (narUrl hl cfg c) = Some "2"%char
  \/ lastChar (narUrl hl cfg c) = Some "r"%char.
Proof.
  unfold narUrl. rewrite <- !sapp_assoc.
  destruct (compressionExt_cases (cfg_compression cfg)) as [-> | [-> | [-> | ->]]].
  - left. by rewrite lastChar_app.
  - right; left. by rewrite lastChar_app.
  - right; right. by rewrite lastChar_app.
  - right; right. rewrite sapp_nil_r. by rewrite lastChar_app.
Qed.

Lemma listingKey_lastChar info : lastChar (listingKey info) = Some "s"%char.
Proof. unfold listingKey. by rewrite lastChar_app. Qed.

Lemma narInfoFileFor_lastChar p : lastChar (narInfoFileFor p) = Some "o"%char.
Proof. unfold narInfoFileFor. by rewrite lastChar_app. Qed.

Lemma narUrl_ne_listingKey hl cfg c info : narUrl hl cfg c <> listingKey info.
Proof.
  intros E. pose proof (listingKey_lastChar info) as H. rewrite <- E in H.
  destruct (narUrl_lastChar hl cfg c) as [H'|[H'|H']]; congruence.
Qed.

Lemma narUrl_ne_narInfoFile hl cfg c p : narUrl hl cfg c <> narInfoFileFor p.
Proof.
  intros E. pose proof (narInfoFileFor_lastChar p) as H. rewrite <- E in H.
  destruct (narUrl_lastChar hl cfg c) as [H'|[H'|H']]; congruence.
Qed.

Lemma listingKey_ne_narInfoFile info p : listingKey info <> narInfoFileFor p.
Proof.
  intros E. pose proof (narInfoFileFor_lastChar p) as H. rewrite <- E in H.
  rewrite listingKey_lastChar in H. congruence.
Qed.

Lemma narUrl_no_link hl cfg c : is_prefix "debuginfo/" (narUrl hl cfg c) = false.
Proof. reflexivity. Qed.

Section Ingestion.
Context (store : Store) (hl : HashLib) (lib : CacheLib) (cfg : Config).

Lemma listingStep_state info acc s :
  listingStep lib cfg info acc s
  = (Ok tt,
     if writeNARListing cfg
     then set_backend <[listingKey info := (listNarJSON lib acc, "application/json")]> s
     else s).
Proof. unfold listingStep. by destruct (writeNARListing cfg). Qed.

Lemma addToStore_inv info nar repair checkSigs duration s s1 :
  addToStore store hl lib cfg info nar repair checkSigs duration s = (Ok tt, s1) ->
  alreadyValid info repair s = (Ok false, s) ->
  exists s2 acc c sD,
    ingestChecked store hl lib cfg info nar repair s s2 acc
    /\ compress lib (cfg_compression cfg) nar (parallelCompression cfg) = Ok c
    /\ addsLinks (snd (listingStep lib cfg info acc s2)) sD
    /\ s1 = ingestFinal hl lib cfg info nar c repair duration sD.
Proof.
  intros H0 Hskip. pose proof H0 as H. unfold addToStore in H.
  rewrite (mbindM_ok _ _ _ _ _ Hskip) in H.
  apply mbindM_inv in H as ([] & s2 & Hrefs & H).
  apply mbindM_inv in H as ([] & s3 & Hm & H).
  destruct (is_prefix (narMagic cfg) nar) eqn:Hmagic; [|done]. injection Hm as <-.
  cbv zeta in H.
  apply mbindM_inv in H as ([] & s4 & Hh & H).
  assert ((narHash info = None \/ narHash info = Some (hashString hl htSHA256 nar))
          /\ s4 = s2) as [Hhash ->].
  { destruct (narHash info) as [h|]; [|injection Hh as <-; auto].
    cbn [set_vpi with_nar NarInfo_of vpi narHash] in Hh.
    case_bool_decide as E; [|done]. injection Hh as <-. injection E as ->. auto. }
  apply mbindM_inv in H as (acc & s5 & Ha & H).
  unfold lift in Ha. injection Ha as Hacc <-.
  apply mbindM_inv in H as ([] & s6 & Hl & H).
  apply mbindM_inv in H as (c & s7 & Hc & H).
  unfold lift in Hc. injection Hc as Hc <-.
  assert (ingestChecked store hl lib cfg info nar repair s s2 acc) as Hic by done.
  destruct (debugInfoStep_adds lib cfg acc (narUrl hl cfg c)
              (snd (listingStep lib cfg info acc s2))) as (sD & Hd & Hadds).
  exists s2, acc, c, sD. repeat (split; [done|]).
  pose proof (addToStore_completes store hl lib cfg info nar repair checkSigs duration
                s s2 acc c sD Hic Hc Hd) as E.
  rewrite H0 in E. by injection E.
Qed.

Lemma ingestRecord_fields info nar c :
  let ni := ingestRecord hl lib cfg info nar c in
  path (vpi ni) = path info
  /\ narHash (vpi ni) = Some (hashString hl htSHA256 nar)
  /\ narSize (vpi ni) = Z.of_nat (String.length nar)
  /\ references (vpi ni) = references info
  /\ deriver (vpi ni) = deriver info
  /\ ca (vpi ni) = ca info
  /\ url ni = narUrl hl cfg c
  /\ compression ni = cfg_compression cfg
  /\ fileHash ni = Some (hashString hl htSHA256 c)
  /\ fileSize ni = Z.of_nat (String.length c).
Proof. unfold ingestRecord. by destruct (secretKey cfg). Qed.

Lemma ingestFinal_parts info nar c repair duration sD :
  let ni := ingestRecord hl lib cfg info nar c in
  let s1 := ingestFinal hl lib cfg info nar c repair duration sD in
  backend s1
  = <[narInfoFileFor (path info) := (NarInfo_to_string lib ni, "text/x-nix-narinfo")]>
      (backend (narStep repair (narUrl hl cfg c) c sD))
  /\ pathInfoCache s1 !! hashPart (path info) = Some (Some ni)
  /\ stats s1
     = bump cNarInfoWrite 1
         (stats (countBytes nar c duration (narStep repair (narUrl hl cfg c) c sD))).
Proof.
  intros ni s1. subst s1. unfold ingestFinal. fold ni.
  destruct (ingestRecord_fields info nar c) as (Hp & _). fold ni in Hp.
  destruct (writeNarInfo_written lib ni
              (countBytes nar c duration (narStep repair (narUrl hl cfg c) c sD)))
    as (_ & Hb & Hc).
  rewrite Hp in Hb, Hc. cbn [backend pathInfoCache stats set_stats].
  split; [exact Hb|]. split; [exact Hc|].
  generalize (countBytes nar c duration (narStep repair (narUrl hl cfg c) c sD)).
  intros s. unfold writeNarInfo, upsertFile, mbindM, modify, gets, ret. simpl.
  by destruct (diskCache s).
Qed.

(** The file at [k] after the listing and the links, for a key that is
    neither the one nor the other *)
Lemma links_frame info acc s2 sD k :
  addsLinks (snd (listingStep lib cfg info acc s2)) sD ->
  k <> listingKey info -> is_prefix "debuginfo/" k = false ->
  backend sD !! k = backend s2 !! k.
Proof.
  intros (_ & _ & _ & Hk) Hl Hd. rewrite listingStep_state in Hk. cbn [snd] in Hk.
  destruct (Hk k) as [->|[? _]]; [|congruence].
  destruct (writeNARListing cfg); [|done].
  cbn [backend set_backend]. by rewrite lookup_insert_ne.
Qed.

Lemma queryPathInfo_cached p ni s :
  pathInfoCache s !! hashPart p = Some (Some ni) ->
  queryPathInfo store lib p s = (Ok ni, s).
Proof.
  intros H. unfold queryPathInfo, cacheLookup, mbindM, gets. by rewrite H.
Qed.
End Ingestion.

(** ** The binary cache store: the files and counters of an ingestion *)

Import BinaryCacheStore.

Section IngestionFacts.
Context (store : Store) (hl : HashLib) (lib : CacheLib) (cfg : Config).

Lemma writesNar_before info nar repair s s2 acc c sD :
  ingestChecked store hl lib cfg info nar repair s s2 acc ->
  addsLinks (snd (listingStep lib cfg info acc s2)) sD ->
  backend sD !! narUrl hl cfg c = backend s !! narUrl hl cfg c
  /\ writesNar repair (narUrl hl cfg c) sD = writesNar repair (narUrl hl cfg c) s.
Proof.
  intros Hic Hadds.
  destruct (ingestChecked_state store hl lib cfg _ _ _ _ _ _ Hic) as [Hb _].
  assert (backend sD !! narUrl hl cfg c = backend s !! narUrl hl cfg c) as E.
  { rewrite (links_frame lib cfg info acc s2 sD _ Hadds); [by rewrite Hb| |].
    - apply narUrl_ne_listingKey.
    - apply narUrl_no_link. }
  split; [done|]. unfold writesNar. by rewrite E.
Qed.

(** The NAR file after a completed ingestion *)
Lemma ingestFinal_nar info nar repair duration s s2 acc c sD :
  ingestChecked store hl lib cfg info nar repair s s2 acc ->
  addsLinks (snd (listingStep lib cfg info acc s2)) sD ->
  backend (ingestFinal hl lib cfg info nar c repair duration sD) !! narUrl hl cfg c
  = if writesNar repair (narUrl hl cfg c) s
    then Some (c, "application/x-nix-nar")
    else backend s !! narUrl hl cfg c.
Proof.
  intros Hic Hadds.
  destruct (ingestFinal_parts hl lib cfg info nar c repair duration sD) as (-> & _).
  rewrite lookup_insert_ne by (intros E; by apply (narUrl_ne_narInfoFile hl cfg c (path info))).
  destruct (writesNar_before info nar repair s s2 acc c sD Hic Hadds) as [Eb Ew].
  unfold narStep. rewrite Ew. destruct (writesNar repair (narUrl hl cfg c) s).
  - cbn [backend set_backend]. by rewrite lookup_insert_eq.
  - done.
Qed.

Lemma ingestFinal_counter info nar repair duration s s2 acc c sD k :
  ingestChecked store hl lib cfg info nar repair s s2 acc ->
  addsLinks (snd (listingStep lib cfg info acc s2)) sD ->
  k <> cNarInfoRead ->
  counter k (stats (ingestFinal hl lib cfg info nar c repair duration sD))
  = counter k
      (bump cNarInfoWrite 1
         (bump cNarWriteCompressionTimeMs duration
            (bump cNarWriteCompressedBytes (Z.of_nat (String.length c))
               (bump cNarWriteBytes (Z.of_nat (String.length nar))
                  (bump (if writesNar repair (narUrl hl cfg c) s
                         then cNarWrite else cNarWriteAverted) 1 (stats s)))))).
Proof.
  intros Hic Hadds Hk.
  destruct (ingestFinal_parts hl lib cfg info nar c repair duration sD) as (_ & _ & ->).
  destruct (writesNar_before info nar repair s s2 acc c sD Hic Hadds) as [_ Ew].
  destruct (ingestChecked_state store hl lib cfg _ _ _ _ _ _ Hic) as [_ Hs].
  destruct Hadds as (_ & _ & Hst & _). rewrite listingStep_state in Hst. cbn [snd] in Hst.
  assert (stats sD = stats s2) as HsD.
  { rewrite Hst. by destruct (writeNARListing cfg). }
  specialize (Hs k Hk).
  unfold countBytes, narStep. rewrite Ew.
  destruct (writesNar repair (narUrl hl cfg c) s); cbn [stats set_stats set_backend];
    rewrite HsD; destruct k; try done; simpl in *; by rewrite Hs.
Qed.

Lemma isValidPath_hashPart p q s :
  hashPart p = hashPart q -> isValidPath p s = isValidPath q s.
Proof.
  intros E. unfold isValidPath, cacheLookup, isValidPathUncached, narInfoFileFor.
  by rewrite E.
Qed.

(** How a call can end, as far as the backend goes *)
Lemma addToStore_ends info nar repair checkSigs duration s :
  let r := addToStore store hl lib cfg info nar repair checkSigs duration s in
  backend (snd r) = backend s
  \/ (exists acc, backend (snd r)
                  = <[listingKey info := (listNarJSON lib acc, "application/json")]>
                      (backend s))
  \/ (exists s2 acc c sD,
        ingestChecked store hl lib cfg info nar repair s s2 acc
        /\ addsLinks (snd (listingStep lib cfg info acc s2)) sD
        /\ r = (Ok tt, ingestFinal hl lib cfg info nar c repair duration sD)).
Proof.
  intros r. subst r.
  pose proof (alreadyValid_keeps_state info repair s) as E1.
  destruct (alreadyValid info repair s) as [[[]|e] s0] eqn:Hskip;
    simpl in E1; subst s0.
  { left. unfold addToStore. by rewrite (mbindM_ok _ _ _ _ _ Hskip). }
  2:{ left. unfold addToStore. by rewrite (mbindM_raise _ _ _ _ _ Hskip). }
  pose proof (references_keep_backend store lib info (references info) s) as E2.
  destruct (forM_ (references info) (checkReference store lib info) s)
    as [[[]|e] s2] eqn:Hrefs; simpl in E2.
  2:{ left. unfold addToStore. rewrite (mbindM_ok _ _ _ _ _ Hskip).
      by rewrite (mbindM_raise _ _ _ _ _ Hrefs). }
  destruct (is_prefix (narMagic cfg) nar) eqn:Hmagic.
  2:{ left. unfold addToStore. rewrite (mbindM_ok _ _ _ _ _ Hskip).
      rewrite (mbindM_ok _ _ _ _ _ Hrefs), Hmagic.
      by rewrite (mbindM_raise (throw magicAssertion) _ s2 magicAssertion s2 eq_refl). }
  destruct (decide (narHash info = None
                    \/ narHash info = Some (hashString hl htSHA256 nar))) as [Hh|Hh].
  2:{ left. unfold addToStore. rewrite (mbindM_ok _ _ _ _ _ Hskip).
      rewrite (mbindM_ok _ _ _ _ _ Hrefs), Hmagic.
      rewrite (mbindM_ok (ret tt) _ s2 tt s2 eq_refl). cbv zeta.
      destruct (narHash info) as [h|] eqn:En; [|by destruct Hh; left].
      cbn [set_vpi with_nar NarInfo_of vpi narHash].
      rewrite bool_decide_eq_false_2 by (intros [= ->]; apply Hh; by right).
      cbn [negb].
      by rewrite (mbindM_raise (throw (corruptedPath store info)) _ s2 _ s2 eq_refl). }
  destruct (makeNarAccessor lib nar) as [acc|e] eqn:Hacc.
  2:{ left. unfold addToStore. rewrite (mbindM_ok _ _ _ _ _ Hskip).
      rewrite (mbindM_ok _ _ _ _ _ Hrefs), Hmagic.
      rewrite (mbindM_ok (ret tt) _ s2 tt s2 eq_refl). cbv zeta.
      rewrite (mbindM_ok _ _ s2 tt s2); cycle 1.
      { destruct Hh as [->| ->]; [done|].
        cbn [set_vpi with_nar NarInfo_of vpi narHash].
        by rewrite bool_decide_eq_true_2. }
      rewrite Hacc. by rewrite (mbindM_raise (lift (Raise e)) _ s2 e s2 eq_refl). }
  assert (ingestChecked store hl lib cfg info nar repair s s2 acc) as Hic by done.
  destruct (compress lib (cfg_compression cfg) nar (parallelCompression cfg))
    as [c|e] eqn:Hc.
  - right; right.
    destruct (debugInfoStep_adds lib cfg acc (narUrl hl cfg c)
                (snd (listingStep lib cfg info acc s2))) as (sD & Hd & Hadds).
    exists s2, acc, c, sD. split; [done|]. split; [done|].
    by apply (addToStore_completes store hl lib cfg info nar repair checkSigs duration
                s s2 acc c sD).
  - rewrite (addToStore_compress_fails store hl lib cfg info nar repair checkSigs
               duration s s2 acc e Hic Hc).
    rewrite listingStep_state. cbn [snd].
    destruct (writeNARListing cfg); [|by left].
    right; left. exists acc. cbn [backend set_backend]. by rewrite E2.
Qed.
End IngestionFacts.

(** ** The binary cache store: what an ingestion publishes *)

Import BinaryCacheStore.

(** X11.  A call of [addToStore] that is not skipped and returns
    normally has published the path: [queryPathInfo] and [isValidPath]
    answer from the cache without changing the state, the record holds
    the SHA-256 and the size of the NAR, the hash, size and key of the
    compressed file, the configured compression and the references of
    [info]; its [.narinfo] is in the backend, the file it names exists,
    and so does the listing when listings are written. *)
Theorem addToStore_publishes (store : Store) (hl : HashLib) (lib : CacheLib)
    (cfg : Config) (info : ValidPathInfo) (nar : string) (repair checkSigs : bool)
    (duration : Z) (s s1 : State) :
  addToStore store hl lib cfg info nar repair checkSigs duration s = (Ok tt, s1) ->
  alreadyValid info repair s = (Ok false, s) ->
  exists c acc ni,
    compress lib (cfg_compression cfg) nar (parallelCompression cfg) = Ok c
    /\ makeNarAccessor lib nar = Ok acc
    /\ queryPathInfo store lib (path info) s1 = (Ok ni, s1)
    /\ isValidPath (path info) s1 = (Ok true, s1)
    /\ backend s1 !! narInfoFileFor (path info)
       = Some (NarInfo_to_string lib ni, "text/x-nix-narinfo")
    /\ is_Some (backend s1 !! url ni)
    /\ (writeNARListing cfg = true ->
        backend s1 !! (baseName (path info) +:+ ".ls")
        = Some (listNarJSON lib acc, "application/json"))
    /\ path (vpi ni) = path info
    /\ narHash (vpi ni) = Some (hashString hl htSHA256 nar)
    /\ narSize (vpi ni) = Z.of_nat (String.length nar)
    /\ references (vpi ni) = references info
    /\ url ni = "nar/" +:+ to_base32 hl (hashString hl htSHA256 c) +:+ ".nar"
                +:+ compressionExt (cfg_compression cfg)
    /\ compression ni = cfg_compression cfg
    /\ fileHash ni = Some (hashString hl htSHA256 c)
    /\ fileSize ni = Z.of_nat (String.length c).
Proof.
  intros H Hskip.
  destruct (addToStore_inv store hl lib cfg info nar repair checkSigs duration s s1 H Hskip)
    as (s2 & acc & c & sD & Hic & Hc & Hadds & ->).
  exists c, acc, (ingestRecord hl lib cfg info nar c).
  destruct (ingestFinal_parts hl lib cfg info nar c repair duration sD) as (Hb & Hp & _).
  destruct (ingestRecord_fields hl lib cfg info nar c)
    as (F1 & F2 & F3 & F4 & _ & _ & F7 & F8 & F9 & F10).
  split; [done|]. split; [by destruct Hic|].
  split; [by apply queryPathInfo_cached|].
  split; [by eapply isValidPath_cached|].
  split; [by rewrite Hb, lookup_insert_eq|].
  split.
  { rewrite F7, (ingestFinal_nar store hl lib cfg info nar repair duration s s2 acc c sD)
      by done.
    unfold writesNar. destruct repair; cbn [orb]; [done|].
    by destruct (backend s !! narUrl hl cfg c). }
  split.
  { intros Hl. fold (listingKey info). rewrite Hb.
    rewrite lookup_insert_ne by (intros E; by apply (listingKey_ne_narInfoFile info (path info))).
    assert (backend (narStep repair (narUrl hl cfg c) c sD) !! listingKey info
            = backend sD !! listingKey info) as ->.
    { unfold narStep. destruct (writesNar _ _ _); [|done]. cbn [backend set_backend].
      rewrite lookup_insert_ne; [done|]. apply narUrl_ne_listingKey. }
    destruct Hadds as (_ & _ & _ & Hk). rewrite listingStep_state, Hl in Hk.
    cbn [snd backend set_backend] in Hk.
    destruct (Hk (listingKey info)) as [->|[_ E]].
    - by rewrite lookup_insert_eq.
    - by rewrite lookup_insert_eq in E. }
  done.
Qed.

Lemma addToStore_publishes_witness :
  let s1 := snd (addToStore (nixStore []) nixHash (exampleLib []) exampleConfig
                   (infoOf pathP [] None) exampleNar false true 5 emptyState) in
  exists c acc ni,
    compress (exampleLib []) "none" exampleNar false = Ok c
    /\ makeNarAccessor (exampleLib []) exampleNar = Ok acc
    /\ queryPathInfo (nixStore []) (exampleLib []) pathP s1 = (Ok ni, s1)
    /\ isValidPath pathP s1 = (Ok true, s1)
    /\ narHash (vpi ni) = Some (hashString nixHash htSHA256 exampleNar)
    /\ narSize (vpi ni) = 53%Z.
Proof.
  intros s1.
  destruct (addToStore_publishes (nixStore []) nixHash (exampleLib []) exampleConfig
              (infoOf pathP [] None) exampleNar false true 5 emptyState s1)
    as (c & acc & ni & H1 & H2 & H3 & H4 & _ & _ & _ & _ & H5 & H6 & _).
  - vm_compute; reflexivity.
  - reflexivity.
  - exists c, acc, ni. split; [exact H1|]. split; [exact H2|]. split; [exact H3|].
    split; [exact H4|]. split; [exact H5|exact H6].
Defined.

(** X12.  What is ingested can be exported: after a call of
    [addToStore] that is not skipped, wrote the NAR file (repair, or no
    file under its key before) and returned normally, [narFromPath] on
    the path delivers the bytes that were ingested, provided the
    decompressor undoes the compressor on them.  The export counts one
    NAR and its bytes and writes nothing to the backend. *)
Theorem addToStore_then_narFromPath (store : Store) (hl : HashLib) (lib : CacheLib)
    (cfg : Config) (info : ValidPathInfo) (nar : string) (repair checkSigs : bool)
    (duration : Z) (s s1 : State) (c : string) :
  addToStore store hl lib cfg info nar repair checkSigs duration s = (Ok tt, s1) ->
  alreadyValid info repair s = (Ok false, s) ->
  compress lib (cfg_compression cfg) nar (parallelCompression cfg) = Ok c ->
  writesNar repair (narUrl hl cfg c) s = true ->
  decompressionKnown lib (cfg_compression cfg) = true ->
  decompress lib (cfg_compression cfg) c = Ok nar ->
  exists s2,
    narFromPath store lib (path info) s1 = (Ok nar, s2)
    /\ backend s2 = backend s1
    /\ narRead (stats s2) = wrap64 (narRead (stats s1) + 1)
    /\ narReadBytes (stats s2)
       = wrap64 (narReadBytes (stats s1) + Z.of_nat (String.length nar)).
Proof.
  intros H Hskip Hc Hw Hk Hd.
  destruct (addToStore_inv store hl lib cfg info nar repair checkSigs duration s s1 H Hskip)
    as (s2 & acc & c' & sD & Hic & Hc' & Hadds & ->).
  rewrite Hc in Hc'. injection Hc' as <-.
  destruct (ingestFinal_parts hl lib cfg info nar c repair duration sD) as (_ & Hp & _).
  destruct (ingestRecord_fields hl lib cfg info nar c)
    as (_ & _ & _ & _ & _ & _ & F7 & F8 & _).
  pose proof (ingestFinal_nar store hl lib cfg info nar repair duration s s2 acc c sD
                Hic Hadds) as Hnar.
  rewrite Hw in Hnar.
  eexists. split.
  - unfold narFromPath.
    rewrite (mbindM_ok _ _ _ _ _ (queryPathInfo_cached store lib _ _ _ Hp)).
    rewrite F8, Hk, F7.
    unfold try_catch, getFile_sink, gets, ret, lift, modify, mbindM. cbv beta.
    rewrite Hnar. cbv beta iota. rewrite Hd. reflexivity.
  - split; [reflexivity|]. split; reflexivity.
Qed.

Lemma addToStore_then_narFromPath_witness :
  let s1 := snd (addToStore (nixStore []) nixHash (exampleLib []) exampleConfig
                   (infoOf pathP [] None) exampleNar false true 5 emptyState) in
  exists s2,
    narFromPath (nixStore []) (exampleLib []) pathP s1 = (Ok exampleNar, s2)
    /\ backend s2 = backend s1
    /\ narRead (stats s2) = wrap64 (narRead (stats s1) + 1)
    /\ narReadBytes (stats s2)
       = wrap64 (narReadBytes (stats s1) + Z.of_nat (String.length exampleNar)).
Proof.
  intros s1.
  apply (addToStore_then_narFromPath (nixStore []) nixHash (exampleLib []) exampleConfig
           (infoOf pathP [] None) exampleNar false true 5 emptyState s1 exampleNar).
  - vm_compute; reflexivity.
  - reflexivity.
  - reflexivity.
  - reflexivity.
  - reflexivity.
  - reflexivity.
Defined.

(** X13.  The NAR file and the counters of a call of [addToStore] that
    is not skipped and returns normally.  With repair, or with no file
    under the key of the compressed NAR before the call, the compressed
    NAR is written there and [narWrite] goes up by one; otherwise the
    file that was there stays as it is, whatever it holds, and
    [narWriteAverted] goes up by one.  In both cases [narInfoWrite] goes
    up by one, the byte counters by the sizes, the time counter by the
    duration, and the read counters of NARs stay. *)
Theorem addToStore_nar_file (store : Store) (hl : HashLib) (lib : CacheLib)
    (cfg : Config) (info : ValidPathInfo) (nar : string) (repair checkSigs : bool)
    (duration : Z) (s s1 : State) :
  addToStore store hl lib cfg info nar repair checkSigs duration s = (Ok tt, s1) ->
  alreadyValid info repair s = (Ok false, s) ->
  exists c,
    compress lib (cfg_compression cfg) nar (parallelCompression cfg) = Ok c
    /\ (let key := narUrl hl cfg c in
        if repair || negb (bool_decide (is_Some (backend s !! key)))
        then backend s1 !! key = Some (c, "application/x-nix-nar")
             /\ narWrite (stats s1) = wrap64 (narWrite (stats s) + 1)
             /\ narWriteAverted (stats s1) = narWriteAverted (stats s)
        else backend s1 !! key = backend s !! key
             /\ narWrite (stats s1) = narWrite (stats s)
             /\ narWriteAverted (stats s1) = wrap64 (narWriteAverted (stats s) + 1))
    /\ narInfoWrite (stats s1) = wrap64 (narInfoWrite (stats s) + 1)
    /\ narWriteBytes (stats s1)
       = wrap64 (narWriteBytes (stats s) + Z.of_nat (String.length nar))
    /\ narWriteCompressedBytes (stats s1)
       = wrap64 (narWriteCompressedBytes (stats s) + Z.of_nat (String.length c))
    /\ narWriteCompressionTimeMs (stats s1)
       = wrap64 (narWriteCompressionTimeMs (stats s) + duration)
    /\ narRead (stats s1) = narRead (stats s)
    /\ narReadBytes (stats s1) = narReadBytes (stats s).
Proof.
  intros H Hskip.
  destruct (addToStore_inv store hl lib cfg info nar repair checkSigs duration s s1 H Hskip)
    as (s2 & acc & c & sD & Hic & Hc & Hadds & ->).
  exists c. split; [done|].
  pose proof (ingestFinal_nar store hl lib cfg info nar repair duration s s2 acc c sD
                Hic Hadds) as Hnar.
  pose proof (fun k => ingestFinal_counter store hl lib cfg info nar repair duration
                         s s2 acc c sD k Hic Hadds) as Hk.
  pose proof (Hk cNarWrite ltac:(done)) as K1.
  pose proof (Hk cNarWriteAverted ltac:(done)) as K2.
  pose proof (Hk cNarInfoWrite ltac:(done)) as K3.
  pose proof (Hk cNarWriteBytes ltac:(done)) as K4.
  pose proof (Hk cNarWriteCompressedBytes ltac:(done)) as K5.
  pose proof (Hk cNarWriteCompressionTimeMs ltac:(done)) as K6.
  pose proof (Hk cNarRead ltac:(done)) as K7.
  pose proof (Hk cNarReadBytes ltac:(done)) as K8.
  clear Hk.
  assert (writesNar repair (narUrl hl cfg c) s
          = repair || negb (bool_decide (is_Some (backend s !! narUrl hl cfg c)))) as Ew.
  { unfold writesNar. destruct (backend s !! narUrl hl cfg c); [|done].
    by rewrite bool_decide_eq_true_2. }
  cbv zeta. rewrite <- Ew.
  destruct (writesNar repair (narUrl hl cfg c) s); simpl in *; by repeat split.
Qed.

Lemma addToStore_nar_file_witness :
  let s1 := snd (addToStore (nixStore []) nixHash (exampleLib []) exampleConfig
                   (infoOf pathP [] None) exampleNar false true 5 emptyState) in
  exists c,
    compress (exampleLib []) "none" exampleNar false = Ok c
    /\ narInfoWrite (stats s1) = wrap64 (narInfoWrite (stats emptyState) + 1)
    /\ narWriteBytes (stats s1)
       = wrap64 (narWriteBytes (stats emptyState) + Z.of_nat (String.length exampleNar)).
Proof.
  intros s1.
  destruct (addToStore_nar_file (nixStore []) nixHash (exampleLib []) exampleConfig
              (infoOf pathP [] None) exampleNar false true 5 emptyState s1)
    as (c & H1 & _ & H2 & H3 & _).
  - vm_compute; reflexivity.
  - reflexivity.
  - exists c. split; [exact H1|]. split; [exact H2|exact H3].
Defined.

(** ** The binary cache store: what an ingestion never does *)

Import BinaryCacheStore.

Lemma is_prefix_spec p k : is_prefix p k = true -> exists rest, k = p +:+ rest.
Proof.
  unfold is_prefix. revert k. induction p as [|c p IH]; intros k; simpl.
  - intros _. by exists k.
  - destruct k as [|c' k]; [done|]. destruct (Ascii.eqb c c') eqn:E; [|done].
    apply Ascii.eqb_eq in E as <-. intros H. destruct (IH k H) as [rest ->]. by exists rest.
Qed.

Lemma without_slash_no_link k :
  without "/" k = true -> is_prefix "debuginfo/" k = false.
Proof.
  intros Hw. destruct (is_prefix "debuginfo/" k) eqn:E; [|done].
  apply is_prefix_spec in E as [rest ->].
  unfold without in Hw. by rewrite string_forall_app in Hw.
Qed.

Lemma string_forall_substring P s : forall n m,
  string_forall P s = true -> string_forall P (String.substring n m s) = true.
Proof.
  induction s as [|c s IH]; intros n m H.
  - by destruct n, m.
  - simpl in H. apply andb_true_iff in H as [Hc Hs].
    destruct n as [|n]; [destruct m as [|m]; [done|]|]; simpl.
    + by rewrite Hc, IH.
    + by apply IH.
Qed.

Section Frame.
Context (store : Store) (hl : HashLib) (lib : CacheLib) (cfg : Config).

Lemma ingestFinal_lookup info nar repair duration s2 acc c sD k :
  addsLinks (snd (listingStep lib cfg info acc s2)) sD ->
  backend (ingestFinal hl lib cfg info nar c repair duration sD) !! k
  = if decide (k = narInfoFileFor (path info))
    then Some (NarInfo_to_string lib (ingestRecord hl lib cfg info nar c),
               "text/x-nix-narinfo")
    else if decide (k = narUrl hl cfg c)
    then backend (narStep repair (narUrl hl cfg c) c sD) !! k
    else if decide (k = listingKey info)
    then backend sD !! k
    else if is_prefix "debuginfo/" k
    then backend sD !! k
    else backend s2 !! k.
Proof.
  intros Hadds.
  destruct (ingestFinal_parts hl lib cfg info nar c repair duration sD) as (-> & _).
  destruct (decide (k = narInfoFileFor (path info))) as [->|H1];
    [by rewrite lookup_insert_eq|].
  rewrite lookup_insert_ne by done.
  destruct (decide (k = narUrl hl cfg c)) as [->|H2]; [done|].
  assert (backend (narStep repair (narUrl hl cfg c) c sD) !! k = backend sD !! k) as ->.
  { unfold narStep. destruct (writesNar _ _ _); [|done]. cbn [backend set_backend].
    by rewrite lookup_insert_ne. }
  destruct (decide (k = listingKey info)) as [->|H3]; [done|].
  destruct (is_prefix "debuginfo/" k) eqn:H4; [done|].
  by apply (links_frame lib cfg info acc s2 sD).
Qed.
End Frame.

(** X14.  [addToStore] only adds to the backend, however the call ends:
    a file that was there before the call is there after it, and the
    only files that can differ are the listing and the [.narinfo] of the
    path, files under [nar/] and files under [debuginfo/]. *)
Theorem addToStore_only_its_keys (store : Store) (hl : HashLib) (lib : CacheLib)
    (cfg : Config) (info : ValidPathInfo) (nar : string) (repair checkSigs : bool)
    (duration : Z) (s : State) :
  let s1 := snd (addToStore store hl lib cfg info nar repair checkSigs duration s) in
  (forall k, is_Some (backend s !! k) -> is_Some (backend s1 !! k))
  /\ (forall k,
        k <> baseName (path info) +:+ ".ls" -> k <> narInfoFileFor (path info) ->
        is_prefix "nar/" k = false -> is_prefix "debuginfo/" k = false ->
        backend s1 !! k = backend s !! k).
Proof.
  intros s1. subst s1.
  destruct (addToStore_ends store hl lib cfg info nar repair checkSigs duration s)
    as [E|[[acc E]|(s2 & acc & c & sD & Hic & Hadds & E)]].
  - rewrite E. split; [done|]. done.
  - rewrite E. split.
    + intros k Hk. rewrite lookup_insert_is_Some. destruct (decide (listingKey info = k)); auto.
    + intros k H1 _ _ _. by rewrite lookup_insert_ne.
  - rewrite E. cbn [snd].
    destruct (ingestChecked_state store hl lib cfg _ _ _ _ _ _ Hic) as [Hb _].
    split.
    + intros k Hk.
      rewrite (ingestFinal_lookup hl lib cfg info nar repair duration s2 acc c sD k Hadds).
      destruct (decide (k = narInfoFileFor (path info))); [done|].
      assert (is_Some (backend sD !! k)) as HD.
      { destruct Hadds as (_ & _ & _ & Hl). rewrite listingStep_state in Hl.
        cbn [snd] in Hl. rewrite <- Hb in Hk.
        assert (is_Some ((if writeNARListing cfg
                          then set_backend
                                 <[listingKey info
                                   := (listNarJSON lib acc, "application/json")]> s2
                          else s2).(backend) !! k)) as HL.
        { destruct (writeNARListing cfg); [|done]. cbn [backend set_backend].
          rewrite lookup_insert_is_Some. destruct (decide (listingKey info = k)); auto. }
        destruct (Hl k) as [->|[_ En]]; [done|]. rewrite En in HL. by destruct HL. }
      destruct (decide (k = narUrl hl cfg c)) as [->|].
      { unfold narStep. destruct (writesNar _ _ _); [|done]. cbn [backend set_backend].
        by rewrite lookup_insert_eq. }
      destruct (decide (k = listingKey info)); [done|].
      destruct (is_prefix "debuginfo/" k); [done|]. by rewrite Hb.
    + intros k H1 H2 H3 H4.
      rewrite (ingestFinal_lookup hl lib cfg info nar repair duration s2 acc c sD k Hadds).
      destruct (decide (k = narInfoFileFor (path info))); [done|].
      destruct (decide (k = narUrl hl cfg c)) as [->|]; [done|].
      destruct (decide (k = listingKey info)); [done|].
      by rewrite H4, Hb.
Qed.

(** X15.  [addToStore] never replaces a debug-info link: the file under
    a key [debuginfo/...] that exists before the call is unchanged after
    it, however the call ends, for a path whose base name has no
    slash. *)
Theorem addToStore_keeps_links (store : Store) (hl : HashLib) (lib : CacheLib)
    (cfg : Config) (info : ValidPathInfo) (nar : string) (repair checkSigs : bool)
    (duration : Z) (s : State) (k : string) (v : string * string) :
  without "/" (baseName (path info)) = true ->
  is_prefix "debuginfo/" k = true ->
  backend s !! k = Some v ->
  backend (snd (addToStore store hl lib cfg info nar repair checkSigs duration s)) !! k
  = Some v.
Proof.
  intros Hw Hk Hv.
  assert (k <> listingKey info) as Hl.
  { intros ->. unfold listingKey in Hk. rewrite without_slash_no_link in Hk; [done|].
    unfold without in *. by rewrite string_forall_app, Hw. }
  assert (k <> narInfoFileFor (path info)) as Hn.
  { intros ->. unfold narInfoFileFor in Hk. rewrite without_slash_no_link in Hk; [done|].
    unfold without in *. rewrite string_forall_app. unfold hashPart.
    by rewrite string_forall_substring. }
  destruct (addToStore_ends store hl lib cfg info nar repair checkSigs duration s)
    as [E|[[acc E]|(s2 & acc & c & sD & Hic & Hadds & E)]].
  - by rewrite E.
  - rewrite E. by rewrite lookup_insert_ne.
  - rewrite E. cbn [snd].
    destruct (ingestChecked_state store hl lib cfg _ _ _ _ _ _ Hic) as [Hb _].
    rewrite (ingestFinal_lookup hl lib cfg info nar repair duration s2 acc c sD k Hadds).
    destruct (decide (k = narInfoFileFor (path info))); [done|].
    destruct (decide (k = narUrl hl cfg c)) as [->|]; [by rewrite narUrl_no_link in Hk|].
    destruct (decide (k = listingKey info)); [done|]. rewrite Hk.
    destruct Hadds as (_ & _ & _ & Hadds). rewrite listingStep_state in Hadds.
    cbn [snd] in Hadds.
    assert ((if writeNARListing cfg
             then set_backend
                    <[listingKey info := (listNarJSON lib acc, "application/json")]> s2
             else s2).(backend) !! k = Some v) as HL.
    { destruct (writeNARListing cfg); cbn [backend set_backend];
        [rewrite lookup_insert_ne by done|]; by rewrite Hb. }
    destruct (Hadds k) as [->|[_ En]]; [done|]. by rewrite En in HL.
Qed.

Lemma addToStore_keeps_links_witness :
  let k := "debuginfo/0123456789abcdef0123456789abcdef01234567.debug" in
  let v := ("{archive:../nar/old.nar,member:lib/debug/x.debug}", "application/json") in
  without "/" (baseName (path (infoOf pathP [] None))) = true
  /\ backend stateWithLink !! k = Some v
  /\ backend (snd (addToStore (nixStore []) nixHash (exampleLib []) exampleConfig
                     (infoOf pathP [] None) exampleNar false true 5 stateWithLink)) !! k
     = Some v.
Proof.
  intros k v. split; [reflexivity|]. split; [reflexivity|].
  apply (addToStore_keeps_links (nixStore []) nixHash (exampleLib []) exampleConfig
           (infoOf pathP [] None) exampleNar false true 5 stateWithLink k v).
  - reflexivity.
  - reflexivity.
  - reflexivity.
Defined.

(** X16.  A failure of the compressor comes after the listing was
    written: a call that passes every check and whose compression fails
    raises the exception of the compressor and leaves the listing in the
    backend when listings are written; nothing else is written, in
    particular no [.narinfo], so the path is not made valid. *)
Theorem addToStore_compress_failure (store : Store) (hl : HashLib) (lib : CacheLib)
    (cfg : Config) (info : ValidPathInfo) (nar : string) (repair checkSigs : bool)
    (duration : Z) (s s2 : State) (narAccessor : NarAccessor) (e : Exn) :
  ingestChecked store hl lib cfg info nar repair s s2 narAccessor ->
  compress lib (cfg_compression cfg) nar (parallelCompression cfg) = Raise e ->
  exists s',
    addToStore store hl lib cfg info nar repair checkSigs duration s = (Raise e, s')
    /\ backend s'
       = (if writeNARListing cfg
          then <[baseName (path info) +:+ ".ls"
                 := (listNarJSON lib narAccessor, "application/json")]> (backend s)
          else backend s)
    /\ backend s' !! narInfoFileFor (path info) = backend s !! narInfoFileFor (path info)
    /\ pathInfoCache s' = pathInfoCache s2 /\ diskCache s' = diskCache s2.
Proof.
  intros Hic Hc. eexists. split.
  { by apply (addToStore_compress_fails store hl lib cfg info nar repair checkSigs duration
                s s2 narAccessor e). }
  destruct (ingestChecked_state store hl lib cfg _ _ _ _ _ _ Hic) as [Hb _].
  rewrite listingStep_state. cbn [snd]. fold (listingKey info).
  destruct (writeNARListing cfg); cbn [backend set_backend pathInfoCache diskCache];
    rewrite Hb; repeat split.
  rewrite lookup_insert_ne; [done|]. apply listingKey_ne_narInfoFile.
Qed.

Lemma xz_checked :
  ingestChecked (nixStore []) nixHash (exampleLib []) xzConfig (infoOf pathP [] None)
    exampleNar false emptyState emptyState
    {| acc_stat p := if String.eqb p "" then tRegular else tMissing;
       acc_readDirectory _ := [] |}.
Proof. split; try reflexivity. by left. Qed.

Lemma addToStore_compress_failure_witness :
  exists s',
    addToStore (nixStore []) nixHash (exampleLib []) xzConfig (infoOf pathP [] None)
      exampleNar false true 5 emptyState
    = (Raise (UnknownCompressionMethod "unknown compression method 'xz'"), s')
    /\ backend s' !! "aaaaaaaaaaaaaaaaaaaaaaaaaaaaaaaa-hello.ls"
       = Some ("{version:1,root:{type:regular}}", "application/json")
    /\ backend s' !! "aaaaaaaaaaaaaaaaaaaaaaaaaaaaaaaa.narinfo" = None.
Proof.
  destruct (addToStore_compress_failure (nixStore []) nixHash (exampleLib []) xzConfig
              (infoOf pathP [] None) exampleNar false true 5 emptyState emptyState _
              (UnknownCompressionMethod "unknown compression method 'xz'")
              xz_checked eq_refl)
    as (s' & H1 & H2 & H3 & _).
  exists s'. split; [exact H1|]. split.
  - rewrite H2. reflexivity.
  - exact H3.
Defined.

(** X17.  Validity goes by the hash part alone.  After [addToStore]
    has returned normally for a path, a call without repair for any
    path with the same hash part -- another name, other contents -- is
    skipped as already valid: it returns normally and leaves the state
    as it is, so the second path is never uploaded. *)
Theorem addToStore_same_hash_part (store : Store) (hl : HashLib) (lib : CacheLib)
    (cfg : Config) (info info' : ValidPathInfo) (nar nar' : string)
    (checkSigs checkSigs' : bool) (duration duration' : Z) (s s1 : State) :
  addToStore store hl lib cfg info nar false checkSigs duration s = (Ok tt, s1) ->
  hashPart (path info') = hashPart (path info) ->
  addToStore store hl lib cfg info' nar' false checkSigs' duration' s1 = (Ok tt, s1)
  /\ isValidPath (path info') s1 = (Ok true, s1).
Proof.
  intros H Hp.
  assert (isValidPath (path info') s1 = (Ok true, s1)) as Hv.
  { rewrite (isValidPath_hashPart (path info') (path info)) by done.
    apply addToStore_returned in H as [[Hv ->]|[ni Hni]]; [done|].
    by eapply isValidPath_cached. }
  split; [|done]. unfold addToStore.
  assert (alreadyValid info' false s1 = (Ok true, s1)) as Ha by done.
  by rewrite (mbindM_ok _ _ _ _ _ Ha).
Qed.

Lemma addToStore_same_hash_part_witness :
  let s1 := snd (addToStore (nixStore []) nixHash (exampleLib []) exampleConfig
                   (infoOf pathP [] None) exampleNar false true 5 emptyState) in
  hashPart pathP' = hashPart pathP
  /\ addToStore (nixStore []) nixHash (exampleLib []) exampleConfig
       (infoOf pathP' [] None) (exampleMagic +:+ "(other contents)") false true 7 s1
     = (Ok tt, s1)
  /\ isValidPath pathP' s1 = (Ok true, s1).
Proof.
  intros s1. split; [reflexivity|].
  apply (addToStore_same_hash_part (nixStore []) nixHash (exampleLib []) exampleConfig
           (infoOf pathP [] None) (infoOf pathP' [] None) exampleNar
           (exampleMagic +:+ "(other contents)") true true 5 7 emptyState s1).
  - vm_compute; reflexivity.
  - reflexivity.
Defined.

(** ** The binary cache store: records and signatures *)

Import BinaryCacheStore.

(** X18.  A record written by [writeNarInfo] is what another store
    object over the same backend reads: when the [.narinfo] codec reads
    back what it prints for the record, [queryPathInfoUncached] on any
    path with the hash part of the record returns the record and counts
    one read, [isValidPathUncached] holds, and [queryPathInfo] from
    empty caches returns the record. *)
Theorem writeNarInfo_read_back (store : Store) (lib : CacheLib) (ni : NarInfo)
    (p : StorePath) (s s' : State) :
  NarInfo_parse lib (NarInfo_to_string lib ni) (narInfoFileFor (path (vpi ni))) = Ok ni ->
  hashPart p = hashPart (path (vpi ni)) ->
  backend s' = backend (snd (writeNarInfo lib ni s)) ->
  queryPathInfoUncached lib p s' = (Ok (Some ni), set_stats (bump cNarInfoRead 1) s')
  /\ isValidPathUncached p s' = (Ok true, s')
  /\ (pathInfoCache s' = ∅ -> diskCache s' = None ->
      fst (queryPathInfo store lib p s') = Ok ni).
Proof.
  intros Hparse Hp Hb.
  destruct (writeNarInfo_written lib ni s) as (_ & Hw & _). rewrite Hw in Hb.
  assert (backend s' !! narInfoFileFor p
          = Some (NarInfo_to_string lib ni, "text/x-nix-narinfo")) as Hl.
  { rewrite Hb. unfold narInfoFileFor. rewrite Hp. apply lookup_insert_eq. }
  assert (narInfoFileFor p = narInfoFileFor (path (vpi ni))) as Hk
    by (unfold narInfoFileFor; by rewrite Hp).
  assert (queryPathInfoUncached lib p s'
          = (Ok (Some ni), set_stats (bump cNarInfoRead 1) s')) as Hq.
  { unfold queryPathInfoUncached, getFile, try_catch, getFile_sink, gets, ret, lift,
      modify, mbindM. cbv beta. rewrite Hl. cbv beta iota. by rewrite Hk, Hparse. }
  split; [done|]. split.
  - unfold isValidPathUncached, fileExists, gets. by rewrite Hl.
  - intros Hc Hd. unfold queryPathInfo, cacheLookup, gets.
    unfold mbindM at 1. rewrite Hc, Hd, lookup_empty.
    unfold mbindM at 1. by rewrite Hq.
Qed.

Lemma writeNarInfo_read_back_witness :
  let lib := exampleLib [recordP] in
  let s' := {| backend := backend (snd (writeNarInfo lib recordP emptyState));
               pathInfoCache := ∅; diskCache := None; stats := emptyStats |} in
  queryPathInfoUncached lib pathP' s' = (Ok (Some recordP), set_stats (bump cNarInfoRead 1) s')
  /\ isValidPathUncached pathP' s' = (Ok true, s')
  /\ (pathInfoCache s' = ∅ -> diskCache s' = None ->
      fst (queryPathInfo (nixStore []) lib pathP' s') = Ok recordP).
Proof.
  intros lib s'.
  apply (writeNarInfo_read_back (nixStore []) lib recordP pathP' emptyState s').
  - vm_compute; reflexivity.
  - reflexivity.
  - reflexivity.
Defined.

(** *** Signatures *)

Lemma set_insert_all_twice (xs l : list string) :
  increasing strcmp l ->
  set_insert_all strcmp xs (set_insert_all strcmp xs l) = set_insert_all strcmp xs l.
Proof.
  intros Hl. apply (increasing_unique strcmp).
  - by do 2 apply (increasing_set_insert_all strcmp).
  - by apply (increasing_set_insert_all strcmp).
  - intros x. rewrite !(In_set_insert_all strcmp). tauto.
Qed.

Lemma writeNarInfo_twice lib ni s :
  writeNarInfo lib ni (snd (writeNarInfo lib ni s)) = (Ok tt, snd (writeNarInfo lib ni s)).
Proof.
  unfold writeNarInfo, upsertFile, mbindM, modify, gets, ret. simpl.
  destruct s as [b c [d|] st]; simpl; unfold set_backend, set_pathInfoCache, set_diskCache;
    simpl; by rewrite !insert_insert_eq.
Qed.

(** X19.  [addSignatures] on a path without record raises what
    [queryPathInfo] raises and writes nothing.  On a path with a record
    whose signatures are in order, adding the same signatures a second
    time changes nothing at all: the second call returns normally and
    leaves backend, caches and counters as the first call left them. *)
Theorem addSignatures_idempotent (store : Store) (lib : CacheLib) (p : StorePath)
    (newSigs : StringSet) (s : State) :
  (forall e s0, queryPathInfo store lib p s = (Raise e, s0) ->
     addSignatures store lib p newSigs s = (Raise e, s0) /\ backend s0 = backend s)
  /\ (forall ni s0, queryPathInfo store lib p s = (Ok ni, s0) ->
        hashPart (path (vpi ni)) = hashPart p ->
        increasingb strcmp (sigs (vpi ni)) = true ->
        exists s1,
          addSignatures store lib p newSigs s = (Ok tt, s1)
          /\ addSignatures store lib p newSigs s1 = (Ok tt, s1)).
Proof.
  split.
  - intros e s0 Hq. split.
    + unfold addSignatures. by rewrite (mbindM_raise _ _ _ _ _ Hq).
    + pose proof (queryPathInfo_keeps_backend store lib p s) as E. by rewrite Hq in E.
  - intros ni s0 Hq Hp Hi. apply (increasingb_spec strcmp) in Hi.
    set (ni' := set_vpi (fun i => with_sigs (set_insert_all strcmp newSigs (sigs i)) i) ni).
    exists (snd (writeNarInfo lib ni' s0)).
    destruct (writeNarInfo_written lib ni' s0) as (Hw1 & _ & Hw3).
    split.
    + unfold addSignatures. rewrite (mbindM_ok _ _ _ _ _ Hq). fold ni'.
      by destruct (writeNarInfo lib ni' s0) as [[[]|] ?].
    + unfold addSignatures.
      assert (pathInfoCache (snd (writeNarInfo lib ni' s0)) !! hashPart p = Some (Some ni'))
        as Hc by (by rewrite <- Hp).
      rewrite (mbindM_ok _ _ _ _ _ (queryPathInfo_cached store lib _ _ _ Hc)).
      assert (set_vpi (fun i => with_sigs (set_insert_all strcmp newSigs (sigs i)) i) ni'
              = ni') as ->.
      { unfold ni', set_vpi, with_sigs. cbn [vpi sigs]. by rewrite set_insert_all_twice. }
      apply writeNarInfo_twice.
Qed.

Lemma addSignatures_idempotent_witness :
  let lib := exampleLib [recordP] in
  exists s1,
    addSignatures (nixStore []) lib pathP ["cache.example.org-1:c2ln"] stateGone = (Ok tt, s1)
    /\ addSignatures (nixStore []) lib pathP ["cache.example.org-1:c2ln"] s1 = (Ok tt, s1).
Proof.
  intros lib.
  destruct (addSignatures_idempotent (nixStore []) lib pathP ["cache.example.org-1:c2ln"]
              stateGone) as [_ H].
  apply (H recordP (snd (queryPathInfo (nixStore []) lib pathP stateGone))).
  - vm_compute; reflexivity.
  - reflexivity.
  - reflexivity.
Defined.

(** ** The binary cache store: initialisation, texts, logs and derivations *)

Import BinaryCacheStore.

Lemma substring_all s : String.substring 0 (String.length s) s = s.
Proof. induction s as [|c s IH]; simpl; [done|]. by rewrite IH. Qed.

Section Init.
Context (store : Store) (util : Util) (slib : StoreLib).

(** The line [StoreDir: <dir>] as the loop of [init] takes it apart *)
Lemma initLines_storeDir dir lines acc :
  trim util (" " +:+ dir) = dir ->
  initLines store util slib (("StoreDir: " +:+ dir) :: lines) acc
  = if String.eqb dir (storeDir store)
    then initLines store util slib lines acc
    else Raise (storeDirMismatch store slib dir).
Proof.
  intros Ht. cbn [initLines].
  change (String.index 0 ":" ("StoreDir: " +:+ dir)) with (Some 8).
  cbv beta iota zeta.
  change (String.substring 0 8 ("StoreDir: " +:+ dir)) with "StoreDir".
  change (String.substring (8 + 1) (String.length ("StoreDir: " +:+ dir) - (8 + 1))
            ("StoreDir: " +:+ dir))
    with (String.substring 0 (String.length (" " +:+ dir)) (" " +:+ dir)).
  rewrite substring_all, Ht.
  change ("StoreDir" =? "StoreDir")%string with true. cbv iota.
  by destruct (String.eqb dir (storeDir store)).
Qed.
End Init.

(** X20.  [init] on a cache without [nix-cache-info] writes the file
    with the line [StoreDir: <storeDir>] and nothing else; [init] on
    the cache it has left accepts the file, sets no default and leaves
    the state as it is.  The tokenizer is assumed to deliver the one
    line of that file, and [trim] to remove the blank before the
    directory. *)
Theorem init_fresh_then_again (store : Store) (util : Util) (slib : StoreLib) (s : State) :
  backend s !! "nix-cache-info" = None ->
  tokenizeString util ("StoreDir: " +:+ storeDir store +:+ str1 LF) (str1 LF)
  = ["StoreDir: " +:+ storeDir store] ->
  trim util (" " +:+ storeDir store) = storeDir store ->
  let s1 :=
    set_backend <["nix-cache-info" := ("StoreDir: " +:+ storeDir store +:+ str1 LF,
                                       "text/x-nix-cache-info")]> s in
  init store util slib s = (Ok [], s1)
  /\ init store util slib s1 = (Ok [], s1).
Proof.
  intros Hn Htok Htrim s1. split.
  - unfold init, getFile, try_catch, getFile_sink, upsertFile, gets, ret, throw, modify,
      mbindM. cbv beta. by rewrite Hn.
  - unfold init, getFile, try_catch, getFile_sink, upsertFile, gets, ret, throw, modify,
      lift, mbindM. cbv beta. subst s1. cbn [backend set_backend].
    rewrite lookup_insert_eq. cbv beta iota.
    rewrite Htok, initLines_storeDir by done. by rewrite String.eqb_refl.
Qed.

Lemma init_fresh_then_again_witness :
  let s1 :=
    set_backend <["nix-cache-info" := ("StoreDir: /nix/store" +:+ str1 LF,
                                       "text/x-nix-cache-info")]> emptyState in
  init (nixStore []) exampleUtil exampleStoreLib emptyState = (Ok [], s1)
  /\ init (nixStore []) exampleUtil exampleStoreLib s1 = (Ok [], s1).
Proof.
  apply (init_fresh_then_again (nixStore []) exampleUtil exampleStoreLib emptyState).
  - reflexivity.
  - reflexivity.
  - reflexivity.
Defined.

(** X21.  [init] never writes to a cache that has a [nix-cache-info]:
    whatever it decides, the state after the call is the state before.
    When the first line of the file names another store directory the
    call fails with the error that names both directories. *)
Theorem init_existing (store : Store) (util : Util) (slib : StoreLib) (s : State) :
  (is_Some (backend s !! "nix-cache-info") -> snd (init store util slib s) = s)
  /\ (forall text mime dir lines,
        backend s !! "nix-cache-info" = Some (text, mime) ->
        tokenizeString util text (str1 LF) = ("StoreDir: " +:+ dir) :: lines ->
        trim util (" " +:+ dir) = dir ->
        dir <> storeDir store ->
        init store util slib s = (Raise (storeDirMismatch store slib dir), s)).
Proof.
  split.
  - intros [[text mime] H].
    unfold init, getFile, try_catch, getFile_sink, upsertFile, gets, ret, throw, modify,
      lift, mbindM. cbv beta. by rewrite H.
  - intros text mime dir lines H Htok Htrim Hne.
    unfold init, getFile, try_catch, getFile_sink, upsertFile, gets, ret, throw, modify,
      lift, mbindM. cbv beta. rewrite H. cbv beta iota.
    rewrite Htok, initLines_storeDir by done.
    by rewrite (proj2 (String.eqb_neq _ _) Hne).
Qed.

Lemma init_existing_witness :
  init (nixStore []) exampleUtil exampleStoreLib stateOtherStore
  = (Raise (storeDirMismatch (nixStore []) exampleStoreLib "/gnu/store"), stateOtherStore).
Proof.
  destruct (init_existing (nixStore []) exampleUtil exampleStoreLib stateOtherStore)
    as [_ H].
  apply (H ("StoreDir: /gnu/store" +:+ str1 LF) "text/x-nix-cache-info" "/gnu/store" []).
  - reflexivity.
  - reflexivity.
  - reflexivity.
  - discriminate.
Defined.

Section Wrappers.
Context (store : Store) (hl : HashLib) (lib : CacheLib) (cfg : Config).
Context (util : Util) (slib : StoreLib).

Lemma isValidPath_result p s : exists v, isValidPath p s = (Ok v, s).
Proof.
  unfold isValidPath, cacheLookup, isValidPathUncached, fileExists, mbindM, gets, ret.
  repeat case_match; eauto.
Qed.

(** After [addToStore] has returned normally the path is valid *)
Lemma addToStore_valid info nar repair checkSigs duration s s1 :
  addToStore store hl lib cfg info nar repair checkSigs duration s = (Ok tt, s1) ->
  isValidPath (path info) s1 = (Ok true, s1).
Proof.
  intros H. apply addToStore_returned in H as [[Hv ->]|[ni Hni]].
  - unfold alreadyValid in Hv. by destruct repair.
  - by eapply isValidPath_cached.
Qed.

Lemma addTextToStore_inv name text refs repair duration s p s1 :
  addTextToStore store hl lib cfg slib name text refs repair duration s = (Ok p, s1) ->
  p = computeStorePathForText slib name text refs
  /\ isValidPath p s1 = (Ok true, s1)
  /\ (alreadyValid
        (with_references refs (ValidPathInfo_of (computeStorePathForText slib name text refs)))
        repair s = (Ok true, s) /\ s1 = s
      \/ addToStore store hl lib cfg
           (with_references refs
              (ValidPathInfo_of (computeStorePathForText slib name text refs)))
           (dumpString slib text) repair true duration s = (Ok tt, s1)).
Proof.
  unfold addTextToStore. cbv zeta. cbn [path with_references ValidPathInfo_of].
  set (p0 := computeStorePathForText slib name text refs).
  set (info := with_references refs (ValidPathInfo_of p0)).
  intros H. destruct repair.
  - rewrite (mbindM_ok (ret false) _ s false s eq_refl) in H. cbn [orb] in H.
    apply mbindM_inv in H as ([] & s2 & Ha & H). injection H as <- <-.
    split; [done|]. split; [|by right]. by apply addToStore_valid in Ha.
  - destruct (isValidPath_result p0 s) as [v Hv].
    rewrite (mbindM_ok _ _ _ _ _ Hv) in H. cbn [orb] in H. destruct v; cbn [negb] in H.
    + rewrite (mbindM_ok (ret tt) _ s tt s eq_refl) in H. injection H as <- <-.
      split; [done|]. split; [done|]. by left.
    + apply mbindM_inv in H as ([] & s2 & Ha & H). injection H as <- <-.
      split; [done|]. split; [|by right]. by apply addToStore_valid in Ha.
Qed.
End Wrappers.

(** X22.  [addTextToStore] returns the path computed from the name, the
    text and the references; when it returns the path is valid in the
    cache, and a second call without repair returns the same path and
    leaves the state as it is. *)
Theorem addTextToStore_returns (store : Store) (hl : HashLib) (lib : CacheLib)
    (cfg : Config) (slib : StoreLib) (name text : string) (refs : StorePathSet)
    (repair : bool) (duration duration' : Z) (s s1 : State) (p : StorePath) :
  addTextToStore store hl lib cfg slib name text refs repair duration s = (Ok p, s1) ->
  p = computeStorePathForText slib name text refs
  /\ isValidPath p s1 = (Ok true, s1)
  /\ addTextToStore store hl lib cfg slib name text refs false duration' s1 = (Ok p, s1).
Proof.
  intros H. apply addTextToStore_inv in H as (-> & Hv & _).
  split; [done|]. split; [done|].
  unfold addTextToStore. cbv zeta. cbn [path with_references ValidPathInfo_of].
  rewrite (mbindM_ok _ _ _ _ _ Hv). cbn [orb negb].
  by rewrite (mbindM_ok (ret tt) _ s1 tt s1 eq_refl).
Qed.

Lemma addTextToStore_returns_witness :
  let r := addTextToStore (nixStore []) nixHash (exampleLib []) exampleConfig
             exampleStoreLib "hello.txt" "hello" [] false 5 emptyState in
  let p := computeStorePathForText exampleStoreLib "hello.txt" "hello" [] in
  fst r = Ok p
  /\ isValidPath p (snd r) = (Ok true, snd r)
  /\ addTextToStore (nixStore []) nixHash (exampleLib []) exampleConfig
       exampleStoreLib "hello.txt" "hello" [] false 7 (snd r) = (Ok p, snd r).
Proof.
  intros r p. split; [vm_compute; reflexivity|].
  destruct (addTextToStore_returns (nixStore []) nixHash (exampleLib []) exampleConfig
              exampleStoreLib "hello.txt" "hello" [] false 5 7 emptyState (snd r) p)
    as (_ & H2 & H3).
  - vm_compute; reflexivity.
  - split; [exact H2|exact H3].
Defined.

(** X23.  [addToStore] from a path of the file system returns the
    fixed-output path of the contents: the path that an output of a
    derivation fixed to the same method and hash has under the same
    name.  For flat ingestion the hash is that of the file, for
    recursive ingestion that of the NAR; when the call returns the path
    is valid in the cache. *)
Theorem addToStore_path_returns (store : Store) (hl : HashLib) (lib : CacheLib)
    (cfg : Config) (util : Util) (slib : StoreLib) (name srcPath : string)
    (method : FileIngestionMethod) (hashAlgo : HashType) (filter : string -> bool)
    (repair : bool) (duration : Z) (s s1 : State) (p : StorePath) :
  addToStore_path store hl lib cfg util slib name srcPath method hashAlgo filter repair
    duration s = (Ok p, s1) ->
  exists contents,
    match method with
    | Flat => readLocalFile util srcPath = Ok contents
    | Recursive => dumpPath slib srcPath filter = Ok contents
    end
    /\ p = DerivationOutput_path store
             (DerivationOutputFixed
                (mkFixedOutputHash method (hashString hl hashAlgo contents))) name
    /\ isValidPath p s1 = (Ok true, s1).
Proof.
  unfold addToStore_path. intros H.
  apply mbindM_inv in H as ([nar h] & s2 & Hd & H). cbv zeta in H.
  cbn [fst snd path ValidPathInfo_of] in H.
  apply mbindM_inv in H as ([] & s3 & Ha & H). injection H as <- <-.
  apply addToStore_valid in Ha. cbn [path ValidPathInfo_of] in Ha.
  unfold lift in Hd. destruct method.
  - destruct (readLocalFile util srcPath) as [text|] eqn:E; [|done].
    cbn [bind] in Hd. injection Hd as <- <- <-. by exists text.
  - destruct (dumpPath slib srcPath filter) as [nar'|] eqn:E; [|done].
    cbn [bind] in Hd. injection Hd as <- <- <-. by exists nar'.
Qed.

Lemma addToStore_path_returns_witness :
  let r := addToStore_path (nixStore []) nixHash (exampleLib []) exampleConfig exampleUtil
             exampleStoreLib "hello.txt" "/tmp/hello.txt" Flat htSHA256 (fun _ => true)
             false 5 emptyState in
  exists p contents,
    fst r = Ok p
    /\ readLocalFile exampleUtil "/tmp/hello.txt" = Ok contents
    /\ p = DerivationOutput_path (nixStore [])
             (DerivationOutputFixed
                (mkFixedOutputHash Flat (hashString nixHash htSHA256 contents))) "hello.txt"
    /\ isValidPath p (snd r) = (Ok true, snd r).
Proof.
  intros r.
  destruct r as [[p|e] s1] eqn:E; [|vm_compute in E; discriminate].
  destruct (addToStore_path_returns (nixStore []) nixHash (exampleLib []) exampleConfig
              exampleUtil exampleStoreLib "hello.txt" "/tmp/hello.txt" Flat htSHA256
              (fun _ => true) false 5 emptyState s1 p E)
    as (contents & H1 & H2 & H3).
  exists p, contents. split; [reflexivity|]. split; [exact H1|]. split; [exact H2|exact H3].
Defined.

(** X24.  [getBuildLog] writes nothing.  For a derivation path it
    fetches [log/<base name>] without looking at any record.  For
    another path it answers null, not an error, when the path has no
    record or the record has no deriver, and fetches the log of the
    deriver otherwise; a log that is not there is a null answer. *)
Theorem getBuildLog_cases (store : Store) (lib : CacheLib) (util : Util) (p : StorePath)
    (s : State) :
  let logOf (drvPath : StorePath) :=
    fst <$> backend s !! ("log/" +:+ baseNameOf util (printStorePath store drvPath)) in
  backend (snd (getBuildLog store lib util p s)) = backend s
  /\ (StorePath_isDerivation util p = true ->
      getBuildLog store lib util p s = (Ok (logOf p), s))
  /\ (StorePath_isDerivation util p = false ->
      (forall msg s', queryPathInfo store lib p s = (Raise (InvalidPath msg), s') ->
         getBuildLog store lib util p s = (Ok None, s'))
      /\ (forall ni s', queryPathInfo store lib p s = (Ok ni, s') ->
            getBuildLog store lib util p s
            = (Ok (match deriver (vpi ni) with
                   | None => None
                   | Some d => logOf d
                   end), s'))).
Proof.
  intros logOf.
  assert (forall k s0, getFile k s0 = (Ok (fst <$> backend s0 !! k), s0)) as Hget.
  { intros k s0. unfold getFile, try_catch, getFile_sink, gets, ret, throw, mbindM.
    cbv beta. by destruct (backend s0 !! k) as [[data mime]|]. }
  split; [|split].
  - unfold getBuildLog. destruct (StorePath_isDerivation util p); cbn [negb].
    + rewrite (mbindM_ok (ret (Some p)) _ s (Some p) s eq_refl). by rewrite Hget.
    + pose proof (queryPathInfo_keeps_backend store lib p s) as Hb.
      unfold mbindM at 1. unfold try_catch. unfold mbindM at 1.
      destruct (queryPathInfo store lib p s) as [[ni|e] s'] eqn:Hq; simpl in Hb.
      * destruct (deriver (vpi ni)); cbn [ret]; [by rewrite Hget|done].
      * destruct e; try done.
  - intros Hd. unfold getBuildLog. rewrite Hd. cbn [negb].
    rewrite (mbindM_ok (ret (Some p)) _ s (Some p) s eq_refl). by rewrite Hget.
  - intros Hd. split.
    + intros msg s' Hq. unfold getBuildLog. rewrite Hd. cbn [negb].
      unfold mbindM at 1. unfold try_catch. unfold mbindM at 1. by rewrite Hq.
    + intros ni s' Hq. unfold getBuildLog. rewrite Hd. cbn [negb].
      pose proof (queryPathInfo_keeps_backend store lib p s) as Hb.
      rewrite Hq in Hb. simpl in Hb.
      unfold mbindM at 1. unfold try_catch. unfold mbindM at 1. rewrite Hq.
      destruct (deriver (vpi ni)); cbn [ret]; [|done].
      rewrite Hget. unfold logOf. by rewrite Hb.
Qed.

(** X25.  [writeDerivation] in read-only mode computes the path of the
    derivation and touches nothing; the write returns that same path
    whenever it returns, and the path is then valid.  The references
    it declares are the input sources and the paths of the input
    derivations; when the write is not skipped they are the references
    of the published record.  Output paths are not among them unless
    they are inputs. *)
Theorem writeDerivation_path (store : Store) (hl : HashLib) (lib : CacheLib)
    (cfg : Config) (slib : StoreLib) (drv : Derivation) (name : string) (repair : bool)
    (duration : Z) (s : State) :
  let refs := set_insert_all pathcmp (map fst (inputDrvs drv)) (inputSrcs drv) in
  let p := computeStorePathForText slib (name +:+ ".drv")
             (unparse store hl drv false None) refs in
  writeDerivation store hl lib cfg slib true drv name repair duration s = (Ok p, s)
  /\ (forall q, In q refs
                <-> In q (inputSrcs drv) \/ exists ids, In (q, ids) (inputDrvs drv))
  /\ (forall r s1,
        writeDerivation store hl lib cfg slib false drv name repair duration s = (Ok r, s1) ->
        r = p
        /\ isValidPath p s1 = (Ok true, s1)
        /\ (repair = true \/ isValidPath p s = (Ok false, s) ->
            exists ni, queryPathInfo store lib p s1 = (Ok ni, s1)
                       /\ references (vpi ni) = refs)).
Proof.
  intros refs p. split; [done|]. split.
  - intros q. unfold refs. rewrite (In_set_insert_all pathcmp), in_map_iff. split.
    + intros [([q' ids] & <- & Hin)|Hin]; [right; by exists ids|by left].
    + intros [Hin|[ids Hin]]; [by right|left; by exists (q, ids)].
  - intros r s1 H. unfold writeDerivation in H. fold refs in H.
    change (name +:+ drvExtension) with (name +:+ ".drv") in H.
    apply addTextToStore_inv in H as (-> & Hv & Hc). fold p in Hv, Hc |- *.
    split; [done|]. split; [done|].
    intros Hns. destruct Hc as [[Hskip _]|Ha].
    { exfalso. unfold alreadyValid in Hskip. cbn [path with_references ValidPathInfo_of] in Hskip.
      destruct repair; [done|]. destruct Hns as [|Hns]; [done|]. cbn [negb] in Hskip.
      congruence. }
    assert (alreadyValid (with_references refs (ValidPathInfo_of p)) repair s = (Ok false, s))
      as Hskip.
    { unfold alreadyValid. destruct repair; [done|]. by destruct Hns. }
    destruct (addToStore_inv store hl lib cfg _ _ _ _ _ _ _ Ha Hskip)
      as (s2 & acc & c & sD & Hic & Hcomp & Hadds & ->).
    destruct (ingestFinal_parts hl lib cfg (with_references refs (ValidPathInfo_of p))
                (dumpString slib (unparse store hl drv false None)) c repair duration sD)
      as (_ & Hp & _).
    eexists. split; [by apply queryPathInfo_cached|].
    by destruct (ingestRecord_fields hl lib cfg (with_references refs (ValidPathInfo_of p))
                   (dumpString slib (unparse store hl drv false None)) c)
      as (_ & _ & _ & -> & _).
Qed.

(** ** The binary cache store: edge cases *)

Import BinaryCacheStore.

(** X29.  [narFromPath] writes nothing to the backend, and its
    counters count completed exports only: when it returns, [narRead]
    has gone up by one and [narReadBytes] by the number of bytes
    delivered; when it fails, both are as before. *)
Theorem narFromPath_counts (store : Store) (lib : CacheLib) (p : StorePath) (s : State) :
  let r := narFromPath store lib p s in
  backend (snd r) = backend s
  /\ match fst r with
     | Ok nar =>
         narRead (stats (snd r)) = wrap64 (narRead (stats s) + 1)
         /\ narReadBytes (stats (snd r))
            = wrap64 (narReadBytes (stats s) + Z.of_nat (String.length nar))
     | Raise _ =>
         narRead (stats (snd r)) = narRead (stats s)
         /\ narReadBytes (stats (snd r)) = narReadBytes (stats s)
     end.
Proof.
  intros r. subst r.
  pose proof (queryPathInfo_keeps_backend store lib p s) as Hb.
  pose proof (queryPathInfo_counters store lib p cNarRead ltac:(done) s) as H1.
  pose proof (queryPathInfo_counters store lib p cNarReadBytes ltac:(done) s) as H2.
  unfold narFromPath, try_catch, getFile_sink, gets, ret, throw, lift, modify, mbindM.
  cbv beta.
  destruct (queryPathInfo store lib p s) as [[info|e] s1]; simpl in Hb, H1, H2;
    [|simpl; auto].
  destruct (decompressionKnown lib (compression info)); [|simpl; auto].
  destruct (backend s1 !! url info) as [[data mime]|]; [|simpl; auto].
  destruct (decompress lib (compression info) data) as [nar|e]; [|simpl; auto].
  simpl. by rewrite H1, H2.
Qed.

(** X30.  A path may refer to itself, and references the cache knows
    are not fetched: when every reference of [info] is the path itself
    or has a record in the first tier of the cache, the loop over the
    references passes and leaves the state as it is. *)
Theorem references_self_or_cached (store : Store) (lib : CacheLib)
    (info : ValidPathInfo) (s : State) :
  (forall r, In r (references info) ->
     r = path info \/ exists ni, pathInfoCache s !! hashPart r = Some (Some ni)) ->
  forM_ (references info) (checkReference store lib info) s = (Ok tt, s).
Proof.
  induction (references info) as [|r l IH]; intros H; [done|].
  cbn [forM_].
  assert (checkReference store lib info r s = (Ok tt, s)) as Hr.
  { unfold checkReference, try_catch.
    destruct (H r (or_introl eq_refl)) as [->|[ni Hni]].
    - by rewrite bool_decide_eq_true_2.
    - case_bool_decide; [done|]. cbn [negb].
      by rewrite (mbindM_ok _ _ _ _ _ (queryPathInfo_cached store lib _ _ _ Hni)). }
  rewrite (mbindM_ok _ _ _ _ _ Hr). apply IH. intros r' Hr'. apply H. by right.
Qed.

Lemma references_self_or_cached_witness :
  forM_ (references (infoOf pathP [pathP] None))
    (checkReference (nixStore []) (exampleLib []) (infoOf pathP [pathP] None)) emptyState
  = (Ok tt, emptyState).
Proof.
  apply (references_self_or_cached (nixStore []) (exampleLib [])
           (infoOf pathP [pathP] None) emptyState).
  intros r [<-|[]]. left. reflexivity.
Defined.
